(** * The hand engine of the six-seat Texas Hold'em table

    A shallow embedding of [frontend/lib/poker-game.ts] (class [PokerGame])
    and of the types of [frontend/types/poker.ts], followed by the
    properties of the engine.

    Conventions of the embedding.
    - JavaScript numbers that hold chips are integers ([Z]), also the
      [amount] a caller passes to [bet] and [raise], which may be negative;
      array indices and seat positions are [nat].  The doubles of the
      source agree with [Z] on comparisons, and on sums and differences
      while the numbers are integers of magnitude at most 2^53; the
      statements about an amount a method computes carry a bound that
      keeps them there ([chipLimit]).
    - The object [this] is a record [PokerGame] passed explicitly; a method
      that assigns fields returns the new record.  A [Player] object lives in
      the array [players]; mutating it through an alias ([player], [winner])
      is a write at the index the alias was read from.
    - A property read on [undefined] throws a [TypeError] in JavaScript; a
      method in which this can happen returns an [option], [None] standing
      for the throw.
    - [Array.prototype.pop] on an empty array returns [undefined]; a card
      slot is therefore an [option string], [None] standing for
      [undefined].
    - [Math.random] is an explicit oracle. *)

From Stdlib Require Import ZArith List String Bool Lia.
From stdpp Require Import base list strings pretty.

Local Open Scope string_scope.
Local Open Scope Z_scope.

(** ** Types ([types/poker.ts]) *)

(** A slot of [holeCards] or [communityCards]: a card code, or
    [undefined] when it was popped from an empty deck. *)
Definition card : Type := option string.

Inductive GameState : Type := preflop | flop | turn | river | showdown.

Definition GameState_eqb (a b : GameState) : bool :=
  match a, b with
  | preflop, preflop | flop, flop | turn, turn
  | river, river | showdown, showdown => true
  | _, _ => false
  end.

Module Player.
Record t : Type := mk {
  id : Z;
  name : string;
  stack : Z;
  holeCards : list card;
  currentBet : Z;
  hasActed : bool;
  isFolded : bool;
  isAllIn : bool
}.

Definition set_stack (v : Z) (p : t) : t :=
  mk (id p) (name p) v (holeCards p) (currentBet p) (hasActed p) (isFolded p) (isAllIn p).
Definition set_holeCards (v : list card) (p : t) : t :=
  mk (id p) (name p) (stack p) v (currentBet p) (hasActed p) (isFolded p) (isAllIn p).
Definition set_currentBet (v : Z) (p : t) : t :=
  mk (id p) (name p) (stack p) (holeCards p) v (hasActed p) (isFolded p) (isAllIn p).
Definition set_hasActed (v : bool) (p : t) : t :=
  mk (id p) (name p) (stack p) (holeCards p) (currentBet p) v (isFolded p) (isAllIn p).
Definition set_isFolded (v : bool) (p : t) : t :=
  mk (id p) (name p) (stack p) (holeCards p) (currentBet p) (hasActed p) v (isAllIn p).
Definition set_isAllIn (v : bool) (p : t) : t :=
  mk (id p) (name p) (stack p) (holeCards p) (currentBet p) (hasActed p) (isFolded p) v.
End Player.
Abbreviation Player := Player.t.

Module HandResult.
Record t : Type := mk {
  id : string;
  stackSize : Z;
  dealerPosition : nat;
  smallBlindPosition : nat;
  bigBlindPosition : nat;
  playerHands : string;
  actionSequence : string;
  winnings : string;
  totalPot : Z;
  summary : string
}.
End HandResult.
Abbreviation HandResult := HandResult.t.

(** ** The fields of [class PokerGame] *)

Record PokerGame : Type := mkGame {
  players : list Player;
  dealerPosition : nat;
  smallBlindPosition : nat;
  bigBlindPosition : nat;
  currentPlayerIndex : nat;
  smallBlind : Z;
  bigBlind : Z;
  pot : Z;
  communityCards : list card;
  currentBet : Z;
  gameState : GameState;
  stackSize : Z;
  deck : list string;
  handId : string
}.

Definition set_players (v : list Player) (g : PokerGame) : PokerGame :=
  mkGame v (dealerPosition g) (smallBlindPosition g) (bigBlindPosition g)
    (currentPlayerIndex g) (smallBlind g) (bigBlind g) (pot g) (communityCards g)
    (currentBet g) (gameState g) (stackSize g) (deck g) (handId g).
Definition set_currentPlayerIndex (v : nat) (g : PokerGame) : PokerGame :=
  mkGame (players g) (dealerPosition g) (smallBlindPosition g) (bigBlindPosition g)
    v (smallBlind g) (bigBlind g) (pot g) (communityCards g)
    (currentBet g) (gameState g) (stackSize g) (deck g) (handId g).
Definition set_pot (v : Z) (g : PokerGame) : PokerGame :=
  mkGame (players g) (dealerPosition g) (smallBlindPosition g) (bigBlindPosition g)
    (currentPlayerIndex g) (smallBlind g) (bigBlind g) v (communityCards g)
    (currentBet g) (gameState g) (stackSize g) (deck g) (handId g).
Definition set_communityCards (v : list card) (g : PokerGame) : PokerGame :=
  mkGame (players g) (dealerPosition g) (smallBlindPosition g) (bigBlindPosition g)
    (currentPlayerIndex g) (smallBlind g) (bigBlind g) (pot g) v
    (currentBet g) (gameState g) (stackSize g) (deck g) (handId g).
Definition set_currentBet (v : Z) (g : PokerGame) : PokerGame :=
  mkGame (players g) (dealerPosition g) (smallBlindPosition g) (bigBlindPosition g)
    (currentPlayerIndex g) (smallBlind g) (bigBlind g) (pot g) (communityCards g)
    v (gameState g) (stackSize g) (deck g) (handId g).
Definition set_gameState (v : GameState) (g : PokerGame) : PokerGame :=
  mkGame (players g) (dealerPosition g) (smallBlindPosition g) (bigBlindPosition g)
    (currentPlayerIndex g) (smallBlind g) (bigBlind g) (pot g) (communityCards g)
    (currentBet g) v (stackSize g) (deck g) (handId g).
Definition set_deck (v : list string) (g : PokerGame) : PokerGame :=
  mkGame (players g) (dealerPosition g) (smallBlindPosition g) (bigBlindPosition g)
    (currentPlayerIndex g) (smallBlind g) (bigBlind g) (pot g) (communityCards g)
    (currentBet g) (gameState g) (stackSize g) v (handId g).
Definition set_handId (v : string) (g : PokerGame) : PokerGame :=
  mkGame (players g) (dealerPosition g) (smallBlindPosition g) (bigBlindPosition g)
    (currentPlayerIndex g) (smallBlind g) (bigBlind g) (pot g) (communityCards g)
    (currentBet g) (gameState g) (stackSize g) (deck g) v.

(** ** JavaScript primitives used by the class *)

(** [a.pop()]: removes and returns the last element; [undefined] and no
    change on an empty array. *)
Definition pop (a : list string) : card * list string :=
  (last a, removelast a).

(** [a.join] with the empty separator on an array of card slots:
    [undefined] prints as the empty string. *)
Definition joinCards (a : list card) : string :=
  String.concat "" (map (fun c => default "" c) a).

(** A slot interpolated in a template literal: [undefined] prints as
    its name. *)
Definition showSlot (c : option card) : string :=
  match c with
  | Some (Some s) => s
  | _ => "undefined"
  end.

(** [players[i].f = ...]: a write through the element at index [i]; reading
    a field of a missing element throws. *)
Definition updatePlayer (i : nat) (f : Player -> Player) (g : PokerGame)
  : option PokerGame :=
  match players g !! i with
  | Some p => Some (set_players (<[i := f p]> (players g)) g)
  | None => None
  end.

(** [xs.forEach] with a body that can throw. *)
Fixpoint forEachM {A : Type} (body : A -> PokerGame -> option PokerGame)
    (xs : list A) (g : PokerGame) : option PokerGame :=
  match xs with
  | [] => Some g
  | x :: xs' =>
      match body x g with
      | Some g' => forEachM body xs' g'
      | None => None
      end
  end.

(** ** Construction *)

(** [initializePlayers] *)
Definition initializePlayers (g : PokerGame) : PokerGame :=
  set_players
    (map (fun i : nat =>
            Player.mk (Z.of_nat i + 1) ("Player " +:+ pretty (Z.of_nat i + 1))
                      (stackSize g) [] 0 false false false)
         (seq 0 6)) g.

(** The field initialisers of the class, before the constructor body. *)
Definition fieldDefaults (stackSize : Z) : PokerGame :=
  mkGame [] 0%nat 1%nat 2%nat 3%nat 20 40 0 [] 0 preflop stackSize [] "".

(** [constructor(stackSize, previousGame?)] *)
Definition constructor (stackSize : Z) (previousGame : option PokerGame)
  : PokerGame :=
  let this := fieldDefaults stackSize in
  match previousGame with
  | Some prev =>
      mkGame (players prev) (dealerPosition prev) (smallBlindPosition prev)
        (bigBlindPosition prev) (currentPlayerIndex prev) (smallBlind this)
        (bigBlind this) (pot prev) (communityCards prev) (currentBet prev)
        (gameState prev) stackSize (deck prev) (handId prev)
  | None => initializePlayers this
  end.

(** [new PokerGame(stackSize)] *)
Definition newGame (stackSize : Z) : PokerGame := constructor stackSize None.

(** ** The deck *)

Definition suits : list string := ["h"; "d"; "c"; "s"].
Definition ranks : list string :=
  ["2"; "3"; "4"; "5"; "6"; "7"; "8"; "9"; "T"; "J"; "Q"; "K"; "A"].

(** The 52 codes in the order the two nested loops push them. *)
Definition orderedDeck : list string :=
  flat_map (fun suit => map (fun rank => rank +:+ suit) ranks) suits.

(** [[a[i], a[j]] = [a[j], a[i]]].  The loop only swaps inside the
    array ([j <= i < a.length]); the last case is never taken there. *)
Definition swap (a : list string) (i j : nat) : list string :=
  match a !! i, a !! j with
  | Some x, Some y => <[j := x]> (<[i := y]> a)
  | _, _ => a
  end.

(** The loop of [shuffleDeck], [i] running down to 1.  [rnd i] is the
    oracle behind [Math.floor(Math.random() * (i + 1))]; that expression
    lies in [0 .. i], which the model enforces by reducing modulo
    [i + 1]. *)
Fixpoint shuffleLoop (rnd : nat -> nat) (i : nat) (shuffled : list string)
  : list string :=
  match i with
  | O => shuffled
  | S i' => shuffleLoop rnd i' (swap shuffled i (rnd i mod (i + 1))%nat)
  end.

Definition shuffleDeck (rnd : nat -> nat) (deck : list string) : list string :=
  shuffleLoop rnd (length deck - 1) deck.

Definition createDeck (rnd : nat -> nat) : list string :=
  shuffleDeck rnd orderedDeck.

(** ** [startNewHand] *)

(** [this.players[j].holeCards.push(this.deck.pop()!)] *)
Definition dealHoleCard (j : nat) (g : PokerGame) : option PokerGame :=
  match players g !! j with
  | Some p =>
      let '(c, d) := pop (deck g) in
      Some (set_players
              (<[j := Player.set_holeCards (Player.holeCards p ++ [c])%list p]> (players g))
              (set_deck d g))
  | None => None
  end.

Definition resetPlayer (p : Player) : Player :=
  Player.set_isAllIn false
    (Player.set_isFolded false
       (Player.set_hasActed false
          (Player.set_currentBet 0 (Player.set_holeCards [] p)))).

(** [hid] is the string [generateHandId] draws. *)
Definition startNewHand (rnd : nat -> nat) (hid : string) (g : PokerGame)
  : option PokerGame :=
  let g := set_handId hid g in
  let g := set_deck (createDeck rnd) g in
  let g := set_communityCards [] g in
  let g := set_pot 0 g in
  let g := set_currentBet (bigBlind g) g in
  let g := set_gameState preflop g in
  let g := set_players (map resetPlayer (players g)) g in
  g ← forEachM (fun _ : nat => forEachM dealHoleCard (seq 0 6)) (seq 0 2) g;
  g ← updatePlayer (smallBlindPosition g)
        (fun p => Player.set_stack (Player.stack p - smallBlind g) p) g;
  g ← updatePlayer (smallBlindPosition g)
        (fun p => Player.set_currentBet (smallBlind g) p) g;
  g ← updatePlayer (bigBlindPosition g)
        (fun p => Player.set_stack (Player.stack p - bigBlind g) p) g;
  g ← updatePlayer (bigBlindPosition g)
        (fun p => Player.set_currentBet (bigBlind g) p) g;
  let g := set_pot (smallBlind g + bigBlind g) g in
  Some (set_currentPlayerIndex ((bigBlindPosition g + 1) mod 6)%nat g).

(** ** Queries *)

(** [this.players.filter((p) => !p.isFolded)] *)
Definition notFolded (ps : list Player) : list Player :=
  List.filter (fun p => negb (Player.isFolded p)) ps.

(** [isHandComplete] *)
Definition isHandComplete (g : PokerGame) : bool :=
  (length (notFolded (players g)) <=? 1)%nat
  || GameState_eqb (gameState g) showdown.

(** [getCurrentPlayer]: [null] once the hand is complete, otherwise
    [players[currentPlayerIndex]], which is [undefined] outside the array.
    Callers only test the result with [!player], so both are [None]. *)
Definition getCurrentPlayer (g : PokerGame) : option Player :=
  if isHandComplete g then None else players g !! currentPlayerIndex g.

(** [getValidActions].  Like every method it is given [this] and hands it
    back; the body only reads. *)
Definition getValidActions (g : PokerGame) : list string * PokerGame :=
  match getCurrentPlayer g with
  | None => ([], g)
  | Some player =>
      if Player.isFolded player || Player.isAllIn player then ([], g)
      else
        let actions := ["fold"] in
        let callAmount := currentBet g - Player.currentBet player in
        let actions :=
          if callAmount =? 0 then (actions ++ ["check"])%list
          else if callAmount <? Player.stack player then (actions ++ ["call"])%list
          else actions in
        let actions :=
          if callAmount <? Player.stack player then
            if currentBet g =? 0 then (actions ++ ["bet"])%list
            else (actions ++ ["raise"])%list
          else actions in
        let actions :=
          if 0 <? Player.stack player then (actions ++ ["allin"])%list
          else actions in
        (actions, g)
  end.

(** [isBettingRoundComplete] *)
Definition isBettingRoundComplete (g : PokerGame) : bool :=
  let activePlayers :=
    List.filter (fun p => negb (Player.isFolded p) && negb (Player.isAllIn p))
           (players g) in
  forallb (fun p => Player.hasActed p && (Player.currentBet p =? currentBet g))
          activePlayers
  || (length activePlayers <=? 1)%nat.

(** [shouldDealCommunityCards] *)
Definition shouldDealCommunityCards (g : PokerGame) : bool :=
  (GameState_eqb (gameState g) flop && (length (communityCards g) =? 0)%nat)
  || (GameState_eqb (gameState g) turn && (length (communityCards g) =? 3)%nat)
  || (GameState_eqb (gameState g) river && (length (communityCards g) =? 4)%nat).

(** ** Turn rotation and street progression *)

(** [this.currentPlayerIndex = (this.currentPlayerIndex + 1) % 6] *)
Definition stepIndex (g : PokerGame) : PokerGame :=
  set_currentPlayerIndex ((currentPlayerIndex g + 1) mod 6)%nat g.

(** [players[currentPlayerIndex].isFolded || players[currentPlayerIndex].isAllIn];
    throws when the seat is missing. *)
Definition currentIsOut (g : PokerGame) : option bool :=
  p ← players g !! currentPlayerIndex g;
  Some (Player.isFolded p || Player.isAllIn p).

(** The [while] loop of [moveToNextBettingRound].  [left] is
    [6 - attempts]: the body returns at its seventh run, when [attempts]
    reaches 7. *)
Fixpoint seekFromDealer (left : nat) (g : PokerGame) : option PokerGame :=
  out ← currentIsOut g;
  if out : bool then
    let g := stepIndex g in
    match left with
    | O => Some g
    | S left' => seekFromDealer left' g
    end
  else Some g.

(** [moveToNextBettingRound] *)
Definition moveToNextBettingRound (g : PokerGame) : option PokerGame :=
  let g :=
    set_players
      (map (fun p => Player.set_currentBet 0 (Player.set_hasActed false p))
           (players g)) g in
  let g := set_currentBet 0 g in
  let g :=
    match gameState g with
    | preflop => set_gameState flop g
    | flop => set_gameState turn g
    | turn => set_gameState river g
    | river => set_gameState showdown g
    | showdown => g
    end in
  let activePlayers := notFolded (players g) in
  let allAllIn :=
    forallb Player.isAllIn activePlayers || (length activePlayers <=? 1)%nat in
  if allAllIn then Some (set_gameState showdown g)
  else
    let g := set_currentPlayerIndex ((dealerPosition g + 1) mod 6)%nat g in
    seekFromDealer 6 g.

(** The [do ... while] loop of [moveToNextPlayer]; [left] is
    [6 - attempts] at the start of a run of the body. *)
Fixpoint seekNext (left : nat) (g : PokerGame) : option PokerGame :=
  let g := stepIndex g in
  match left with
  | O => Some g
  | S left' =>
      out ← currentIsOut g;
      if out : bool then seekNext left' g else Some g
  end.

(** [moveToNextPlayer] *)
Definition moveToNextPlayer (g : PokerGame) : option PokerGame :=
  if isHandComplete g then Some g
  else if isBettingRoundComplete g then moveToNextBettingRound g
  else seekNext 6 g.

(** ** Actions *)

(** The object [player] is [players[currentPlayerIndex]]: writing to it
    writes that element. *)
Definition setCurrent (p : Player) (g : PokerGame) : PokerGame :=
  set_players (<[currentPlayerIndex g := p]> (players g)) g.

(** [if (player.stack === 0) player.isAllIn = true] *)
Definition markAllInIfBroke (p : Player) : Player :=
  if Player.stack p =? 0 then Player.set_isAllIn true p else p.

(** The [forEach] that re-opens the action for the other live seats. *)
Definition resetOthersActed (g : PokerGame) : PokerGame :=
  set_players
    (imap (fun index p =>
             if negb (index =? currentPlayerIndex g)%nat && negb (Player.isFolded p)
             then Player.set_hasActed false p else p)
          (players g)) g.

(** An action returns its narrative and the new [this]. *)
Definition finish (result : string) (g : PokerGame) : option (string * PokerGame) :=
  g' ← moveToNextPlayer g; Some (result, g').

Definition fold (g : PokerGame) : option (string * PokerGame) :=
  match getCurrentPlayer g with
  | None => Some ("", g)
  | Some player =>
      let player := Player.set_hasActed true (Player.set_isFolded true player) in
      let g := setCurrent player g in
      finish ("Player " +:+ pretty (Player.id player) +:+ " folds") g
  end.

Definition check (g : PokerGame) : option (string * PokerGame) :=
  match getCurrentPlayer g with
  | None => Some ("", g)
  | Some player =>
      if Player.currentBet player <? currentBet g then Some ("", g)
      else
        let player := Player.set_hasActed true player in
        let g := setCurrent player g in
        finish ("Player " +:+ pretty (Player.id player) +:+ " checks") g
  end.

Definition call (g : PokerGame) : option (string * PokerGame) :=
  match getCurrentPlayer g with
  | None => Some ("", g)
  | Some player =>
      let callAmount := currentBet g - Player.currentBet player in
      let actualCall := Z.min callAmount (Player.stack player) in
      let player := Player.set_stack (Player.stack player - actualCall) player in
      let player := Player.set_currentBet (Player.currentBet player + actualCall) player in
      let player := Player.set_hasActed true player in
      let g := set_pot (pot g + actualCall) g in
      let player := markAllInIfBroke player in
      let g := setCurrent player g in
      finish ("Player " +:+ pretty (Player.id player) +:+ " calls "
              +:+ pretty actualCall) g
  end.

Definition bet (amount : Z) (g : PokerGame) : option (string * PokerGame) :=
  match getCurrentPlayer g with
  | None => Some ("", g)
  | Some player =>
      if 0 <? currentBet g then Some ("", g)
      else
        let betAmount := Z.min amount (Player.stack player) in
        let player := Player.set_stack (Player.stack player - betAmount) player in
        let player := Player.set_currentBet betAmount player in
        let player := Player.set_hasActed true player in
        let g := set_currentBet betAmount g in
        let g := set_pot (pot g + betAmount) g in
        let player := markAllInIfBroke player in
        let g := setCurrent player g in
        let g := resetOthersActed g in
        finish ("Player " +:+ pretty (Player.id player) +:+ " bets "
                +:+ pretty betAmount) g
  end.

Definition raise (amount : Z) (g : PokerGame) : option (string * PokerGame) :=
  match getCurrentPlayer g with
  | None => Some ("", g)
  | Some player =>
      if currentBet g =? 0 then Some ("", g)
      else
        let callAmount := currentBet g - Player.currentBet player in
        let totalAmount := Z.min (callAmount + amount) (Player.stack player) in
        let player := Player.set_stack (Player.stack player - totalAmount) player in
        let player := Player.set_currentBet (Player.currentBet player + totalAmount) player in
        let player := Player.set_hasActed true player in
        let g := set_currentBet (Player.currentBet player) g in
        let g := set_pot (pot g + totalAmount) g in
        let player := markAllInIfBroke player in
        let g := setCurrent player g in
        let g := resetOthersActed g in
        finish ("Player " +:+ pretty (Player.id player) +:+ " raises to "
                +:+ pretty (Player.currentBet player)) g
  end.

Definition allIn (g : PokerGame) : option (string * PokerGame) :=
  match getCurrentPlayer g with
  | None => Some ("", g)
  | Some player =>
      if Player.stack player =? 0 then Some ("", g)
      else
        let allInAmount := Player.stack player in
        let player := Player.set_stack 0 player in
        let player := Player.set_currentBet (Player.currentBet player + allInAmount) player in
        let player := Player.set_hasActed true player in
        let player := Player.set_isAllIn true player in
        let g := set_pot (pot g + allInAmount) g in
        let g := setCurrent player g in
        let g :=
          if currentBet g <? Player.currentBet player
          then resetOthersActed (set_currentBet (Player.currentBet player) g)
          else g in
        finish ("Player " +:+ pretty (Player.id player) +:+ " goes all-in with "
                +:+ pretty allInAmount) g
  end.

(** ** Community cards *)

(** [this.deck.pop()] with the result dropped: the burn. *)
Definition burn (g : PokerGame) : PokerGame :=
  set_deck (snd (pop (deck g))) g.

(** [this.communityCards.push(this.deck.pop()!)] *)
Definition reveal (g : PokerGame) : PokerGame :=
  let '(c, d) := pop (deck g) in
  set_communityCards (communityCards g ++ [c])%list (set_deck d g).

(** [dealCommunityCards]: the narrative, or [null]. *)
Definition dealCommunityCards (g : PokerGame) : option string * PokerGame :=
  if GameState_eqb (gameState g) flop && (length (communityCards g) =? 0)%nat then
    let g := reveal (reveal (reveal (burn g))) in
    (Some ("Flop cards dealt: " +:+ joinCards (communityCards g)), g)
  else if GameState_eqb (gameState g) turn && (length (communityCards g) =? 3)%nat then
    let g := reveal (burn g) in
    (Some ("Turn card dealt: " +:+ showSlot (communityCards g !! 3%nat)), g)
  else if GameState_eqb (gameState g) river && (length (communityCards g) =? 4)%nat then
    let g := reveal (burn g) in
    (Some ("River card dealt: " +:+ showSlot (communityCards g !! 4%nat)), g)
  else (None, g).

(** ** Settlement *)

(** The array [activePlayers] of [getHandResult] holds references to the
    objects of [players]; a reference is the index of the object. *)
Definition activeRefs (ps : list Player) : list nat :=
  map fst (List.filter (fun ip => negb (Player.isFolded (snd ip))) (imap pair ps)).

Definition playerHandsOf (ps : list Player) : string :=
  String.concat "; "
    (imap (fun i p => "Player " +:+ pretty (Z.of_nat i + 1) +:+ ": "
                      +:+ joinCards (Player.holeCards p)) ps).

Definition winningsOf (stackSize : Z) (ps : list Player) : string :=
  String.concat "; "
    (imap (fun i p =>
             let change := Player.stack p - stackSize in
             "Player " +:+ pretty (Z.of_nat i + 1) +:+ ": "
             +:+ (if 0 <=? change then "+" else "") +:+ pretty change) ps).

(** [getHandResult]; [winner.stack] throws when every seat has folded. *)
Definition getHandResult (g : PokerGame) : option (HandResult * PokerGame) :=
  winner ← head (activeRefs (players g));
  g ← updatePlayer winner (fun p => Player.set_stack (Player.stack p + pot g) p) g;
  let playerHands := playerHandsOf (players g) in
  let actionSequence := "f.f.f.r300.c.f.3hKdQs.x.b100.c.Ac.x.x.Th.b80.r160.c" in
  let winnings := winningsOf (stackSize g) (players g) in
  Some (HandResult.mk (handId g) (stackSize g) (dealerPosition g)
          (smallBlindPosition g) (bigBlindPosition g) playerHands actionSequence
          winnings (pot g) ("Hand #" +:+ handId g +:+ " ended"),
        g).

(** [reset] *)
Definition reset (g : PokerGame) : PokerGame :=
  let g := initializePlayers g in
  mkGame (players g) 0%nat 1%nat 2%nat 3%nat (smallBlind g) (bigBlind g) 0 [] 0
    preflop (stackSize g) [] "".

(** ** Hands as sequences of calls *)

(** The six action methods a caller can invoke. *)
Inductive Action : Type :=
  | Fold | Check | Call | Bet (amount : Z) | Raise (amount : Z) | AllIn.

Definition act (a : Action) (g : PokerGame) : option (string * PokerGame) :=
  match a with
  | Fold => fold g
  | Check => check g
  | Call => call g
  | Bet amount => bet amount g
  | Raise amount => raise amount g
  | AllIn => allIn g
  end.

(** The states of one hand played on a new table with starting stack
    [S]: [startNewHand], then action methods and [dealCommunityCards] in
    any order.  With [settled = true] calls of [getHandResult] are part of
    the hand as well. *)
Inductive reach (settled : bool) (S : Z) : PokerGame -> Prop :=
  | reach_start rnd hid g :
      startNewHand rnd hid (newGame S) = Some g -> reach settled S g
  | reach_act a g narrative g' :
      reach settled S g -> act a g = Some (narrative, g') -> reach settled S g'
  | reach_deal g :
      reach settled S g -> reach settled S (snd (dealCommunityCards g))
  | reach_settle g r g' :
      settled = true -> reach settled S g ->
      getHandResult g = Some (r, g') -> reach settled S g'.


(** The action methods called one after the other. *)
Fixpoint play (actions : list Action) (g : PokerGame) : option PokerGame :=
  match actions with
  | [] => Some g
  | a :: rest =>
      match act a g with
      | Some (_, g') => play rest g'
      | None => None
      end
  end.

(** Chips in front of the seats. *)
Definition totalStacks (ps : list Player) : Z :=
  foldr Z.add 0 (map Player.stack ps).


(** * Vocabulary of the statements *)

(** ** The state [startNewHand] leaves on a new table, by deck *)

(** The card returned by the [k+1]-th [pop] of a deck [d]. *)
Definition popped (k : nat) (d : list string) : card :=
  last (Nat.iter k (@removelast string) d).

Definition seatAfterDeal (d : list string) (j : nat) (stack bet : Z) : Player :=
  Player.mk (Z.of_nat j + 1) ("Player " +:+ pretty (Z.of_nat j + 1)) stack
    [popped j d; popped (6 + j) d] bet false false false.

Definition dealtHand (d : list string) (hid : string) (S : Z) : PokerGame :=
  mkGame
    [ seatAfterDeal d 0 S 0; seatAfterDeal d 1 (S - 20) 20;
      seatAfterDeal d 2 (S - 40) 40; seatAfterDeal d 3 S 0;
      seatAfterDeal d 4 S 0; seatAfterDeal d 5 S 0 ]
    0%nat 1%nat 2%nat 3%nat 20 40 (20 + 40) [] 40 preflop S
    (Nat.iter 12 (@removelast string) d) hid.

(** A table used in examples: the oracle always answers 0. *)
Definition exampleHand : PokerGame :=
  dealtHand (createDeck (fun _ => 0%nat)) "h" 10000.

(** A card slot that holds a card. *)
Definition defined (c : card) : Prop := is_Some c.

(** A seat whose two hole cards were both drawn from the deck. *)
Definition handDealt (p : Player) : Prop :=
  length (Player.holeCards p) = 2%nat /\ Forall defined (Player.holeCards p).

(** The number of [pop]s the next call of [dealCommunityCards] performs:
    a burn and three cards on the flop, a burn and one card on the turn
    and on the river, none when its guards fail. *)
Definition dealPops (g : PokerGame) : nat :=
  if GameState_eqb (gameState g) flop && (length (communityCards g) =? 0)%nat then 4
  else if GameState_eqb (gameState g) turn && (length (communityCards g) =? 3)%nat then 2
  else if GameState_eqb (gameState g) river && (length (communityCards g) =? 4)%nat then 2
  else 0.

(** Board size against deck size: 12 hole cards are out, then a burn
    goes with each batch of the board. *)
Definition deckAccount (g : PokerGame) : Prop :=
  let board := length (communityCards g) in
  let left := length (deck g) in
  ((board = 0 /\ left = 40) \/ (board = 3 /\ left = 36)
   \/ (board = 4 /\ left = 34) \/ (board = 5 /\ left = 32))%nat.

(** Seat [w], holding [p], is the lowest-indexed seat that has not
    folded. *)
Definition lowestUnfolded (ps : list Player) (w : nat) (p : Player) : Prop :=
  ps !! w = Some p /\ Player.isFolded p = false
  /\ forall j q, (j < w)%nat -> ps !! j = Some q -> Player.isFolded q = true.

(** The test [allAllIn] of [moveToNextBettingRound]: every seat still in
    the hand is all-in, or at most one seat is still in the hand. *)
Definition allInOrAlone (g : PokerGame) : bool :=
  forallb Player.isAllIn (notFolded (players g))
  || (length (notFolded (players g)) <=? 1)%nat.

(** ** Rejection

    The guards under which the action methods return before writing
    anything: no current player (the hand is complete), [check] facing a
    larger bet, [bet] when a bet stands, [raise] when none stands, [allIn]
    with an empty stack. *)
Definition rejected (a : Action) (g : PokerGame) : bool :=
  match getCurrentPlayer g with
  | None => true
  | Some actor =>
      match a with
      | Check => Player.currentBet actor <? currentBet g
      | Bet _ => 0 <? currentBet g
      | Raise _ => currentBet g =? 0
      | AllIn => Player.stack actor =? 0
      | Fold | Call => false
      end
  end.

(** A call that tells the caller nothing and changes nothing: it returns
    normally, with the empty narrative and the state it was given. *)
Definition silentNoOp (g : PokerGame) (r : option (string * PokerGame)) : Prop :=
  r = Some ("", g).

(** A call that fails explicitly: in this class the only channel besides
    the returned string is a throw. *)
Definition explicitFailure (r : option (string * PokerGame)) : Prop :=
  r = None.

(** The chips an action moves from the actor's stack to the pot. *)
Definition committed (a : Action) (g : PokerGame) : Z :=
  match getCurrentPlayer g with
  | None => 0
  | Some actor =>
      if rejected a g then 0
      else
        match a with
        | Fold | Check => 0
        | Call => Z.min (currentBet g - Player.currentBet actor) (Player.stack actor)
        | Bet amount => Z.min amount (Player.stack actor)
        | Raise amount =>
            Z.min (currentBet g - Player.currentBet actor + amount) (Player.stack actor)
        | AllIn => Player.stack actor
        end
  end.

(** The seat of the actor after an accepted action. *)
Definition actorAfter (a : Action) (g : PokerGame) (actor : Player) : Player :=
  let p := Player.set_stack (Player.stack actor - committed a g) actor in
  match a with
  | Fold => Player.set_isFolded true p
  | Check => p
  | Call | Bet _ | Raise _ => markAllInIfBroke p
  | AllIn => Player.set_isAllIn true p
  end.

(** ** What an action leaves alone

    A seat without the two per-street fields. *)
Definition strip (p : Player) : Player :=
  Player.set_currentBet 0 (Player.set_hasActed false p).

Definition seats (g : PokerGame) : list Player := map strip (players g).

(** The part of the state that turn rotation and street progression do
    not touch. *)
Definition frame (g : PokerGame) : list Player * Z * list string * list card :=
  (seats g, pot g, deck g, communityCards g).

(** * Vocabulary of the further properties *)

(** ** One call on a table *)

(** A call of an action method, of [dealCommunityCards] or of
    [getHandResult], from any state. *)
Inductive step : PokerGame -> PokerGame -> Prop :=
  | step_act a g narrative g' : act a g = Some (narrative, g') -> step g g'
  | step_deal g : step g (snd (dealCommunityCards g))
  | step_settle g r g' : getHandResult g = Some (r, g') -> step g g'.

(** The order of the streets. *)
Definition streetRank (s : GameState) : nat :=
  match s with
  | preflop => 0 | flop => 1 | turn => 2 | river => 3 | showdown => 4
  end.

(** The test of the two rotation loops: the seat cannot act. *)
Definition isOut (p : Player) : bool := Player.isFolded p || Player.isAllIn p.

(** The fields no method but the constructor, [startNewHand] and [reset]
    assigns. *)
Definition table (g : PokerGame) : nat * nat * nat * Z * Z * Z * string :=
  (dealerPosition g, smallBlindPosition g, bigBlindPosition g,
   smallBlind g, bigBlind g, stackSize g, handId g).

(** The name of an action method in the list of [getValidActions]. *)
Definition label (a : Action) : string :=
  match a with
  | Fold => "fold" | Check => "check" | Call => "call"
  | Bet _ => "bet" | Raise _ => "raise" | AllIn => "allin"
  end.

(** The state an accepted action has written when it calls
    [moveToNextPlayer], and the narrative it then returns ([act_writes]
    relates both to the methods). *)
Definition writes (a : Action) (g : PokerGame) (player : Player) : PokerGame :=
  match a with
  | Fold =>
      setCurrent (Player.set_hasActed true (Player.set_isFolded true player)) g
  | Check => setCurrent (Player.set_hasActed true player) g
  | Call =>
      let actualCall :=
        Z.min (currentBet g - Player.currentBet player) (Player.stack player) in
      setCurrent
        (markAllInIfBroke
           (Player.set_hasActed true
              (Player.set_currentBet (Player.currentBet player + actualCall)
                 (Player.set_stack (Player.stack player - actualCall) player))))
        (set_pot (pot g + actualCall) g)
  | Bet amount =>
      let betAmount := Z.min amount (Player.stack player) in
      resetOthersActed
        (setCurrent
           (markAllInIfBroke
              (Player.set_hasActed true
                 (Player.set_currentBet betAmount
                    (Player.set_stack (Player.stack player - betAmount) player))))
           (set_pot (pot g + betAmount) (set_currentBet betAmount g)))
  | Raise amount =>
      let totalAmount :=
        Z.min (currentBet g - Player.currentBet player + amount)
              (Player.stack player) in
      resetOthersActed
        (setCurrent
           (markAllInIfBroke
              (Player.set_hasActed true
                 (Player.set_currentBet (Player.currentBet player + totalAmount)
                    (Player.set_stack (Player.stack player - totalAmount) player))))
           (set_pot (pot g + totalAmount)
              (set_currentBet (Player.currentBet player + totalAmount) g)))
  | AllIn =>
      let total := Player.currentBet player + Player.stack player in
      let g1 :=
        setCurrent
          (Player.set_isAllIn true
             (Player.set_hasActed true
                (Player.set_currentBet total (Player.set_stack 0 player))))
          (set_pot (pot g + Player.stack player) g) in
      if currentBet g <? total
      then resetOthersActed (set_currentBet total g1)
      else g1
  end.

Definition narrativeOf (a : Action) (g : PokerGame) (player : Player) : string :=
  "Player " +:+ pretty (Player.id player) +:+
  match a with
  | Fold => " folds"
  | Check => " checks"
  | Call =>
      " calls " +:+ pretty (Z.min (currentBet g - Player.currentBet player)
                                  (Player.stack player))
  | Bet amount => " bets " +:+ pretty (Z.min amount (Player.stack player))
  | Raise amount =>
      " raises to "
      +:+ pretty (Player.currentBet player
                  + Z.min (currentBet g - Player.currentBet player + amount)
                          (Player.stack player))
  | AllIn => " goes all-in with " +:+ pretty (Player.stack player)
  end.

(** Every card slot on the table: the deck, the board and the hole
    cards. *)
Definition cardsInPlay (g : PokerGame) : list card :=
  (map Some (deck g) ++ communityCards g
   ++ concat (map Player.holeCards (players g)))%list.

(** The actions that re-open the betting: a bet, a raise, and an all-in
    whose street total exceeds the current bet. *)
Definition reopens (a : Action) (g : PokerGame) : bool :=
  match a with
  | Bet _ | Raise _ => true
  | AllIn =>
      match getCurrentPlayer g with
      | Some actor => currentBet g <? Player.currentBet actor + Player.stack actor
      | None => false
      end
  | Fold | Check | Call => false
  end.

(** * The page that drives the engine ([PokerApp], the component that
      imports [PokerGame])

    The handlers of the component, over the state its [useState] hooks
    hold.  A handler reads the state of the render it was created in and
    its [set...] calls give the state of the next render; functional
    updates of the play log apply in the order they are queued.  The hand
    history comes from the server and is left out; of the network only
    the bodies handed to [saveHandToDatabase] are kept, in [posted]. *)

Module Page.
Record t : Type := mk {
  game : option PokerGame;
  stackSize : Z;
  betAmount : Z;
  raiseAmount : Z;
  playLog : list string;
  isGameStarted : bool;
  posted : list HandResult
}.
End Page.
Abbreviation Page := Page.t.

(** The initial values of the hooks. *)
Definition initialPage : Page := Page.mk None 10000 40 40 [] false [].

(** A string in a condition: the empty string is falsy. *)
Definition truthy (s : string) : bool := negb (String.eqb s "").

(** [amount || fallback] with [amount] a number or [undefined]. *)
Definition orElse (amount : option Z) (fallback : Z) : Z :=
  match amount with
  | Some n => if n =? 0 then fallback else n
  | None => fallback
  end.

(** [applyStacks] *)
Definition applyStacks (pg : Page) : Page :=
  Page.mk (Some (newGame (Page.stackSize pg))) (Page.stackSize pg)
    (Page.betAmount pg) (Page.raiseAmount pg) [] (Page.isGameStarted pg)
    (Page.posted pg).

(** [resetGame]; the object [game.reset()] mutates is dropped. *)
Definition resetGame (pg : Page) : Page :=
  match Page.game pg with
  | Some _ =>
      Page.mk (Some (newGame (Page.stackSize pg))) (Page.stackSize pg)
        (Page.betAmount pg) (Page.raiseAmount pg) [] false (Page.posted pg)
  | None => applyStacks pg
  end.

(** The lines [startHand] writes to the play log. *)
Definition startLog (g : PokerGame) : list string :=
  (imap (fun index player =>
           "Player " +:+ pretty (Z.of_nat index + 1) +:+ " is dealt "
           +:+ joinCards (Player.holeCards player)) (players g)
   ++ [ "";
        "Player " +:+ pretty (Z.of_nat (dealerPosition g) + 1) +:+ " is the dealer";
        "Player " +:+ pretty (Z.of_nat (smallBlindPosition g) + 1)
        +:+ " posts small blind - " +:+ pretty (smallBlind g) +:+ " chips";
        "Player " +:+ pretty (Z.of_nat (bigBlindPosition g) + 1)
        +:+ " posts big blind - " +:+ pretty (bigBlind g) +:+ " chips";
        "" ])%list.

(** [startHand]; [startNewHand] mutates the object the state holds. *)
Definition startHand (rnd : nat -> nat) (hid : string) (pg : Page) : option Page :=
  match Page.game pg with
  | None => Some pg
  | Some game =>
      game ← startNewHand rnd hid game;
      Some (Page.mk (Some game) (Page.stackSize pg) (Page.betAmount pg)
              (Page.raiseAmount pg) (startLog game) true (Page.posted pg))
  end.

(** The [switch] of [handleAction]. *)
Definition dispatch (action : string) (amount : option Z) (pg : Page)
    (game : PokerGame) : option (string * PokerGame) :=
  if String.eqb action "fold" then fold game
  else if String.eqb action "check" then check game
  else if String.eqb action "call" then call game
  else if String.eqb action "bet" then bet (orElse amount (Page.betAmount pg)) game
  else if String.eqb action "raise" then
    raise (orElse amount (Page.raiseAmount pg)) game
  else if String.eqb action "allin" then allIn game
  else Some ("", game).

(** [handleAction] *)
Definition handleAction (action : string) (amount : option Z) (pg : Page)
  : option Page :=
  match Page.game pg with
  | None => Some pg
  | Some game =>
      if negb (Page.isGameStarted pg) then Some pg
      else
        match getCurrentPlayer game with
        | None => Some pg
        | Some _ =>
            '(actionResult, game) ← dispatch action amount pg game;
            let log :=
              if truthy actionResult then (Page.playLog pg ++ [actionResult])%list
              else Page.playLog pg in
            '(game, log, posted, started) ←
              (if isHandComplete game then
                 '(handResult, game) ← getHandResult game;
                 Some (game,
                       (log ++ [ ""; HandResult.summary handResult;
                                 "Final pot was "
                                 +:+ pretty (HandResult.totalPot handResult) ])%list,
                       (Page.posted pg ++ [handResult])%list,
                       false)
               else Some (game, log, Page.posted pg, Page.isGameStarted pg));
            let '(game, log) :=
              if shouldDealCommunityCards game then
                let '(communityCards, game) := dealCommunityCards game in
                (game,
                 match communityCards with
                 | Some line => if truthy line then (log ++ [line])%list else log
                 | None => log
                 end)
              else (game, log) in
            Some (Page.mk (Some (constructor (stackSize game) (Some game)))
                    (Page.stackSize pg) (Page.betAmount pg) (Page.raiseAmount pg)
                    log started posted)
        end
  end.

(** [validActions] of a render. *)
Definition validActions (pg : Page) : list string :=
  match Page.game pg with
  | Some game =>
      if negb (Page.isGameStarted pg) then [] else fst (getValidActions game)
  | None => []
  end.

(** One click (or input) on a control the render shows enabled.  The
    number typed into the stack field is taken to be an integer [n]; the
    statements about chip amounts are made for the pages of
    [pageReachSmall] below, where it is within the limit of exact
    arithmetic. *)
Inductive click : Page -> Page -> Prop :=
  | click_stack_input n pg :
      Page.isGameStarted pg = false ->
      click pg (Page.mk (Page.game pg) n (Page.betAmount pg) (Page.raiseAmount pg)
                  (Page.playLog pg) (Page.isGameStarted pg) (Page.posted pg))
  | click_apply pg : Page.isGameStarted pg = false -> click pg (applyStacks pg)
  | click_reset pg : click pg (resetGame pg)
  | click_action name pg pg' :
      In name ["fold"; "check"; "call"; "allin"; "bet"; "raise"] ->
      In name (validActions pg) ->
      handleAction name None pg = Some pg' -> click pg pg'
  | click_bet_minus pg :
      In "bet" (validActions pg) ->
      click pg (Page.mk (Page.game pg) (Page.stackSize pg)
                  (Z.max 40 (Page.betAmount pg - 40)) (Page.raiseAmount pg)
                  (Page.playLog pg) (Page.isGameStarted pg) (Page.posted pg))
  | click_bet_plus pg :
      In "bet" (validActions pg) ->
      click pg (Page.mk (Page.game pg) (Page.stackSize pg)
                  (Page.betAmount pg + 40) (Page.raiseAmount pg)
                  (Page.playLog pg) (Page.isGameStarted pg) (Page.posted pg))
  | click_raise_minus pg :
      In "raise" (validActions pg) ->
      click pg (Page.mk (Page.game pg) (Page.stackSize pg) (Page.betAmount pg)
                  (Z.max 40 (Page.raiseAmount pg - 40))
                  (Page.playLog pg) (Page.isGameStarted pg) (Page.posted pg))
  | click_raise_plus pg :
      In "raise" (validActions pg) ->
      click pg (Page.mk (Page.game pg) (Page.stackSize pg) (Page.betAmount pg)
                  (Page.raiseAmount pg + 40)
                  (Page.playLog pg) (Page.isGameStarted pg) (Page.posted pg))
  | click_deal_cards rnd hid pg pg' :
      Page.isGameStarted pg = false -> Page.game pg <> None ->
      startHand rnd hid pg = Some pg' -> click pg pg'.

(** The pages a user can reach. *)
Inductive pageReach : Page -> Prop :=
  | pageReach_initial : pageReach initialPage
  | pageReach_click pg pg' : pageReach pg -> click pg pg' -> pageReach pg'.

(** The action a button name stands for, with the amounts of the page. *)
Definition actionOf (name : string) (pg : Page) : option Action :=
  if String.eqb name "fold" then Some Fold
  else if String.eqb name "check" then Some Check
  else if String.eqb name "call" then Some Call
  else if String.eqb name "bet" then Some (Bet (Page.betAmount pg))
  else if String.eqb name "raise" then Some (Raise (Page.raiseAmount pg))
  else if String.eqb name "allin" then Some AllIn
  else None.

(** What holds of the table of every page a user can reach. *)
Definition pageInvariant (pg : Page) : Prop :=
  40 <= Page.betAmount pg /\ 40 <= Page.raiseAmount pg
  /\ match Page.game pg with
     | None => Page.isGameStarted pg = false
     | Some g =>
         length (players g) = 6%nat
         /\ (smallBlindPosition g < 6)%nat /\ (bigBlindPosition g < 6)%nat
         /\ (1 <= length (notFolded (players g)))%nat
         /\ (if Page.isGameStarted pg
             then isHandComplete g = false
                  /\ pot g + totalStacks (players g) = 6 * stackSize g
             else totalStacks (players g) = 6 * stackSize g)
     end.

(** What identifies the seats and the button of a table: dealer and blind
    positions, blind amounts and the ids of the seats in order. *)
Definition fixtures (g : PokerGame) : nat * nat * nat * Z * Z * list Z :=
  (dealerPosition g, smallBlindPosition g, bigBlindPosition g,
   smallBlind g, bigBlind g, map Player.id (players g)).

(** * Vocabulary of the statements about amounts

    ** Exact arithmetic

    The numbers of the source are doubles.  On integers a sum or a
    difference is computed exactly as long as the operands and the result
    have magnitude at most 2^53; beyond that the result is rounded, and a
    number typed into the page need not be an integer at all.  The
    embedding computes in [Z], so a statement about an amount a method
    computes is made for integers of magnitude at most [chipLimit] = 2^50:
    the methods add or subtract at most three such numbers to get a result
    ([stack - min(currentBet - player.currentBet + amount, stack)],
    [stack + pot + pot]), which stays below 2^53. *)

Definition chipLimit : Z := 1125899906842624.

Definition small (n : Z) : Prop := - chipLimit <= n <= chipLimit.

(** [Number.MAX_SAFE_INTEGER] and [Number.isSafeInteger] on an integer. *)
Definition MAX_SAFE_INTEGER : Z := 9007199254740991.

Definition isSafeInteger (n : Z) : Prop :=
  - MAX_SAFE_INTEGER <= n <= MAX_SAFE_INTEGER.

(** The amount a caller passes with an action. *)
Definition amountOf (a : Action) : Z :=
  match a with
  | Bet amount | Raise amount => amount
  | Fold | Check | Call | AllIn => 0
  end.

(** An action whose amount is a chip count within the limit. *)
Definition modest (a : Action) : Prop := 0 <= amountOf a <= chipLimit.

(** ** One hand on any table

    The states of one hand dealt on the table [t], with the actions
    called so far: [startNewHand] on [t], then action methods and
    [dealCommunityCards] in any order and, with [settled = true],
    [getHandResult].  [reach settled S] is the case [t = newGame S]. *)
Inductive hand (settled : bool) (t : PokerGame)
  : list Action -> PokerGame -> Prop :=
  | hand_start rnd hid g :
      startNewHand rnd hid t = Some g -> hand settled t [] g
  | hand_act acts a g narrative g' :
      hand settled t acts g -> act a g = Some (narrative, g') ->
      hand settled t (acts ++ [a])%list g'
  | hand_deal acts g :
      hand settled t acts g -> hand settled t acts (snd (dealCommunityCards g))
  | hand_settle acts g r g' :
      settled = true -> hand settled t acts g ->
      getHandResult g = Some (r, g') -> hand settled t acts g'.

(** The seats that can still act: the filter of
    [isBettingRoundComplete]. *)
Definition canAct (ps : list Player) : list Player :=
  List.filter (fun p => negb (Player.isFolded p) && negb (Player.isAllIn p)) ps.

(** ** Pages with small numbers *)

Definition smallGame (g : PokerGame) : Prop :=
  small (stackSize g) /\ small (pot g) /\ small (currentBet g)
  /\ Forall (fun p => small (Player.stack p) /\ small (Player.currentBet p))
            (players g).

Definition smallPage (pg : Page) : Prop :=
  small (Page.stackSize pg) /\ small (Page.betAmount pg)
  /\ small (Page.raiseAmount pg)
  /\ match Page.game pg with
     | Some g => smallGame g
     | None => True
     end.

(** The pages a user can reach while every number on the page -- the
    stack size typed in, the bet and raise amounts, and the stacks, street
    bets, pot and current bet of the table -- is an integer within the
    limit. *)
Inductive pageReachSmall : Page -> Prop :=
  | pageReachSmall_initial : pageReachSmall initialPage
  | pageReachSmall_click pg pg' :
      pageReachSmall pg -> click pg pg' -> smallPage pg' -> pageReachSmall pg'.

(** ** Chips in range

    Every seat's stack and street bet are non-negative and together at
    most [S], and the current bet is between 0 and [S]. *)
Definition inRange (S : Z) (g : PokerGame) : Prop :=
  Forall (fun p => 0 <= Player.stack p /\ 0 <= Player.currentBet p
                   /\ Player.stack p + Player.currentBet p <= S)
         (players g)
  /\ 0 <= currentBet g <= S.

(** * Properties *)

#[local] Arguments Nat.modulo : simpl never.
#[local] Arguments createDeck : simpl never.

(** Case analysis on the test of a conditional in the goal. *)
Ltac split_if :=
  match goal with |- context [if ?b then _ else _] => destruct b end.

(** ** The deck keeps its 52 cards through the shuffle *)

Lemma length_swap (a : list string) i j : length (swap a i j) = length a.
Proof.
  unfold swap. destruct (a !! i), (a !! j); trivial.
  now rewrite !length_insert.
Qed.

Lemma length_shuffleLoop rnd i (a : list string) :
  length (shuffleLoop rnd i a) = length a.
Proof.
  revert a. induction i as [|i IH]; intros a; simpl; trivial.
  now rewrite IH, length_swap.
Qed.

Lemma length_createDeck rnd : length (createDeck rnd) = 52%nat.
Proof. unfold createDeck, shuffleDeck. now rewrite length_shuffleLoop. Qed.

(** ** What [startNewHand] leaves on a new table *)

Lemma startNewHand_newGame rnd hid S :
  startNewHand rnd hid (newGame S) = Some (dealtHand (createDeck rnd) hid S).
Proof.
  unfold startNewHand, newGame, constructor, dealtHand, seatAfterDeal, popped.
  generalize (createDeck rnd) as d. intros d.
  cbv -[last removelast Z.add Z.sub]. reflexivity.
Qed.

Lemma length_removelast (d : list string) :
  length (removelast d) = (length d - 1)%nat.
Proof. rewrite removelast_firstn_len, length_take. lia. Qed.

Lemma length_removelast_iter (k : nat) (d : list string) :
  length (Nat.iter k (@removelast string) d) = (length d - k)%nat.
Proof.
  induction k as [|k IH]; simpl; [lia|].
  rewrite length_removelast, IH. lia.
Qed.

Lemma popped_defined k (d : list string) :
  (k < length d)%nat -> is_Some (popped k d).
Proof.
  intros Hk. unfold popped. apply last_is_Some.
  intros E. apply (f_equal length) in E.
  rewrite length_removelast_iter in E. simpl in E. lia.
Qed.

(** C7. On a new table with [stackSize = 10000], [startNewHand] returns
    with pot 60 (small blind 20 plus big blind 40), stack 9980 at the
    small-blind seat and 9960 at the big-blind seat, exactly two hole
    cards, both drawn from the deck, at each of the six seats,
    [currentBet] equal to the big blind, and the seat after the big blind
    first to act; this for every shuffle and hand id. *)
Theorem startNewHand_posts_blinds rnd hid :
  exists g,
    startNewHand rnd hid (newGame 10000) = Some g
    /\ pot g = 60 /\ pot g = smallBlind g + bigBlind g
    /\ smallBlind g = 20 /\ bigBlind g = 40
    /\ Player.stack <$> players g !! smallBlindPosition g = Some 9980
    /\ Player.stack <$> players g !! bigBlindPosition g = Some 9960
    /\ length (players g) = 6%nat
    /\ Forall (fun p => length (Player.holeCards p) = 2%nat
                        /\ Forall defined (Player.holeCards p)) (players g)
    /\ currentBet g = bigBlind g
    /\ currentPlayerIndex g = ((bigBlindPosition g + 1) mod 6)%nat
    /\ gameState g = preflop.
Proof.
  exists (dealtHand (createDeck rnd) hid 10000).
  split; [apply startNewHand_newGame|].
  repeat (split; [reflexivity|]).
  split; [|repeat split].
  pose proof (length_createDeck rnd) as Hlen.
  simpl. repeat constructor; apply popped_defined; rewrite Hlen; lia.
Qed.

(** ** The unit tests of the repository ([__tests__/poker-game.test.ts])

    The embedding passes them on the example table. *)

Example test_initial_stacks :
  length (players (newGame 10000)) = 6%nat
  /\ Player.stack <$> players (newGame 10000) !! 0%nat = Some 10000.
Proof. split; reflexivity. Qed.

Example test_fold_action :
  exists g,
    fold exampleHand = Some ("Player 4 folds", g)
    /\ Player.isFolded <$> players g !! 3%nat = Some true.
Proof. eexists. split; [vm_compute; reflexivity | reflexivity]. Qed.

Example test_check_when_no_bet :
  exists g,
    check (set_currentPlayerIndex 0 (set_currentBet 0 exampleHand))
    = Some ("Player 1 checks", g).
Proof. eexists. vm_compute. reflexivity. Qed.

Example test_valid_actions :
  fst (getValidActions exampleHand) = ["fold"; "call"; "raise"; "allin"].
Proof. reflexivity. Qed.

(** ** The valid-actions query *)

(** C5. With a current actor, [getValidActions] does not offer "check"
    while [currentBet] exceeds the actor's street bet, does not offer
    "bet" while [currentBet > 0], does not offer "raise" while
    [currentBet = 0]; and the call hands back the state it was given. *)
Theorem getValidActions_turn_legality g actor :
  getCurrentPlayer g = Some actor ->
  (Player.currentBet actor < currentBet g -> ~ In "check" (fst (getValidActions g)))
  /\ (0 < currentBet g -> ~ In "bet" (fst (getValidActions g)))
  /\ (currentBet g = 0 -> ~ In "raise" (fst (getValidActions g)))
  /\ snd (getValidActions g) = g.
Proof.
  intros Hactor. unfold getValidActions. rewrite Hactor.
  destruct (Player.isFolded actor || Player.isAllIn actor).
  { simpl. tauto. }
  destruct (Z.eqb_spec (currentBet g - Player.currentBet actor) 0) as [E0|E0];
    destruct (Z.ltb_spec (currentBet g - Player.currentBet actor) (Player.stack actor));
    destruct (Z.eqb_spec (currentBet g) 0);
    destruct (Z.ltb_spec 0 (Player.stack actor));
    simpl; repeat split; intros Hc Hin;
    repeat (destruct Hin as [Hin|Hin]; try discriminate Hin); try lia; try contradiction.
Qed.

Lemma getValidActions_turn_legality_witness :
  getCurrentPlayer exampleHand = Some (seatAfterDeal (createDeck (fun _ => 0%nat)) 3 10000 0)
  /\ ~ In "check" (fst (getValidActions exampleHand))
  /\ snd (getValidActions exampleHand) = exampleHand.
Proof.
  pose proof (getValidActions_turn_legality exampleHand
                (seatAfterDeal (createDeck (fun _ => 0%nat)) 3 10000 0) eq_refl)
    as (Hcheck & _ & _ & Hsame).
  split; [reflexivity|]. split; [apply Hcheck; reflexivity | exact Hsame].
Defined.

(** The query is also pure when there is no actor. *)
Lemma getValidActions_pure g : snd (getValidActions g) = g.
Proof.
  unfold getValidActions. destruct (getCurrentPlayer g) as [p|]; trivial.
  now destruct (Player.isFolded p || Player.isAllIn p).
Qed.

(** ** Rejected actions *)

Lemma rejected_act a g : rejected a g = true -> act a g = Some ("", g).
Proof.
  unfold rejected. destruct a; simpl;
    unfold fold, check, call, bet, raise, allIn;
    destruct (getCurrentPlayer g) as [p|]; trivial;
    try discriminate; now intros ->.
Qed.

Lemma rejected_when_complete a g : isHandComplete g = true -> rejected a g = true.
Proof. intros H. unfold rejected, getCurrentPlayer. now rewrite H. Qed.

(** C2 as stated fails: [check] by the first actor of the
    example hand, who faces the big blind, is rejected, and the call is
    a silent no-op rather than an explicit failure. *)
Lemma illegal_check_is_silent :
  exists actor,
    getCurrentPlayer exampleHand = Some actor
    /\ currentBet exampleHand = 40 /\ Player.currentBet actor = 0
    /\ rejected Check exampleHand = true
    /\ silentNoOp exampleHand (act Check exampleHand)
    /\ ~ explicitFailure (act Check exampleHand).
Proof.
  assert (H : act Check exampleHand = Some ("", exampleHand))
    by (apply rejected_act; reflexivity).
  eexists. split; [reflexivity|].
  split; [reflexivity|]. split; [reflexivity|]. split; [reflexivity|].
  split; [exact H|]. unfold explicitFailure. rewrite H. discriminate.
Qed.

(** C2, amended. An action whose guard fails returns normally with the
    empty string as its narrative: nothing is thrown and no error value
    exists, the empty string being the only sign of the rejection. *)
Theorem rejected_returns_empty_string a g :
  rejected a g = true ->
  fst <$> act a g = Some "" /\ ~ explicitFailure (act a g).
Proof.
  intros H. rewrite (rejected_act a g H). split; [reflexivity|].
  unfold explicitFailure. discriminate.
Qed.

Lemma rejected_returns_empty_string_witness :
  rejected (Bet 100) exampleHand = true
  /\ fst <$> act (Bet 100) exampleHand = Some ""
  /\ ~ explicitFailure (act (Bet 100) exampleHand).
Proof.
  split; [reflexivity|].
  apply (rejected_returns_empty_string (Bet 100) exampleHand). reflexivity.
Defined.

(** C3. A rejected action (no current player because the hand is
    complete, [check] facing a larger bet, [bet] while a bet stands,
    [raise] while none stands, [allIn] with an empty stack) returns the
    record it was given: pot, current bet, street, community cards, deck,
    current player index and the six seats are all as before. *)
Theorem rejected_action_changes_nothing a g :
  rejected a g = true \/ isHandComplete g = true ->
  exists narrative g',
    act a g = Some (narrative, g')
    /\ g' = g
    /\ pot g' = pot g /\ currentBet g' = currentBet g
    /\ gameState g' = gameState g /\ communityCards g' = communityCards g
    /\ deck g' = deck g /\ currentPlayerIndex g' = currentPlayerIndex g
    /\ players g' = players g.
Proof.
  intros H.
  assert (Hrej : rejected a g = true)
    by (destruct H as [H|H]; [exact H | now apply rejected_when_complete]).
  exists "", g. rewrite (rejected_act a g Hrej). repeat split.
Qed.

Lemma rejected_action_changes_nothing_witness :
  rejected Check exampleHand = true
  /\ exists narrative g',
       act Check exampleHand = Some (narrative, g') /\ g' = exampleHand.
Proof.
  split; [reflexivity|].
  destruct (rejected_action_changes_nothing Check exampleHand (or_introl eq_refl))
    as (n & g' & Hact & Hg & _).
  exists n, g'. split; assumption.
Defined.

(** ** Turn rotation and street progression: frame and totality *)

Lemma strip_strip p : strip (strip p) = strip p.
Proof. reflexivity. Qed.

Lemma map_strip_strip ps : map strip (map strip ps) = map strip ps.
Proof. rewrite map_map. apply map_ext. intros; apply strip_strip. Qed.

Lemma seekNext_inv left g g' :
  seekNext left g = Some g' -> exists i, g' = set_currentPlayerIndex i g.
Proof.
  revert g. induction left as [|left IH]; intros g; simpl.
  - intros [= <-]. eexists; reflexivity.
  - destruct (currentIsOut (stepIndex g)) as [[|]|]; simpl; try discriminate.
    + intros H. apply IH in H as [i ->]. eexists; reflexivity.
    + intros [= <-]. eexists; reflexivity.
Qed.

Lemma seekFromDealer_inv left g g' :
  seekFromDealer left g = Some g' -> exists i, g' = set_currentPlayerIndex i g.
Proof.
  revert g. induction left as [|left IH]; intros g; simpl;
    destruct (currentIsOut g) as [[|]|]; simpl; try discriminate.
  - intros [= <-]. eexists; reflexivity.
  - intros [= <-]. exists (currentPlayerIndex g). now destruct g.
  - intros H. apply IH in H as [i ->]. eexists; reflexivity.
  - intros [= <-]. exists (currentPlayerIndex g). now destruct g.
Qed.

Lemma moveToNextBettingRound_inv g g' :
  moveToNextBettingRound g = Some g' ->
  players g' = map strip (players g) /\ pot g' = pot g /\ deck g' = deck g
  /\ communityCards g' = communityCards g /\ currentBet g' = 0.
Proof.
  unfold moveToNextBettingRound. cbn [gameState set_currentBet set_players].
  destruct (gameState g);
    (split_if;
     [ intros [= <-] | intros H; apply seekFromDealer_inv in H as [i ->] ]);
    repeat split; reflexivity.
Qed.

Lemma moveToNextPlayer_frame g g' :
  moveToNextPlayer g = Some g' -> frame g' = frame g.
Proof.
  unfold moveToNextPlayer, frame, seats.
  destruct (isHandComplete g); [now intros [= <-]|].
  destruct (isBettingRoundComplete g).
  - intros H. apply moveToNextBettingRound_inv in H as (-> & -> & -> & -> & _).
    now rewrite map_strip_strip.
  - intros H. apply seekNext_inv in H as [i ->]. reflexivity.
Qed.

Lemma currentIsOut_total g :
  (currentPlayerIndex g < length (players g))%nat -> is_Some (currentIsOut g).
Proof.
  intros H. unfold currentIsOut.
  destruct (lookup_lt_is_Some_2 _ _ H) as [p ->]. simpl. eauto.
Qed.

Lemma stepIndex_in_range g :
  length (players g) = 6%nat ->
  (currentPlayerIndex (stepIndex g) < length (players (stepIndex g)))%nat.
Proof.
  intros H. simpl. rewrite H. apply Nat.mod_upper_bound. lia.
Qed.

Lemma seekNext_total left g :
  length (players g) = 6%nat -> is_Some (seekNext left g).
Proof.
  revert g. induction left as [|left IH]; intros g Hlen; simpl; [eauto|].
  destruct (currentIsOut_total _ (stepIndex_in_range g Hlen)) as [[|] ->]; simpl.
  - apply IH. exact Hlen.
  - eauto.
Qed.

Lemma seekFromDealer_total left g :
  length (players g) = 6%nat -> (currentPlayerIndex g < 6)%nat ->
  is_Some (seekFromDealer left g).
Proof.
  revert g. induction left as [|left IH]; intros g Hlen Hidx; simpl;
    (destruct (currentIsOut_total g) as [[|] ->]; [lia| |]); simpl; eauto.
  apply IH; [exact Hlen|]. simpl. apply Nat.mod_upper_bound. lia.
Qed.

Lemma moveToNextBettingRound_total g :
  length (players g) = 6%nat -> is_Some (moveToNextBettingRound g).
Proof.
  intros Hlen. unfold moveToNextBettingRound.
  cbn [gameState set_currentBet set_players].
  destruct (gameState g);
    (split_if; [eauto|]);
    (apply seekFromDealer_total;
     [ simpl; now rewrite length_map | simpl; apply Nat.mod_upper_bound; lia ]).
Qed.

(** On a table of six, turn rotation never throws. *)
Lemma moveToNextPlayer_total g :
  length (players g) = 6%nat -> is_Some (moveToNextPlayer g).
Proof.
  intros Hlen. unfold moveToNextPlayer.
  destruct (isHandComplete g); [eauto|].
  destruct (isBettingRoundComplete g).
  - now apply moveToNextBettingRound_total.
  - now apply seekNext_total.
Qed.

(** ** The effect of an action on seats, pot and cards *)

Lemma getCurrentPlayer_Some g p :
  getCurrentPlayer g = Some p ->
  isHandComplete g = false /\ players g !! currentPlayerIndex g = Some p.
Proof.
  unfold getCurrentPlayer. destruct (isHandComplete g); [discriminate|]. auto.
Qed.

Lemma seats_setCurrent p g :
  seats (setCurrent p g) = <[currentPlayerIndex g := strip p]> (seats g).
Proof. unfold seats, setCurrent. simpl. apply list_fmap_insert. Qed.

Lemma seats_resetOthersActed g : seats (resetOthersActed g) = seats g.
Proof.
  unfold seats, resetOthersActed. simpl. apply list_eq. intros i.
  rewrite !list_lookup_fmap, list_lookup_imap.
  destruct (players g !! i) as [p|]; simpl; trivial.
  now destruct (negb (i =? currentPlayerIndex g)%nat && negb (Player.isFolded p)).
Qed.

Lemma finish_inv result g r :
  finish result g = Some r ->
  exists g', r = (result, g') /\ frame g' = frame g.
Proof.
  unfold finish. destruct (moveToNextPlayer g) as [g'|] eqn:E; simpl; [|discriminate].
  intros [= <-]. exists g'. split; [reflexivity|]. now apply moveToNextPlayer_frame.
Qed.

Lemma finish_total result g :
  length (players g) = 6%nat -> is_Some (finish result g).
Proof.
  intros H. unfold finish.
  destruct (moveToNextPlayer_total g H) as [g' ->]. simpl. eauto.
Qed.

Lemma act_accepted a g actor r :
  getCurrentPlayer g = Some actor -> rejected a g = false ->
  act a g = Some r ->
  exists g',
    snd r = g'
    /\ seats g' = <[currentPlayerIndex g := strip (actorAfter a g actor)]> (seats g)
    /\ pot g' = pot g + committed a g
    /\ deck g' = deck g /\ communityCards g' = communityCards g.
Proof.
  intros Hactor Hrej Hact.
  unfold actorAfter, committed. rewrite Hactor, Hrej.
  unfold rejected in Hrej. rewrite Hactor in Hrej.
  destruct a; simpl in Hact;
    unfold fold, check, call, bet, raise, allIn in Hact;
    rewrite Hactor in Hact; try rewrite Hrej in Hact;
    apply finish_inv in Hact as (g' & -> & Hframe);
    exists g'; (split; [reflexivity|]);
    unfold frame in Hframe; injection Hframe as Hs Hp Hd Hc;
    rewrite Hs, Hp, Hd, Hc; clear Hs Hp Hd Hc Hrej Hactor;
    try destruct (_ <? _);
    rewrite ?seats_resetOthersActed, ?seats_setCurrent;
    unfold seats; simpl; rewrite ?Z.sub_0_r, ?Z.sub_diag;
    repeat split; try lia; try reflexivity;
    first [ rewrite list_fmap_insert; reflexivity
          | unfold markAllInIfBroke; simpl; destruct (_ =? 0); reflexivity ].
Qed.

Lemma rejected_false_actor a g :
  rejected a g = false -> exists actor, getCurrentPlayer g = Some actor.
Proof.
  unfold rejected. destruct (getCurrentPlayer g) as [p|]; [eauto|discriminate].
Qed.

Lemma length_resetOthersActed g :
  length (players (resetOthersActed g)) = length (players g).
Proof. unfold resetOthersActed. simpl. apply length_imap. Qed.

(** On a table of six, no action throws. *)
Lemma act_total a g :
  length (players g) = 6%nat -> is_Some (act a g).
Proof.
  intros Hlen.
  destruct a; simpl; unfold fold, check, call, bet, raise, allIn;
    (destruct (getCurrentPlayer g) as [p|]; [|eauto]);
    try (match goal with |- context [if ?b then Some _ else _] => destruct b end;
         [eauto|]);
    apply finish_total;
    try split_if;
    rewrite ?length_resetOthersActed; simpl; now rewrite length_insert.
Qed.

Lemma act_length a g r :
  act a g = Some r -> length (players (snd r)) = length (players g).
Proof.
  intros Hact. destruct (rejected a g) eqn:Hrej.
  - rewrite (rejected_act a g Hrej) in Hact. now injection Hact as <-.
  - destruct (rejected_false_actor a g Hrej) as [actor Hactor].
    destruct (act_accepted a g actor r Hactor Hrej Hact) as (g' & -> & Hs & _).
    apply (f_equal length) in Hs. unfold seats in Hs.
    now rewrite length_insert, !length_map in Hs.
Qed.

(** ** Chip conservation *)

Lemma totalStacks_insert ps i p q :
  ps !! i = Some p ->
  totalStacks (<[i := q]> ps) = totalStacks ps - Player.stack p + Player.stack q.
Proof.
  unfold totalStacks. revert i. induction ps as [|x ps IH]; intros [|i]; simpl;
    try discriminate.
  - intros [= ->]. lia.
  - intros H. rewrite (IH i H). lia.
Qed.

Lemma totalStacks_seats g : totalStacks (seats g) = totalStacks (players g).
Proof.
  unfold totalStacks, seats. f_equal. rewrite map_map. now apply map_ext.
Qed.

Lemma stack_actorAfter a g actor :
  Player.stack (actorAfter a g actor) = Player.stack actor - committed a g.
Proof.
  unfold actorAfter, markAllInIfBroke. destruct a; simpl; trivial;
    now destruct (_ =? 0).
Qed.

Lemma seats_lookup_actor g actor :
  getCurrentPlayer g = Some actor ->
  seats g !! currentPlayerIndex g = Some (strip actor).
Proof.
  intros H. apply getCurrentPlayer_Some in H as [_ H].
  unfold seats. now rewrite list_lookup_fmap, H.
Qed.

(** An action moves [committed] chips from the seats to the pot. *)
Lemma act_chips a g r :
  act a g = Some r ->
  pot (snd r) + totalStacks (players (snd r)) = pot g + totalStacks (players g).
Proof.
  intros Hact. destruct (rejected a g) eqn:Hrej.
  - rewrite (rejected_act a g Hrej) in Hact. now injection Hact as <-.
  - destruct (rejected_false_actor a g Hrej) as [actor Hactor].
    destruct (act_accepted a g actor r Hactor Hrej Hact) as (g' & -> & Hs & Hp & _).
    rewrite <- (totalStacks_seats g'), Hs, Hp.
    rewrite (totalStacks_insert _ _ _ _ (seats_lookup_actor g actor Hactor)).
    rewrite totalStacks_seats. change (Player.stack (strip ?p)) with (Player.stack p).
    rewrite stack_actorAfter. lia.
Qed.

Lemma dealCommunityCards_players g :
  players (snd (dealCommunityCards g)) = players g
  /\ pot (snd (dealCommunityCards g)) = pot g.
Proof.
  unfold dealCommunityCards, reveal, burn.
  repeat split_if;
    simpl; auto.
Qed.

Lemma reach_play settled S actions g g' :
  reach settled S g -> play actions g = Some g' -> reach settled S g'.
Proof.
  revert g. induction actions as [|a rest IH]; intros g Hg; simpl.
  - now intros [= <-].
  - destruct (act a g) as [[n g1]|] eqn:E; [|discriminate].
    intros H. apply (IH g1); [|exact H]. now apply (reach_act _ _ a g n).
Qed.

Lemma reach_exampleHand settled : reach settled 10000 exampleHand.
Proof.
  apply (reach_start _ _ (fun _ => 0%nat) "h"). apply startNewHand_newGame.
Qed.

(** ** The deck is never exhausted *)

Lemma getHandResult_inv g r g' :
  getHandResult g = Some (r, g') ->
  exists w p,
    head (activeRefs (players g)) = Some w
    /\ players g !! w = Some p
    /\ g' = set_players
              (<[w := Player.set_stack (Player.stack p + pot g) p]> (players g)) g
    /\ HandResult.totalPot r = pot g
    /\ HandResult.actionSequence r
       = "f.f.f.r300.c.f.3hKdQs.x.b100.c.Ac.x.x.Th.b80.r160.c".
Proof.
  unfold getHandResult, updatePlayer.
  destruct (head (activeRefs (players g))) as [w|]; simpl; [|discriminate].
  destruct (players g !! w) as [p|] eqn:Hp; simpl; [|discriminate].
  intros [= <- <-]. exists w, p. repeat split. exact Hp.
Qed.

Lemma handDealt_strip p : handDealt (strip p) <-> handDealt p.
Proof. reflexivity. Qed.

Lemma handDealt_seats g :
  Forall handDealt (seats g) <-> Forall handDealt (players g).
Proof. unfold seats. rewrite Forall_fmap. reflexivity. Qed.

Lemma holeCards_actorAfter a g actor :
  Player.holeCards (actorAfter a g actor) = Player.holeCards actor.
Proof.
  unfold actorAfter, markAllInIfBroke. destruct a; simpl; trivial;
    now destruct (_ =? 0).
Qed.

Lemma act_cards a g r :
  act a g = Some r ->
  deck (snd r) = deck g /\ communityCards (snd r) = communityCards g
  /\ (Forall handDealt (players g) -> Forall handDealt (players (snd r))).
Proof.
  intros Hact. destruct (rejected a g) eqn:Hrej.
  - rewrite (rejected_act a g Hrej) in Hact. injection Hact as <-. auto.
  - destruct (rejected_false_actor a g Hrej) as [actor Hactor].
    destruct (act_accepted a g actor r Hactor Hrej Hact)
      as (g' & -> & Hs & _ & Hd & Hc).
    repeat split; trivial.
    intros Hall. apply handDealt_seats. rewrite Hs.
    apply Forall_insert; [now apply handDealt_seats|].
    apply handDealt_strip. unfold handDealt. rewrite holeCards_actorAfter.
    apply getCurrentPlayer_Some in Hactor as [_ Hactor].
    exact (Forall_lookup_1 _ _ _ _ Hall Hactor).
Qed.

Lemma pop_defined (d : list string) :
  (0 < length d)%nat -> defined (fst (pop d)).
Proof.
  intros H. unfold pop, defined. simpl. apply last_is_Some.
  destruct d; [simpl in H; lia | discriminate].
Qed.

Lemma reveal_spec g :
  (0 < length (deck g))%nat ->
  Forall defined (communityCards g) ->
  length (deck (reveal g)) = (length (deck g) - 1)%nat
  /\ length (communityCards (reveal g)) = S (length (communityCards g))
  /\ Forall defined (communityCards (reveal g))
  /\ players (reveal g) = players g.
Proof.
  intros Hd Hc. unfold reveal, pop. simpl.
  rewrite length_removelast, length_app. simpl. repeat split; try lia.
  apply Forall_app. split; [exact Hc|].
  constructor; [|constructor]. apply (pop_defined _ Hd).
Qed.

Lemma burn_spec g :
  length (deck (burn g)) = (length (deck g) - 1)%nat
  /\ communityCards (burn g) = communityCards g
  /\ players (burn g) = players g.
Proof. unfold burn, pop. simpl. now rewrite length_removelast. Qed.

Lemma dealCommunityCards_cards g :
  deckAccount g -> Forall defined (communityCards g) ->
  deckAccount (snd (dealCommunityCards g))
  /\ Forall defined (communityCards (snd (dealCommunityCards g))).
Proof.
  intros Hacc Hdef. unfold dealCommunityCards.
  repeat (match goal with |- context [if ?b then _ else _] => destruct b eqn:? end);
    simpl; auto.
  - apply andb_true_iff in Heqb as [_ Hn%Nat.eqb_eq].
    assert (Hd : length (deck g) = 40%nat) by (unfold deckAccount in Hacc; lia).
    destruct (burn_spec g) as (Hb1 & Hb2 & _).
    destruct (reveal_spec (burn g)) as (H1 & H2 & H3 & _);
      [lia | now rewrite Hb2 |].
    destruct (reveal_spec (reveal (burn g))) as (H4 & H5 & H6 & _); [lia | trivial |].
    destruct (reveal_spec (reveal (reveal (burn g)))) as (H7 & H8 & H9 & _);
      [lia | trivial |].
    split; [|trivial]. unfold deckAccount. rewrite H7, H8, H4, H5, H1, H2, Hb1, Hb2. lia.
  - apply andb_true_iff in Heqb0 as [_ Hn%Nat.eqb_eq].
    assert (Hd : length (deck g) = 36%nat) by (unfold deckAccount in Hacc; lia).
    destruct (burn_spec g) as (Hb1 & Hb2 & _).
    destruct (reveal_spec (burn g)) as (H1 & H2 & H3 & _);
      [lia | now rewrite Hb2 |].
    split; [|trivial]. unfold deckAccount. rewrite H1, H2, Hb1, Hb2. lia.
  - apply andb_true_iff in Heqb1 as [_ Hn%Nat.eqb_eq].
    assert (Hd : length (deck g) = 34%nat) by (unfold deckAccount in Hacc; lia).
    destruct (burn_spec g) as (Hb1 & Hb2 & _).
    destruct (reveal_spec (burn g)) as (H1 & H2 & H3 & _);
      [lia | now rewrite Hb2 |].
    split; [|trivial]. unfold deckAccount. rewrite H1, H2, Hb1, Hb2. lia.
Qed.

Lemma dealPops_bound g : (dealPops g <= 4)%nat.
Proof.
  unfold dealPops.
  repeat split_if; lia.
Qed.

(** The invariant behind C8. *)
Lemma reach_cards settled S g :
  reach settled S g ->
  deckAccount g /\ Forall defined (communityCards g)
  /\ Forall handDealt (players g).
Proof.
  induction 1 as [rnd hid g Hstart | a g n g' _ IH Hact
                 | g _ IH | g r g' _ _ IH Hres].
  - rewrite startNewHand_newGame in Hstart. injection Hstart as <-.
    pose proof (length_createDeck rnd) as Hlen.
    split; [|split].
    + left. split; [reflexivity|].
      change (length (Nat.iter 12 (@removelast string) (createDeck rnd)) = 40%nat).
      rewrite length_removelast_iter, Hlen. reflexivity.
    + constructor.
    + simpl. repeat constructor; apply popped_defined; rewrite Hlen; lia.
  - destruct IH as (Hacc & Hdef & Hall).
    destruct (act_cards a g _ Hact) as (Hd & Hc & Hh). simpl in Hd, Hc, Hh.
    unfold deckAccount. rewrite Hd, Hc. auto.
  - destruct IH as (Hacc & Hdef & Hall).
    destruct (dealCommunityCards_cards g Hacc Hdef) as [H1 H2].
    repeat split; trivial.
    now destruct (dealCommunityCards_players g) as [-> _].
  - destruct IH as (Hacc & Hdef & Hall).
    apply getHandResult_inv in Hres as (w & p & _ & Hp & -> & _).
    repeat split; trivial. simpl.
    apply Forall_insert; [exact Hall|].
    exact (Forall_lookup_1 _ _ _ _ Hall Hp).
Qed.

(** ** Capped commitment *)

Lemma act_actor a g actor r :
  getCurrentPlayer g = Some actor -> act a g = Some r ->
  exists actor',
    players (snd r) !! currentPlayerIndex g = Some actor'
    /\ pot (snd r) = pot g + committed a g
    /\ (rejected a g = true -> actor' = actor)
    /\ (rejected a g = false -> strip actor' = strip (actorAfter a g actor)).
Proof.
  intros Hactor Hact. destruct (rejected a g) eqn:Hrej.
  - rewrite (rejected_act a g Hrej) in Hact. injection Hact as <-.
    exists actor. unfold committed. rewrite Hactor, Hrej.
    apply getCurrentPlayer_Some in Hactor as [_ Hactor].
    simpl. repeat split; trivial; try lia; try discriminate.
  - destruct (act_accepted a g actor r Hactor Hrej Hact) as (g' & -> & Hs & Hp & _).
    pose proof (seats_lookup_actor g actor Hactor) as Hi.
    apply lookup_lt_Some in Hi.
    assert (Hl : seats g' !! currentPlayerIndex g = Some (strip (actorAfter a g actor)))
      by (rewrite Hs; now apply list_lookup_insert_eq).
    unfold seats in Hl. rewrite list_lookup_fmap in Hl.
    destruct (players g' !! currentPlayerIndex g) as [q|]; [|discriminate].
    simpl in Hl. assert (Hq : strip q = strip (actorAfter a g actor)) by congruence.
    exists q. repeat split; trivial; discriminate.
Qed.

(** The chips [call], [bet] and [raise] move from the stack to the pot,
    in the arithmetic of [Z]. *)
Lemma act_commits a g actor :
  length (players g) = 6%nat ->
  getCurrentPlayer g = Some actor ->
  (a = Call \/ (exists amount, a = Bet amount) \/ (exists amount, a = Raise amount)) ->
  exists narrative g' actor',
    act a g = Some (narrative, g')
    /\ players g' !! currentPlayerIndex g = Some actor'
    /\ pot g' - pot g = Player.stack actor - Player.stack actor'
    /\ pot g' - pot g = committed a g
    /\ (rejected a g = false -> committed a g <= Player.stack actor)
    /\ (rejected a g = false -> 0 <= Player.stack actor')
    /\ (0 <= Player.stack actor -> 0 <= Player.stack actor')
    /\ (a = Raise 500 -> Player.stack actor = 30 ->
        0 < currentBet g -> Player.currentBet actor < currentBet g ->
        pot g' - pot g = 30 /\ Player.stack actor' = 0
        /\ Player.isAllIn actor' = true).
Proof.
  intros Hlen Hactor Hkind.
  destruct (act_total a g Hlen) as [[narrative g'] Hact].
  destruct (act_actor a g actor _ Hactor Hact) as (actor' & Hl & Hp & Hr & Ha).
  simpl in Hl, Hp.
  exists narrative, g', actor'. split; [exact Hact|]. split; [exact Hl|].
  assert (Hstack : Player.stack actor' = Player.stack actor - committed a g).
  { destruct (rejected a g) eqn:Hrej.
    - rewrite (Hr eq_refl). unfold committed. rewrite Hactor, Hrej. lia.
    - specialize (Ha eq_refl). apply (f_equal Player.stack) in Ha. simpl in Ha.
      rewrite Ha. apply stack_actorAfter. }
  assert (Hcap : rejected a g = false -> committed a g <= Player.stack actor).
  { intros Hrej. unfold committed. rewrite Hactor, Hrej.
    destruct Hkind as [->|[[n ->]|[n ->]]]; lia. }
  split; [lia|]. split; [lia|]. split; [exact Hcap|].
  split; [intros Hrej; specialize (Hcap Hrej); lia|].
  split.
  { intros Hpos. destruct (rejected a g) eqn:Hrej.
    - rewrite (Hr eq_refl). lia.
    - specialize (Hcap eq_refl). lia. }
  intros -> H30 Hbet Hface.
  assert (Hrej : rejected (Raise 500) g = false).
  { unfold rejected. rewrite Hactor. apply Z.eqb_neq. lia. }
  assert (Hc : committed (Raise 500) g = 30).
  { unfold committed. rewrite Hactor, Hrej. lia. }
  split; [lia|]. split; [lia|].
  specialize (Ha Hrej). apply (f_equal Player.isAllIn) in Ha. simpl in Ha.
  rewrite Ha. unfold actorAfter, markAllInIfBroke. rewrite Hc. simpl.
  rewrite H30. reflexivity.
Qed.

(** ** Settlement *)

Lemma head_activeRefs_from ps k w p :
  lowestUnfolded ps w p ->
  head (map fst (List.filter (fun ip : nat * Player => negb (Player.isFolded ip.2))
                        (imap (fun i x => ((k + i)%nat, x)) ps)))
  = Some (k + w)%nat.
Proof.
  revert k w. induction ps as [|x ps IH]; intros k w (Hw & Hp & Hlow).
  - discriminate Hw.
  - rewrite imap_cons. destruct w as [|w]; simpl in *.
    + injection Hw as ->. rewrite Hp. simpl. f_equal; lia.
    + rewrite (Hlow 0%nat x) by (trivial; lia). simpl.
      rewrite (imap_ext _ (fun i y => ((S k + i)%nat, y))).
      * rewrite (IH (S k) w); [f_equal; lia|].
        split; [exact Hw|]. split; [exact Hp|].
        intros j q Hj Hq. apply (Hlow (S j)); [lia | exact Hq].
      * intros i y _. simpl. f_equal. lia.
Qed.

Lemma head_activeRefs ps w p :
  lowestUnfolded ps w p -> head (activeRefs ps) = Some w.
Proof. intros H. exact (head_activeRefs_from ps 0 w p H). Qed.

Lemma lowestUnfolded_set_stack ps w p v :
  lowestUnfolded ps w p ->
  lowestUnfolded (<[w := Player.set_stack v p]> ps) w (Player.set_stack v p).
Proof.
  intros (Hw & Hp & Hlow). split; [|split].
  - apply list_lookup_insert_eq. now apply lookup_lt_Some in Hw.
  - exact Hp.
  - intros j q Hj Hq. rewrite list_lookup_insert_ne in Hq by lia.
    now apply (Hlow j).
Qed.

Lemma getHandResult_lowest g w p :
  lowestUnfolded (players g) w p ->
  exists r,
    getHandResult g
    = Some (r, set_players
                 (<[w := Player.set_stack (Player.stack p + pot g) p]> (players g)) g)
    /\ HandResult.totalPot r = pot g.
Proof.
  intros H. unfold getHandResult, updatePlayer.
  rewrite (head_activeRefs _ _ _ H). destruct H as (Hw & _). simpl.
  rewrite Hw. simpl. eexists. split; reflexivity.
Qed.

(** Two calls of [getHandResult], in the arithmetic of [Z]. *)
Lemma getHandResult_twice g w p :
  lowestUnfolded (players g) w p ->
  exists r1 g1 r2 g2,
    getHandResult g = Some (r1, g1)
    /\ players g1 = <[w := Player.set_stack (Player.stack p + pot g) p]> (players g)
    /\ pot g1 = pot g
    /\ HandResult.totalPot r1 = pot g
    /\ getHandResult g1 = Some (r2, g2)
    /\ players g2
       = <[w := Player.set_stack (Player.stack p + pot g + pot g) p]> (players g)
    /\ pot g2 = pot g
    /\ (pot g <> 0 -> g1 <> g /\ g2 <> g1).
Proof.
  intros H.
  destruct (getHandResult_lowest g w p H) as (r1 & H1 & Ht1).
  set (g1 := set_players
               (<[w := Player.set_stack (Player.stack p + pot g) p]> (players g)) g)
    in *.
  assert (Hlow1 : lowestUnfolded (players g1) w
                    (Player.set_stack (Player.stack p + pot g) p))
    by (apply lowestUnfolded_set_stack; exact H).
  destruct (getHandResult_lowest g1 _ _ Hlow1) as (r2 & H2 & _).
  match type of H2 with _ = Some (_, ?x) => set (g2 := x) in * end.
  assert (Hlen : (w < length (players g))%nat)
    by (destruct H as [Hw _]; now apply lookup_lt_Some in Hw).
  assert (Hp2 : players g2
          = <[w := Player.set_stack (Player.stack p + pot g + pot g) p]> (players g)).
  { subst g2 g1. simpl. now rewrite list_insert_insert_eq. }
  exists r1, g1, r2, g2. repeat split; trivial.
  - intros Heq. apply (f_equal (fun x => Player.stack <$> players x !! w)) in Heq.
    subst g1. simpl in Heq. rewrite list_lookup_insert_eq in Heq by exact Hlen.
    destruct H as [Hw _]. rewrite Hw in Heq. simpl in Heq.
    injection Heq as Heq. lia.
  - intros Heq. apply (f_equal (fun x => Player.stack <$> players x !! w)) in Heq.
    rewrite Hp2 in Heq. subst g1. simpl in Heq.
    rewrite !list_lookup_insert_eq in Heq by exact Hlen. simpl in Heq.
    injection Heq as Heq. lia.
Qed.

(** The narrative field of every result record is one fixed string. *)
Lemma actionSequence_fixed g r g' :
  getHandResult g = Some (r, g') ->
  HandResult.actionSequence r
  = "f.f.f.r300.c.f.3hKdQs.x.b100.c.Ac.x.x.Th.b80.r160.c".
Proof. intros H. now apply getHandResult_inv in H as (w & p & _ & _ & _ & _ & ?). Qed.

(** C9 does not hold of [getHandResult]. Two hands on the example
    table, one ended by five folds, the other by a raise and five folds,
    are both complete, and their result records carry the same
    [actionSequence]: a string that reports a raise to 300 and a flop,
    which neither hand had. *)
Theorem actionSequence_same_for_different_hands :
  exists gA gB rA rB gA' gB',
    play [Fold; Fold; Fold; Fold; Fold] exampleHand = Some gA
    /\ play [Raise 60; Fold; Fold; Fold; Fold; Fold] exampleHand = Some gB
    /\ isHandComplete gA = true /\ isHandComplete gB = true
    /\ communityCards gA = [] /\ communityCards gB = []
    /\ getHandResult gA = Some (rA, gA')
    /\ getHandResult gB = Some (rB, gB')
    /\ HandResult.winnings rA <> HandResult.winnings rB
    /\ HandResult.actionSequence rA = HandResult.actionSequence rB
    /\ HandResult.actionSequence rA
       = "f.f.f.r300.c.f.3hKdQs.x.b100.c.Ac.x.x.Th.b80.r160.c".
Proof.
  do 6 eexists.
  split; [vm_compute; reflexivity|]. split; [vm_compute; reflexivity|].
  split; [reflexivity|]. split; [reflexivity|].
  split; [reflexivity|]. split; [reflexivity|].
  split; [vm_compute; reflexivity|]. split; [vm_compute; reflexivity|].
  split; [vm_compute; discriminate|]. split; reflexivity.
Qed.

(** ** The all-in short-circuit *)

Lemma notFolded_reset ps :
  notFolded (map (fun p => Player.set_currentBet 0 (Player.set_hasActed false p)) ps)
  = map (fun p => Player.set_currentBet 0 (Player.set_hasActed false p)) (notFolded ps).
Proof.
  unfold notFolded. induction ps as [|x ps IH]; simpl; trivial.
  destruct (negb (Player.isFolded x)); simpl; now rewrite IH.
Qed.

Lemma allInOrAlone_reset ps :
  forallb Player.isAllIn
    (notFolded (map (fun p => Player.set_currentBet 0 (Player.set_hasActed false p)) ps))
  || (length (notFolded
                (map (fun p => Player.set_currentBet 0 (Player.set_hasActed false p)) ps))
      <=? 1)%nat
  = forallb Player.isAllIn (notFolded ps) || (length (notFolded ps) <=? 1)%nat.
Proof.
  rewrite notFolded_reset, length_map. f_equal.
  induction (notFolded ps) as [|x l IH]; simpl; trivial. now rewrite IH.
Qed.

(** In the branch of the short-circuit the street progression returns
    with the street at showdown and everything else but the per-street
    fields as before. *)
Lemma moveToNextBettingRound_short_circuit g :
  allInOrAlone g = true ->
  exists g',
    moveToNextBettingRound g = Some g'
    /\ gameState g' = showdown
    /\ communityCards g' = communityCards g
    /\ deck g' = deck g
    /\ currentPlayerIndex g' = currentPlayerIndex g.
Proof.
  unfold allInOrAlone. intros H. unfold moveToNextBettingRound.
  cbn [gameState set_currentBet set_players].
  destruct (gameState g); cbn [players set_gameState set_currentBet set_players];
    rewrite allInOrAlone_reset, H; eexists; (split; [reflexivity|]);
    repeat split.
Qed.

Lemma showdown_is_final g :
  gameState g = showdown ->
  isHandComplete g = true
  /\ shouldDealCommunityCards g = false
  /\ dealCommunityCards g = (None, g)
  /\ getValidActions g = ([], g)
  /\ forall a, act a g = Some ("", g).
Proof.
  intros Hs.
  assert (Hc : isHandComplete g = true).
  { unfold isHandComplete. rewrite Hs. apply orb_true_r. }
  split; [exact Hc|].
  split; [unfold shouldDealCommunityCards; now rewrite Hs|].
  split; [unfold dealCommunityCards; now rewrite Hs|].
  split.
  - unfold getValidActions, getCurrentPlayer. now rewrite Hc.
  - intros a. apply rejected_act. now apply rejected_when_complete.
Qed.

(** C4 as stated fails.  Five seats go all-in, the flop
    is dealt, the sixth seat goes all-in: the street becomes showdown with
    three of the five board cards out, every seat still in the hand
    all-in, and the reveal query answers [false]; a call of
    [dealCommunityCards] deals nothing. *)
Lemma all_in_showdown_marks_no_reveal :
  exists g0 g1 narrative g2,
    play [AllIn; AllIn; AllIn; AllIn; AllIn] exampleHand = Some g0
    /\ shouldDealCommunityCards g0 = true
    /\ g1 = snd (dealCommunityCards g0)
    /\ act AllIn g1 = Some (narrative, g2)
    /\ forallb Player.isAllIn (notFolded (players g2)) = true
    /\ gameState g2 = showdown
    /\ length (communityCards g2) = 3%nat
    /\ shouldDealCommunityCards g2 = false
    /\ dealCommunityCards g2 = (None, g2).
Proof.
  do 4 eexists.
  split; [vm_compute; reflexivity|]. split; [reflexivity|].
  split; [reflexivity|]. split; [vm_compute; reflexivity|].
  repeat split.
Qed.

(** C4, amended.  When, at a street transition, every seat still in the
    hand is all-in or at most one seat is still in the hand, the street
    becomes showdown and no betting follows: there is no current player,
    no valid action, and every action is rejected.  The board stays as it
    was; the engine sets no mark for the cards still to come: the reveal
    query answers [false] and [dealCommunityCards] deals nothing. *)
Theorem all_in_short_circuit g :
  allInOrAlone g = true ->
  exists g',
    moveToNextBettingRound g = Some g'
    /\ gameState g' = showdown
    /\ isHandComplete g' = true
    /\ getCurrentPlayer g' = None
    /\ getValidActions g' = ([], g')
    /\ (forall a, act a g' = Some ("", g'))
    /\ communityCards g' = communityCards g
    /\ shouldDealCommunityCards g' = false
    /\ dealCommunityCards g' = (None, g').
Proof.
  intros H.
  destruct (moveToNextBettingRound_short_circuit g H) as (g' & Hm & Hs & Hc & _).
  destruct (showdown_is_final g' Hs) as (H1 & H2 & H3 & H4 & H5).
  exists g'. repeat split; trivial.
  unfold getCurrentPlayer. now rewrite H1.
Qed.

Lemma all_in_short_circuit_witness :
  exists g0 g1 actor gMid narrative g2,
    play [AllIn; AllIn; AllIn; AllIn; AllIn] exampleHand = Some g0
    /\ g1 = snd (dealCommunityCards g0)
    /\ getCurrentPlayer g1 = Some actor
    /\ gMid = resetOthersActed
                (set_currentBet (Player.currentBet actor + Player.stack actor)
                   (setCurrent
                      (Player.set_isAllIn true
                         (Player.set_hasActed true
                            (Player.set_currentBet
                               (Player.currentBet actor + Player.stack actor)
                               (Player.set_stack 0 actor))))
                      (set_pot (pot g1 + Player.stack actor) g1)))
    /\ isHandComplete gMid = false
    /\ isBettingRoundComplete gMid = true
    /\ allInOrAlone gMid = true
    /\ gameState gMid = flop
    /\ moveToNextBettingRound gMid = Some g2
    /\ act AllIn g1 = Some (narrative, g2)
    /\ gameState g2 = showdown
    /\ length (communityCards g2) = 3%nat
    /\ shouldDealCommunityCards g2 = false.
Proof.
  do 6 eexists.
  split; [vm_compute; reflexivity|]. split; [reflexivity|].
  split; [vm_compute; reflexivity|]. split; [reflexivity|].
  split; [reflexivity|]. split; [reflexivity|].
  match goal with
  | |- allInOrAlone ?m = true /\ _ =>
      destruct (all_in_short_circuit m eq_refl)
        as (g2 & Hm & Hs & _ & _ & _ & _ & Hc & Hd & _)
  end.
  split; [reflexivity|]. split; [reflexivity|].
  split; [vm_compute; reflexivity|]. split; [vm_compute; reflexivity|].
  vm_compute in Hm. injection Hm as <-.
  split; [exact Hs|]. split; [reflexivity | exact Hd].
Defined.

(** ** A seat is always left to be paid *)

Lemma notFolded_strip ps : length (notFolded (map strip ps)) = length (notFolded ps).
Proof.
  unfold notFolded. induction ps as [|x ps IH]; simpl; trivial.
  destruct (negb (Player.isFolded x)); simpl; now rewrite IH.
Qed.

Lemma notFolded_insert ps i p q :
  ps !! i = Some p ->
  (length (notFolded ps) <= S (length (notFolded (<[i := q]> ps))))%nat
  /\ (Player.isFolded q = Player.isFolded p ->
      length (notFolded (<[i := q]> ps)) = length (notFolded ps)).
Proof.
  unfold notFolded. revert i. induction ps as [|x ps IH]; intros [|i]; simpl;
    try discriminate.
  - intros [= ->]. split.
    + destruct (negb (Player.isFolded p)), (negb (Player.isFolded q)); simpl; lia.
    + intros ->. now destruct (negb (Player.isFolded p)).
  - intros H. destruct (IH i H) as [H1 H2].
    destruct (negb (Player.isFolded x)); simpl; split; auto; lia.
Qed.

Lemma isFolded_actorAfter a g actor :
  a <> Fold -> Player.isFolded (actorAfter a g actor) = Player.isFolded actor.
Proof.
  unfold actorAfter, markAllInIfBroke. destruct a; simpl; trivial;
    try contradiction; intros _; now destruct (_ =? 0).
Qed.

Lemma act_unfolded a g r :
  act a g = Some r ->
  (1 <= length (notFolded (players g)))%nat ->
  (1 <= length (notFolded (players (snd r))))%nat.
Proof.
  intros Hact Hone. destruct (rejected a g) eqn:Hrej.
  - rewrite (rejected_act a g Hrej) in Hact. now injection Hact as <-.
  - destruct (rejected_false_actor a g Hrej) as [actor Hactor].
    destruct (act_accepted a g actor r Hactor Hrej Hact) as (g' & -> & Hs & _).
    pose proof (seats_lookup_actor g actor Hactor) as Hi.
    destruct (notFolded_insert (seats g) _ _ (strip (actorAfter a g actor)) Hi)
      as [Hle Heq].
    rewrite <- Hs in Hle, Heq. unfold seats in Hle, Heq.
    rewrite !notFolded_strip in Hle, Heq.
    destruct a;
      try (rewrite Heq;
           [exact Hone | refine (isFolded_actorAfter _ g actor _); discriminate]).
    apply getCurrentPlayer_Some in Hactor as [Hc _].
    unfold isHandComplete in Hc. apply orb_false_iff in Hc as [Hc _].
    apply Nat.leb_gt in Hc. lia.
Qed.

Lemma reach_unfolded settled S g :
  reach settled S g -> (1 <= length (notFolded (players g)))%nat.
Proof.
  induction 1 as [rnd hid g Hstart | a g n g' _ IH Hact
                 | g _ IH | g r g' _ _ IH Hres].
  - rewrite startNewHand_newGame in Hstart. injection Hstart as <-. simpl. lia.
  - exact (act_unfolded a g _ Hact IH).
  - now destruct (dealCommunityCards_players g) as [-> _].
  - apply getHandResult_inv in Hres as (w & p & _ & Hp & -> & _). simpl.
    destruct (notFolded_insert (players g) w p
                (Player.set_stack (Player.stack p + pot g) p) Hp) as [_ Heq].
    now rewrite Heq.
Qed.

Lemma lowestUnfolded_exists ps :
  (1 <= length (notFolded ps))%nat -> exists w p, lowestUnfolded ps w p.
Proof.
  unfold notFolded. induction ps as [|x ps IH]; simpl; [lia|].
  destruct (Player.isFolded x) eqn:Hx; simpl.
  - intros H. destruct (IH H) as (w & p & Hw & Hp & Hlow).
    exists (S w), p. split; [exact Hw|]. split; [exact Hp|].
    intros [|j] q Hj Hq; simpl in Hq.
    + now injection Hq as <-.
    + apply (Hlow j); [lia | exact Hq].
  - intros _. exists 0%nat, x. split; [reflexivity|]. split; [exact Hx|].
    intros j q Hj. lia.
Qed.

(** In every state of a hand some seat has not folded, so settlement
    always finds a seat to pay and never throws. *)
Lemma getHandResult_total settled S g :
  reach settled S g ->
  exists w p r g', lowestUnfolded (players g) w p /\ getHandResult g = Some (r, g').
Proof.
  intros H. destruct (lowestUnfolded_exists _ (reach_unfolded _ _ _ H)) as (w & p & Hlow).
  destruct (getHandResult_lowest g w p Hlow) as (r & Hr & _).
  exists w, p, r. eexists. split; [exact Hlow | exact Hr].
Qed.

(** In every state of a hand the table has six seats, so no action
    method throws. *)
Lemma reach_six settled S g : reach settled S g -> length (players g) = 6%nat.
Proof.
  induction 1 as [rnd hid g Hstart | a g n g' _ IH Hact
                 | g _ IH | g r g' _ _ IH Hres].
  - rewrite startNewHand_newGame in Hstart. now injection Hstart as <-.
  - now rewrite <- IH, <- (act_length a g _ Hact).
  - now destruct (dealCommunityCards_players g) as [-> _].
  - apply getHandResult_inv in Hres as (w & p & _ & _ & -> & _). simpl.
    now rewrite length_insert.
Qed.

Lemma act_total_reach settled S a g :
  reach settled S g -> is_Some (act a g).
Proof. intros H. apply act_total. exact (reach_six _ _ _ H). Qed.

(** * Further properties of the engine *)

(** ** An accepted action is its writes followed by the turn rotation *)

Lemma act_writes a g actor :
  getCurrentPlayer g = Some actor -> rejected a g = false ->
  act a g = finish (narrativeOf a g actor) (writes a g actor).
Proof.
  intros Hactor Hrej. unfold rejected in Hrej. rewrite Hactor in Hrej.
  destruct a; simpl; unfold fold, check, call, bet, raise, allIn;
    rewrite Hactor; try rewrite Hrej; try reflexivity;
    unfold narrativeOf, writes, markAllInIfBroke; simpl;
    repeat split_if; reflexivity.
Qed.

Lemma writes_fields a g p :
  gameState (writes a g p) = gameState g
  /\ currentPlayerIndex (writes a g p) = currentPlayerIndex g
  /\ table (writes a g p) = table g
  /\ length (players (writes a g p)) = length (players g).
Proof.
  destruct a; simpl; try split_if; simpl;
    rewrite ?length_imap, ?length_insert; repeat split.
Qed.

Lemma dealCommunityCards_fields g :
  players (snd (dealCommunityCards g)) = players g
  /\ gameState (snd (dealCommunityCards g)) = gameState g
  /\ currentPlayerIndex (snd (dealCommunityCards g)) = currentPlayerIndex g
  /\ currentBet (snd (dealCommunityCards g)) = currentBet g
  /\ pot (snd (dealCommunityCards g)) = pot g
  /\ table (snd (dealCommunityCards g)) = table g.
Proof.
  unfold dealCommunityCards, reveal, burn. repeat split_if; simpl; repeat split.
Qed.

(** ** The turn always passes to a seat that can act *)

Lemma offset_exists c i :
  (c < 6)%nat -> (i < 6)%nat -> exists k, (k < 6)%nat /\ ((c + k) mod 6)%nat = i.
Proof.
  intros Hc Hi. exists ((i + 6 - c) mod 6)%nat.
  split; [apply Nat.mod_upper_bound; lia|].
  do 6 (destruct c as [|c]; [do 6 (destruct i as [|i]; [reflexivity|]); lia|]).
  lia.
Qed.

Lemma currentIsOut_Some g b :
  currentIsOut g = Some b ->
  exists p, players g !! currentPlayerIndex g = Some p /\ isOut p = b.
Proof.
  unfold currentIsOut. destruct (players g !! currentPlayerIndex g) as [p|];
    simpl; [|discriminate]. intros [= <-]. eauto.
Qed.

Lemma seekNext_finds left g k p :
  length (players g) = 6%nat -> (k < left)%nat ->
  players g !! ((currentPlayerIndex (stepIndex g) + k) mod 6)%nat = Some p ->
  isOut p = false ->
  exists i q,
    seekNext left g = Some (set_currentPlayerIndex i g)
    /\ players g !! i = Some q /\ isOut q = false.
Proof.
  revert g k. induction left as [|left IH]; intros g k Hlen Hk Hp Hlive; [lia|].
  simpl seekNext.
  destruct (currentIsOut_total _ (stepIndex_in_range g Hlen)) as [b Hb].
  rewrite Hb. simpl.
  destruct (currentIsOut_Some _ _ Hb) as (q & Hq & Hqb). destruct b.
  - destruct k as [|k].
    + rewrite Nat.add_0_r, Nat.mod_small in Hp
        by (simpl; apply Nat.mod_upper_bound; lia).
      simpl in Hq, Hp. rewrite Hq in Hp. injection Hp as ->. congruence.
    + destruct (IH (stepIndex g) k) as (i & r & Hs & Hr & Hrl);
        [exact Hlen | lia | | exact Hlive | ].
      * simpl. simpl in Hp. rewrite Nat.Div0.add_mod_idemp_l.
        rewrite <- Hp. f_equal. f_equal. lia.
      * exists i, r. split; [exact Hs | split; assumption].
  - exists (currentPlayerIndex (stepIndex g)), q. repeat split; assumption.
Qed.

Lemma seekFromDealer_finds left g k p :
  length (players g) = 6%nat -> (currentPlayerIndex g < 6)%nat ->
  (k <= left)%nat ->
  players g !! ((currentPlayerIndex g + k) mod 6)%nat = Some p ->
  isOut p = false ->
  exists i q,
    seekFromDealer left g = Some (set_currentPlayerIndex i g)
    /\ players g !! i = Some q /\ isOut q = false.
Proof.
  revert g k. induction left as [|left IH]; intros g k Hlen Hc Hk Hp Hlive;
    simpl seekFromDealer;
    (destruct (currentIsOut_total g) as [b Hb]; [lia|]);
    rewrite Hb; simpl;
    destruct (currentIsOut_Some _ _ Hb) as (q & Hq & Hqb); destruct b;
    try (exists (currentPlayerIndex g), q;
         split; [now destruct g | split; assumption]).
  - assert (k = 0)%nat as -> by lia.
    rewrite Nat.add_0_r, Nat.mod_small in Hp by exact Hc.
    rewrite Hq in Hp. injection Hp as ->. congruence.
  - destruct k as [|k].
    + rewrite Nat.add_0_r, Nat.mod_small in Hp by exact Hc.
      rewrite Hq in Hp. injection Hp as ->. congruence.
    + destruct (IH (stepIndex g) k) as (i & r & Hs & Hr & Hrl);
        [exact Hlen | simpl; apply Nat.mod_upper_bound; lia | lia | | exact Hlive | ].
      * simpl. rewrite Nat.Div0.add_mod_idemp_l.
        rewrite <- Hp. f_equal. f_equal. lia.
      * exists i, r. split; [exact Hs | split; assumption].
Qed.

Lemma live_seat_of_active ps :
  (1 <= length (List.filter
                  (fun p => negb (Player.isFolded p) && negb (Player.isAllIn p)) ps))%nat ->
  exists i p, ps !! i = Some p /\ isOut p = false.
Proof.
  induction ps as [|x ps IH]; simpl; [lia|].
  destruct (Player.isFolded x) eqn:Hf; simpl.
  - intros H. destruct (IH H) as (i & p & Hi & Hp). exists (S i), p. auto.
  - destruct (Player.isAllIn x) eqn:Ha; simpl.
    + intros H. destruct (IH H) as (i & p & Hi & Hp). exists (S i), p. auto.
    + intros _. exists 0%nat, x. split; [reflexivity|].
      unfold isOut. now rewrite Hf, Ha.
Qed.

Lemma live_seat_of_not_all_in ps :
  forallb Player.isAllIn (notFolded ps) = false ->
  exists i p, ps !! i = Some p /\ isOut p = false.
Proof.
  unfold notFolded. induction ps as [|x ps IH]; simpl; [discriminate|].
  destruct (Player.isFolded x) eqn:Hf; simpl.
  - intros H. destruct (IH H) as (i & p & Hi & Hp). exists (S i), p. auto.
  - destruct (Player.isAllIn x) eqn:Ha; simpl.
    + intros H. destruct (IH H) as (i & p & Hi & Hp). exists (S i), p. auto.
    + intros _. exists 0%nat, x. split; [reflexivity|].
      unfold isOut. now rewrite Hf, Ha.
Qed.

Lemma showdown_complete g : gameState g = showdown -> isHandComplete g = true.
Proof. intros H. unfold isHandComplete. rewrite H. apply orb_true_r. Qed.

Lemma moveToNextBettingRound_live g g' :
  length (players g) = 6%nat ->
  moveToNextBettingRound g = Some g' -> isHandComplete g' = false ->
  exists q, players g' !! currentPlayerIndex g' = Some q /\ isOut q = false.
Proof.
  intros Hlen. unfold moveToNextBettingRound.
  cbn [gameState set_currentBet set_players].
  set (ps := map (fun p => Player.set_currentBet 0 (Player.set_hasActed false p))
                 (players g)).
  assert (Hps : length ps = 6%nat) by (subst ps; now rewrite length_map).
  destruct (gameState g); cbn [players set_gameState set_currentBet set_players];
    (destruct (forallb Player.isAllIn (notFolded ps)
               || (length (notFolded ps) <=? 1)%nat) eqn:Hall;
     [ intros [= <-] Hc; now rewrite showdown_complete in Hc
     | apply orb_false_iff in Hall as [Hall _];
       destruct (live_seat_of_not_all_in ps Hall) as (i & p & Hi & Hp);
       pose proof (lookup_lt_Some _ _ _ Hi) as Hi6; rewrite Hps in Hi6;
       intros Hseek _ ]);
    match type of Hseek with
    | seekFromDealer 6 ?g0 = _ =>
        destruct (offset_exists (currentPlayerIndex g0) i) as (k & Hk & Hki);
          [simpl; apply Nat.mod_upper_bound; lia | exact Hi6 |];
        destruct (seekFromDealer_finds 6 g0 k p) as (j & q & Hs & Hq & Hql);
          [exact Hps | simpl; apply Nat.mod_upper_bound; lia | lia
          | rewrite Hki; exact Hi | exact Hp |];
        rewrite Hs in Hseek; injection Hseek as <-;
        exists q; split; [exact Hq | exact Hql]
    end.
Qed.

Lemma moveToNextPlayer_live g g' :
  length (players g) = 6%nat ->
  moveToNextPlayer g = Some g' -> isHandComplete g' = false ->
  exists q, players g' !! currentPlayerIndex g' = Some q /\ isOut q = false.
Proof.
  intros Hlen. unfold moveToNextPlayer.
  destruct (isHandComplete g) eqn:Hc; [intros [= <-]; congruence|].
  destruct (isBettingRoundComplete g) eqn:Hr.
  - now apply moveToNextBettingRound_live.
  - intros Hseek _. unfold isBettingRoundComplete in Hr.
    apply orb_false_iff in Hr as [_ Hr]. apply Nat.leb_gt in Hr.
    destruct (live_seat_of_active (players g)) as (i & p & Hi & Hp); [lia|].
    pose proof (lookup_lt_Some _ _ _ Hi) as Hi6. rewrite Hlen in Hi6.
    destruct (offset_exists (currentPlayerIndex (stepIndex g)) i) as (k & Hk & Hki);
      [simpl; apply Nat.mod_upper_bound; lia | exact Hi6 |].
    destruct (seekNext_finds 6 g k p) as (j & q & Hs & Hq & Hql);
      [exact Hlen | lia | rewrite Hki; exact Hi | exact Hp |].
    rewrite Hs in Hseek. injection Hseek as <-.
    exists q. split; [exact Hq | exact Hql].
Qed.

Lemma isHandComplete_same g g' :
  gameState g' = gameState g ->
  length (notFolded (players g')) = length (notFolded (players g)) ->
  isHandComplete g' = isHandComplete g.
Proof. intros Hs Hl. unfold isHandComplete. now rewrite Hs, Hl. Qed.

Lemma act_live a g r :
  length (players g) = 6%nat -> act a g = Some r ->
  (exists q, players g !! currentPlayerIndex g = Some q /\ isOut q = false) ->
  isHandComplete (snd r) = false ->
  exists q, players (snd r) !! currentPlayerIndex (snd r) = Some q /\ isOut q = false.
Proof.
  intros Hlen Hact Hlive Hc. destruct (rejected a g) eqn:Hrej.
  - rewrite (rejected_act a g Hrej) in Hact. injection Hact as <-. exact Hlive.
  - destruct (rejected_false_actor a g Hrej) as [actor Hactor].
    rewrite (act_writes a g actor Hactor Hrej) in Hact.
    unfold finish in Hact.
    destruct (moveToNextPlayer (writes a g actor)) as [g1|] eqn:Hm;
      [|discriminate]. simpl in Hact. injection Hact as <-.
    apply (moveToNextPlayer_live _ _ ltac:(
      destruct (writes_fields a g actor) as (_ & _ & _ & ->); exact Hlen) Hm Hc).
Qed.

Lemma reach_live settled S g :
  reach settled S g ->
  isHandComplete g = false ->
  exists q, players g !! currentPlayerIndex g = Some q /\ isOut q = false.
Proof.
  induction 1 as [rnd hid g Hstart | a g n g' Hg IH Hact
                 | g Hg IH | g r g' _ Hg IH Hres]; intros Hc.
  - rewrite startNewHand_newGame in Hstart. injection Hstart as <-.
    eexists. split; reflexivity.
  - destruct (rejected a g) eqn:Hrej.
    + rewrite (rejected_act a g Hrej) in Hact. injection Hact as <- <-.
      exact (IH Hc).
    + destruct (rejected_false_actor a g Hrej) as [actor Hactor].
      rewrite (act_writes a g actor Hactor Hrej) in Hact.
      unfold finish in Hact.
      destruct (moveToNextPlayer (writes a g actor)) as [g1|] eqn:Hm;
        [|discriminate]. simpl in Hact. injection Hact as <- <-.
      apply (moveToNextPlayer_live _ _ ltac:(
        destruct (writes_fields a g actor) as (_ & _ & _ & ->);
        exact (reach_six _ _ _ Hg)) Hm Hc).
  - destruct (dealCommunityCards_fields g) as (Hp & Hs & Hi & _).
    rewrite Hp, Hi. apply IH. rewrite <- Hc.
    symmetry. apply isHandComplete_same; [exact Hs | now rewrite Hp].
  - apply getHandResult_inv in Hres as (w & p & _ & Hp & -> & _).
    destruct (notFolded_insert (players g) w p
                (Player.set_stack (Player.stack p + pot g) p) Hp) as [_ Heq].
    assert (Hc' : isHandComplete g = false).
    { rewrite <- Hc. symmetry. apply isHandComplete_same; [reflexivity|].
      simpl. now apply Heq. }
    destruct (IH Hc') as (q & Hq & Hql). simpl.
    destruct (decide (w = currentPlayerIndex g)) as [->|Hne].
    + rewrite list_lookup_insert_eq by (now apply lookup_lt_Some in Hp).
      rewrite Hq in Hp. injection Hp as <-. eexists. split; [reflexivity|exact Hql].
    + rewrite list_lookup_insert_ne by exact Hne. eauto.
Qed.

(** X1. While a hand is not complete there is a current player, that
    player has neither folded nor gone all-in, and [getValidActions]
    offers at least "fold": the turn never rests on a seat that cannot
    act. *)
Theorem current_player_can_act settled S g :
  reach settled S g -> isHandComplete g = false ->
  exists actor,
    getCurrentPlayer g = Some actor
    /\ (currentPlayerIndex g < 6)%nat
    /\ Player.isFolded actor = false /\ Player.isAllIn actor = false
    /\ In "fold" (fst (getValidActions g)).
Proof.
  intros Hreach Hc. destruct (reach_live _ _ _ Hreach Hc) as (q & Hq & Hql).
  assert (Hactor : getCurrentPlayer g = Some q)
    by (unfold getCurrentPlayer; now rewrite Hc).
  unfold isOut in Hql. apply orb_false_iff in Hql as [Hf Ha].
  exists q. split; [exact Hactor|]. split.
  { apply lookup_lt_Some in Hq. now rewrite (reach_six _ _ _ Hreach) in Hq. }
  split; [exact Hf|]. split; [exact Ha|].
  unfold getValidActions. rewrite Hactor, Hf, Ha. simpl.
  repeat split_if; simpl; auto.
Qed.

Lemma current_player_can_act_witness :
  exists actor,
    getCurrentPlayer exampleHand = Some actor
    /\ Player.isFolded actor = false /\ Player.isAllIn actor = false
    /\ In "fold" (fst (getValidActions exampleHand)).
Proof.
  destruct (current_player_can_act false 10000 exampleHand
              (reach_exampleHand false) eq_refl)
    as (actor & H1 & _ & H2 & H3 & H4).
  exists actor. repeat split; assumption.
Defined.

(** ** Offered actions are accepted *)

Lemma narrativeOf_not_empty a g p : narrativeOf a g p <> "".
Proof. unfold narrativeOf. simpl. discriminate. Qed.

Lemma offered_not_rejected a g :
  In (label a) (fst (getValidActions g)) -> rejected a g = false.
Proof.
  unfold getValidActions, rejected.
  destruct (getCurrentPlayer g) as [p|]; [|intros []].
  destruct (Player.isFolded p || Player.isAllIn p); [intros []|].
  destruct (Z.eqb_spec (currentBet g - Player.currentBet p) 0);
    destruct (Z.ltb_spec (currentBet g - Player.currentBet p) (Player.stack p));
    destruct (Z.eqb_spec (currentBet g) 0);
    destruct (Z.ltb_spec 0 (Player.stack p));
    destruct a; simpl; intros Hin;
    repeat (destruct Hin as [Hin|Hin]; try discriminate Hin);
    try contradiction; try reflexivity;
    first [apply Z.ltb_ge; lia | apply Z.eqb_neq; lia].
Qed.

Lemma accepted_narrative a g :
  rejected a g = false -> length (players g) = 6%nat ->
  exists narrative g', act a g = Some (narrative, g') /\ narrative <> "".
Proof.
  intros Hrej Hlen.
  destruct (rejected_false_actor a g Hrej) as [actor Hactor].
  rewrite (act_writes a g actor Hactor Hrej).
  destruct (finish_total (narrativeOf a g actor) (writes a g actor)) as [[n g'] Hf].
  { destruct (writes_fields a g actor) as (_ & _ & _ & ->). exact Hlen. }
  rewrite Hf. exists n, g'. split; [reflexivity|].
  apply finish_inv in Hf as (g1 & [= -> _] & _). apply narrativeOf_not_empty.
Qed.

(** X2. An action whose name [getValidActions] lists is not rejected
    when it is called, whatever amount goes with a bet or raise; on a
    table of six the call then returns a narrative that is not empty. *)
Theorem offered_action_is_accepted a g :
  In (label a) (fst (getValidActions g)) ->
  rejected a g = false
  /\ (length (players g) = 6%nat ->
      exists narrative g', act a g = Some (narrative, g') /\ narrative <> "").
Proof.
  intros Hin. pose proof (offered_not_rejected a g Hin) as Hrej.
  split; [exact Hrej|]. now apply accepted_narrative.
Qed.

Lemma offered_action_is_accepted_witness :
  In "raise" (fst (getValidActions exampleHand))
  /\ rejected (Raise 40) exampleHand = false
  /\ exists narrative g',
       act (Raise 40) exampleHand = Some (narrative, g') /\ narrative <> "".
Proof.
  assert (Hin : In (label (Raise 40)) (fst (getValidActions exampleHand)))
    by (simpl; tauto).
  destruct (offered_action_is_accepted (Raise 40) exampleHand Hin) as [Hrej Hact].
  split; [exact Hin|]. split; [exact Hrej|]. apply Hact. reflexivity.
Defined.

(** ** Dealing the board *)

Lemma reveal_fields g :
  gameState (reveal g) = gameState g
  /\ communityCards (reveal g) = (communityCards g ++ [fst (pop (deck g))])%list.
Proof. unfold reveal, pop. simpl. split; reflexivity. Qed.

Lemma burn_fields g :
  gameState (burn g) = gameState g /\ communityCards (burn g) = communityCards g.
Proof. unfold burn. simpl. split; reflexivity. Qed.

(** What a deal does to street and board, by the three guards. *)
Lemma dealCommunityCards_board g :
  gameState (snd (dealCommunityCards g)) = gameState g
  /\ exists more,
       communityCards (snd (dealCommunityCards g)) = (communityCards g ++ more)%list
       /\ length more
          = (if GameState_eqb (gameState g) flop
                && (length (communityCards g) =? 0)%nat then 3
             else if shouldDealCommunityCards g then 1 else 0)%nat.
Proof.
  unfold dealCommunityCards, shouldDealCommunityCards.
  destruct (GameState_eqb (gameState g) flop && (length (communityCards g) =? 0)%nat);
    [|destruct (GameState_eqb (gameState g) turn
                && (length (communityCards g) =? 3)%nat);
      [|destruct (GameState_eqb (gameState g) river
                  && (length (communityCards g) =? 4)%nat)]];
    cbn [snd orb];
    repeat (match goal with
            | |- context [gameState (reveal ?x)] =>
                rewrite (proj1 (reveal_fields x))
            | |- context [communityCards (reveal ?x)] =>
                rewrite (proj2 (reveal_fields x))
            | |- context [gameState (burn ?x)] => rewrite (proj1 (burn_fields x))
            | |- context [communityCards (burn ?x)] =>
                rewrite (proj2 (burn_fields x))
            end);
    (split; [reflexivity|]); rewrite <- ?app_assoc;
    first [ eexists; split; [reflexivity|reflexivity]
          | exists []; split; [now rewrite app_nil_r | reflexivity] ].
Qed.

Lemma dealCommunityCards_none g :
  shouldDealCommunityCards g = false -> dealCommunityCards g = (None, g).
Proof.
  unfold shouldDealCommunityCards, dealCommunityCards.
  destruct (GameState_eqb (gameState g) flop && _); [discriminate|].
  destruct (GameState_eqb (gameState g) turn && _); [discriminate|].
  destruct (GameState_eqb (gameState g) river && _); [discriminate|].
  reflexivity.
Qed.

(** X3. [shouldDealCommunityCards] answers [true] exactly when
    [dealCommunityCards] deals; when it answers [false] the call changes
    nothing.  A deal only appends to the board, and right after any call
    the query answers [false] and a second call deals nothing: each batch
    is dealt once. *)
Theorem dealCommunityCards_once g :
  (shouldDealCommunityCards g = true <-> fst (dealCommunityCards g) <> None)
  /\ (shouldDealCommunityCards g = false -> dealCommunityCards g = (None, g))
  /\ (exists more, communityCards (snd (dealCommunityCards g))
                   = (communityCards g ++ more)%list)
  /\ shouldDealCommunityCards (snd (dealCommunityCards g)) = false
  /\ dealCommunityCards (snd (dealCommunityCards g))
     = (None, snd (dealCommunityCards g)).
Proof.
  pose proof dealCommunityCards_none as Hnone.
  assert (Hafter : shouldDealCommunityCards (snd (dealCommunityCards g)) = false).
  { destruct (dealCommunityCards_board g) as (Hs & more & Hcc & Hlen).
    unfold shouldDealCommunityCards in *. rewrite Hs, Hcc, length_app, Hlen.
    destruct (gameState g); simpl;
      repeat match goal with
             | |- context [(?n =? ?m)%nat] =>
                 lazymatch n with
                 | context [if _ then _ else _] => fail
                 | _ => destruct (Nat.eqb_spec n m)
                 end
             end; simpl in *; try reflexivity; try lia;
      repeat match goal with
             | |- context [(?n =? ?m)%nat] => destruct (Nat.eqb_spec n m)
             end; simpl; try reflexivity; lia. }
  split; [|split; [apply Hnone|split; [|split; [exact Hafter|now apply Hnone]]]].
  - split.
    + intros H E. unfold shouldDealCommunityCards, dealCommunityCards in *.
      destruct (GameState_eqb (gameState g) flop && _); [discriminate|].
      destruct (GameState_eqb (gameState g) turn && _); [discriminate|].
      destruct (GameState_eqb (gameState g) river && _); discriminate.
    + intros H. destruct (shouldDealCommunityCards g) eqn:E; [reflexivity|].
      rewrite (Hnone g E) in H. now contradiction H.
  - destruct (dealCommunityCards_board g) as (_ & more & Hcc & _). eauto.
Qed.

(** ** What no call changes *)

(** The two ways an action returns. *)
Lemma act_inv a g r :
  act a g = Some r ->
  (rejected a g = true /\ r = ("", g))
  \/ (exists actor g',
        rejected a g = false /\ getCurrentPlayer g = Some actor
        /\ moveToNextPlayer (writes a g actor) = Some g'
        /\ r = (narrativeOf a g actor, g')).
Proof.
  intros Hact. destruct (rejected a g) eqn:Hrej.
  - left. rewrite (rejected_act a g Hrej) in Hact. injection Hact as <-. auto.
  - right. destruct (rejected_false_actor a g Hrej) as [actor Hactor].
    rewrite (act_writes a g actor Hactor Hrej) in Hact. unfold finish in Hact.
    destruct (moveToNextPlayer (writes a g actor)) as [g'|] eqn:Hm; [|discriminate].
    simpl in Hact. injection Hact as <-. exists actor, g'. auto.
Qed.

Lemma moveToNextBettingRound_street g g' :
  moveToNextBettingRound g = Some g' ->
  table g' = table g
  /\ (streetRank (gameState g) <= streetRank (gameState g'))%nat.
Proof.
  unfold moveToNextBettingRound. cbn [gameState set_currentBet set_players].
  destruct (gameState g) eqn:Hs;
    (split_if;
     [ intros [= <-] | intros H; apply seekFromDealer_inv in H as [i ->] ]);
    split; simpl; rewrite ?Hs; simpl; try reflexivity; lia.
Qed.

Lemma moveToNextPlayer_street g g' :
  moveToNextPlayer g = Some g' ->
  table g' = table g
  /\ (streetRank (gameState g) <= streetRank (gameState g'))%nat.
Proof.
  unfold moveToNextPlayer.
  destruct (isHandComplete g); [intros [= <-]; split; [reflexivity|lia]|].
  destruct (isBettingRoundComplete g).
  - apply moveToNextBettingRound_street.
  - intros H. apply seekNext_inv in H as [i ->]. split; [reflexivity|simpl; lia].
Qed.

Lemma act_street a g r :
  act a g = Some r ->
  table (snd r) = table g
  /\ (streetRank (gameState g) <= streetRank (gameState (snd r)))%nat.
Proof.
  intros Hact.
  destruct (act_inv a g r Hact) as [[_ ->]|(actor & g' & _ & _ & Hm & ->)].
  - split; [reflexivity|simpl; lia].
  - destruct (writes_fields a g actor) as (Hs & _ & Ht & _).
    rewrite <- Hs, <- Ht. now apply moveToNextPlayer_street.
Qed.

(** The seat at an index after an action: as before but for the two
    per-street fields, or, at the index of an accepted actor, the seat
    [actorAfter]. *)
Lemma act_seat a g r i p :
  act a g = Some r -> players g !! i = Some p ->
  exists p',
    players (snd r) !! i = Some p'
    /\ strip p' = strip (if (i =? currentPlayerIndex g)%nat && negb (rejected a g)
                         then actorAfter a g p else p).
Proof.
  intros Hact Hp. destruct (rejected a g) eqn:Hrej.
  - rewrite (rejected_act a g Hrej) in Hact. injection Hact as <-.
    exists p. rewrite andb_false_r. auto.
  - destruct (rejected_false_actor a g Hrej) as [actor Hactor].
    destruct (act_accepted a g actor r Hactor Hrej Hact) as (g' & -> & Hs & _).
    pose proof (seats_lookup_actor g actor Hactor) as Hi.
    apply (f_equal (fun l => l !! i)) in Hs.
    rewrite list_lookup_insert in Hs. unfold seats in Hs, Hi.
    rewrite !list_lookup_fmap, ?Hp in Hs. rewrite list_lookup_fmap in Hi.
    destruct (players g' !! i) as [p'|]; simpl in Hs.
    + exists p'. split; [reflexivity|]. rewrite andb_true_r.
      destruct (Nat.eqb_spec i (currentPlayerIndex g)) as [->|Hne].
      * rewrite Hp in Hi. simpl in Hi.
        rewrite decide_True in Hs
          by (split; [reflexivity|]; rewrite length_map;
              now apply lookup_lt_Some in Hp).
        apply getCurrentPlayer_Some in Hactor as [_ Hactor].
        rewrite Hp in Hactor. injection Hactor as ->. congruence.
      * rewrite decide_False in Hs by (intros [E _]; congruence). congruence.
    + exfalso. destruct (decide _); discriminate.
Qed.

(** X4. An action changes, at every seat other than the actor's, nothing
    but the two per-street fields [hasActed] and [currentBet]: stack,
    hole cards, fold and all-in flags, id and name stay as they were. *)
Theorem action_touches_only_the_actor a g r i p :
  act a g = Some r -> players g !! i = Some p -> i <> currentPlayerIndex g ->
  exists p',
    players (snd r) !! i = Some p'
    /\ Player.stack p' = Player.stack p
    /\ Player.holeCards p' = Player.holeCards p
    /\ Player.isFolded p' = Player.isFolded p
    /\ Player.isAllIn p' = Player.isAllIn p
    /\ Player.id p' = Player.id p /\ Player.name p' = Player.name p.
Proof.
  intros Hact Hp Hne. destruct (act_seat a g r i p Hact Hp) as (p' & Hp' & Hs).
  apply Nat.eqb_neq in Hne. rewrite Hne in Hs. simpl in Hs.
  exists p'. split; [exact Hp'|].
  repeat split;
    [ apply (f_equal Player.stack) in Hs | apply (f_equal Player.holeCards) in Hs
    | apply (f_equal Player.isFolded) in Hs | apply (f_equal Player.isAllIn) in Hs
    | apply (f_equal Player.id) in Hs | apply (f_equal Player.name) in Hs ];
    exact Hs.
Qed.

Lemma action_touches_only_the_actor_witness :
  exists r p',
    act (Raise 100) exampleHand = Some r
    /\ players (snd r) !! 2%nat = Some p'
    /\ Player.stack p' = 9960 /\ Player.isFolded p' = false.
Proof.
  destruct (act (Raise 100) exampleHand) as [r|] eqn:E;
    [|vm_compute in E; discriminate E].
  destruct (action_touches_only_the_actor (Raise 100) exampleHand r 2
              (seatAfterDeal (createDeck (fun _ => 0%nat)) 2 (10000 - 40) 40)
              E eq_refl ltac:(discriminate))
    as (p' & Hp' & Hst & _ & Hf & _).
  exists r, p'. repeat split; assumption.
Defined.

Lemma isFolded_actorAfter_mono a g p :
  Player.isFolded p = true -> Player.isFolded (actorAfter a g p) = true.
Proof.
  unfold actorAfter, markAllInIfBroke. destruct a; simpl; trivial;
    intros H; destruct (_ =? 0); exact H.
Qed.

Lemma isAllIn_actorAfter_mono a g p :
  Player.isAllIn p = true -> Player.isAllIn (actorAfter a g p) = true.
Proof.
  unfold actorAfter, markAllInIfBroke. destruct a; simpl; trivial;
    intros H; destruct (_ =? 0); trivial.
Qed.

Lemma id_actorAfter a g p :
  Player.id (actorAfter a g p) = Player.id p
  /\ Player.name (actorAfter a g p) = Player.name p.
Proof.
  unfold actorAfter, markAllInIfBroke. destruct a; simpl; auto;
    destruct (_ =? 0); auto.
Qed.

(** X5. Whatever is called -- an action, [dealCommunityCards] or
    [getHandResult], in any state -- every seat keeps its id, its name
    and its hole cards, a seat that has folded stays folded and a seat
    that is all-in stays all-in; dealer and blind positions, blind
    amounts, starting stack size and hand id do not change; the street
    never goes back; and a complete hand stays complete. *)
Theorem step_keeps_the_hand g g' :
  step g g' ->
  table g' = table g
  /\ (streetRank (gameState g) <= streetRank (gameState g'))%nat
  /\ (isHandComplete g = true -> isHandComplete g' = true)
  /\ forall i p, players g !! i = Some p ->
       exists p',
         players g' !! i = Some p'
         /\ Player.id p' = Player.id p /\ Player.name p' = Player.name p
         /\ Player.holeCards p' = Player.holeCards p
         /\ (Player.isFolded p = true -> Player.isFolded p' = true)
         /\ (Player.isAllIn p = true -> Player.isAllIn p' = true).
Proof.
  intros [a g0 n g1 Hact | g0 | g0 r g1 Hres].
  - destruct (act_street a g0 _ Hact) as [Ht Hs]. simpl in Ht, Hs.
    split; [exact Ht|]. split; [exact Hs|]. split.
    + intros Hc. rewrite (rejected_act a g0 (rejected_when_complete a g0 Hc)) in Hact.
      now injection Hact as _ <-.
    + intros i p Hp. destruct (act_seat a g0 _ i p Hact Hp) as (p' & Hp' & Hst).
      simpl in Hp'. exists p'. split; [exact Hp'|].
      destruct ((i =? currentPlayerIndex g0)%nat && negb (rejected a g0)).
      * destruct (id_actorAfter a g0 p) as [Hid Hname].
        repeat split;
          [ apply (f_equal Player.id) in Hst; simpl in Hst; congruence
          | apply (f_equal Player.name) in Hst; simpl in Hst; congruence
          | apply (f_equal Player.holeCards) in Hst; simpl in Hst;
            rewrite Hst; apply holeCards_actorAfter
          | intros Hf; apply (f_equal Player.isFolded) in Hst; simpl in Hst;
            rewrite Hst; now apply isFolded_actorAfter_mono
          | intros Ha; apply (f_equal Player.isAllIn) in Hst; simpl in Hst;
            rewrite Hst; now apply isAllIn_actorAfter_mono ].
      * repeat split;
          [ apply (f_equal Player.id) in Hst | apply (f_equal Player.name) in Hst
          | apply (f_equal Player.holeCards) in Hst
          | intros Hf; apply (f_equal Player.isFolded) in Hst; simpl in Hst;
            congruence
          | intros Ha; apply (f_equal Player.isAllIn) in Hst; simpl in Hst;
            congruence ]; exact Hst.
  - destruct (dealCommunityCards_fields g0) as (Hp & Hs & _ & _ & _ & Ht).
    split; [exact Ht|]. split; [rewrite Hs; lia|]. split.
    + intros Hc. rewrite <- Hc. apply isHandComplete_same; [exact Hs|now rewrite Hp].
    + intros i p Hi. rewrite Hp. exists p. repeat split; auto.
  - apply getHandResult_inv in Hres as (w & q & _ & Hq & -> & _).
    split; [reflexivity|]. split; [simpl; lia|]. split.
    + intros Hc. rewrite <- Hc. apply isHandComplete_same; [reflexivity|].
      simpl. now apply (notFolded_insert (players g0) w q).
    + intros i p Hi. simpl.
      destruct (decide (w = i)) as [->|Hne].
      * rewrite list_lookup_insert_eq by (now apply lookup_lt_Some in Hi).
        rewrite Hq in Hi. injection Hi as ->. eexists. repeat split; auto.
      * rewrite list_lookup_insert_ne by exact Hne. exists p. repeat split; auto.
Qed.

Lemma step_keeps_the_hand_witness :
  exists g',
    step exampleHand g'
    /\ table g' = table exampleHand
    /\ (streetRank (gameState exampleHand) <= streetRank (gameState g'))%nat.
Proof.
  destruct (act Fold exampleHand) as [[n g']|] eqn:E;
    [|vm_compute in E; discriminate E].
  destruct (step_keeps_the_hand exampleHand g' (step_act Fold exampleHand n g' E))
    as (Ht & Hs & _).
  exists g'. split; [exact (step_act Fold exampleHand n g' E)|]. split; assumption.
Defined.

(** ** A bet or raise re-opens the action *)

Lemma moveToNextPlayer_players g g' :
  moveToNextPlayer g = Some g' ->
  players g' = players g \/ players g' = map strip (players g).
Proof.
  unfold moveToNextPlayer.
  destruct (isHandComplete g); [intros [= <-]; auto|].
  destruct (isBettingRoundComplete g).
  - intros H. apply moveToNextBettingRound_inv in H as (-> & _). auto.
  - intros H. apply seekNext_inv in H as [i ->]. auto.
Qed.

Lemma lookup_resetOthersActed g i p :
  players (resetOthersActed g) !! i = Some p ->
  i <> currentPlayerIndex g -> Player.isFolded p = false ->
  Player.hasActed p = false.
Proof.
  unfold resetOthersActed. simpl. rewrite list_lookup_imap.
  destruct (players g !! i) as [q|]; simpl; [|discriminate].
  intros [= <-] Hne. apply Nat.eqb_neq in Hne. rewrite Hne. simpl.
  destruct (Player.isFolded q) eqn:Hf; simpl; [congruence|reflexivity].
Qed.

(** ** Stacks *)


Lemma reach_chips S g :
  reach false S g -> pot g + totalStacks (players g) = 6 * S.
Proof.
  induction 1 as [rnd hid g Hstart | a g n g' _ IH Hact
                 | g _ IH | g r g' Hs _ _ _].
  - rewrite startNewHand_newGame in Hstart. injection Hstart as <-.
    unfold totalStacks. simpl. lia.
  - now rewrite <- IH, <- (act_chips a g _ Hact).
  - now destruct (dealCommunityCards_players g) as [-> ->].
  - discriminate Hs.
Qed.




(** ** The shuffle *)

Lemma insert_swap_head (l : list string) j x y :
  l !! j = Some y -> y :: <[j := x]> l ≡ₚ x :: l.
Proof.
  revert j. induction l as [|h l IH]; intros [|j]; simpl; try discriminate.
  - intros [= ->]. apply perm_swap.
  - intros H. rewrite (perm_swap h y), (IH j H). apply perm_swap.
Qed.

Lemma swap_Permutation (a : list string) i j : swap a i j ≡ₚ a.
Proof.
  unfold swap. destruct (a !! i) as [x|] eqn:Hi; [|reflexivity].
  destruct (a !! j) as [y|] eqn:Hj; [|reflexivity].
  revert i j Hi Hj. induction a as [|h a IH]; intros [|i] [|j]; simpl;
    try discriminate.
  - intros [= ->] [= ->]. reflexivity.
  - intros [= ->] Hj. now apply insert_swap_head.
  - intros Hi [= ->]. now apply insert_swap_head.
  - intros Hi Hj. apply perm_skip. now apply IH.
Qed.

Lemma shuffleLoop_Permutation rnd i (a : list string) : shuffleLoop rnd i a ≡ₚ a.
Proof.
  revert a. induction i as [|i IH]; intros a; simpl; [reflexivity|].
  now rewrite IH, swap_Permutation.
Qed.

Lemma NoDup_orderedDeck : NoDup orderedDeck.
Proof. apply (bool_decide_unpack _). vm_compute. exact I. Qed.

(** X9. Whatever the random source answers, the deck [createDeck]
    returns is a permutation of the 52 codes rank-then-suit: each of the
    13 x 4 codes is in it exactly once. *)
Theorem createDeck_is_a_full_deck rnd :
  createDeck rnd ≡ₚ orderedDeck
  /\ NoDup (createDeck rnd)
  /\ length (createDeck rnd) = 52%nat
  /\ forall rank suit, In rank ranks -> In suit suits ->
       In (rank +:+ suit) (createDeck rnd).
Proof.
  assert (Hperm : createDeck rnd ≡ₚ orderedDeck)
    by apply shuffleLoop_Permutation.
  split; [exact Hperm|]. split; [|split; [apply length_createDeck|]].
  - rewrite Hperm. apply NoDup_orderedDeck.
  - intros rank suit Hr Hs. apply list_elem_of_In. rewrite Hperm.
    apply list_elem_of_In. unfold orderedDeck. apply in_flat_map.
    exists suit. split; [exact Hs|]. apply in_map_iff. exists rank. auto.
Qed.

(** ** No card is dealt twice *)

Lemma popped_cons k (d : list string) :
  (k < length d)%nat ->
  map Some (Nat.iter k (@removelast string) d)
  ≡ₚ popped k d :: map Some (Nat.iter (S k) (@removelast string) d).
Proof.
  intros Hk. unfold popped. simpl.
  destruct (last (Nat.iter k (@removelast string) d)) as [x|] eqn:Hl.
  - apply last_Some in Hl as [l' Hl]. rewrite Hl, removelast_last, map_app.
    simpl. symmetry. apply Permutation_cons_append.
  - apply last_None in Hl. apply (f_equal length) in Hl.
    rewrite length_removelast_iter in Hl. simpl in Hl. lia.
Qed.

Lemma popped_twelve (d : list string) :
  (12 <= length d)%nat ->
  map Some d
  ≡ₚ [popped 0 d; popped 1 d; popped 2 d; popped 3 d; popped 4 d; popped 5 d;
      popped 6 d; popped 7 d; popped 8 d; popped 9 d; popped 10 d; popped 11 d]
     ++ map Some (Nat.iter 12 (@removelast string) d).
Proof.
  intros H. change (map Some d) with (map Some (Nat.iter 0 (@removelast string) d)).
  do 12 (etrans; [apply popped_cons; lia | apply perm_skip]).
  reflexivity.
Qed.

(** Finds [a] in a list written out and splits the list there. *)
Ltac split_list_at a r :=
  lazymatch r with
  | a :: ?t => constr:((@nil card, t))
  | ?h :: ?t =>
      let res := split_list_at a t in
      lazymatch res with (?l1, ?l2) => constr:((h :: l1, l2)) end
  end.

(** Proves that two lists written out with the same elements are
    permutations of each other. *)
Ltac same_elements :=
  lazymatch goal with
  | |- Permutation [] [] => constructor
  | |- Permutation (?a :: ?l) ?r =>
      let res := split_list_at a r in
      lazymatch res with
      | (?l1, ?l2) =>
          change r with (l1 ++ a :: l2)%list;
          apply Permutation_cons_app; cbn [app]; same_elements
      end
  end.

Lemma cardsInPlay_dealtHand (d : list string) hid S :
  (12 <= length d)%nat -> cardsInPlay (dealtHand d hid S) ≡ₚ map Some d.
Proof.
  intros H. unfold cardsInPlay, dealtHand.
  cbn [deck communityCards players map concat app Player.holeCards seatAfterDeal].
  rewrite (popped_twelve d H), Permutation_app_comm. apply Permutation_app_tail.
  cbn [Nat.add]. same_elements.
Qed.

Lemma act_holeCards a g r :
  act a g = Some r ->
  map Player.holeCards (players (snd r)) = map Player.holeCards (players g).
Proof.
  intros Hact. apply list_eq. intros i. rewrite !list_lookup_fmap.
  destruct (players g !! i) as [p|] eqn:Hp.
  - destruct (act_seat a g r i p Hact Hp) as (p' & -> & Hs). simpl. f_equal.
    apply (f_equal Player.holeCards) in Hs. simpl in Hs. rewrite Hs.
    destruct (_ && _); [apply holeCards_actorAfter|reflexivity].
  - apply lookup_ge_None in Hp. rewrite <- (act_length a g r Hact) in Hp.
    apply lookup_ge_None in Hp. now rewrite Hp.
Qed.

Lemma cardsInPlay_act a g r : act a g = Some r -> cardsInPlay (snd r) = cardsInPlay g.
Proof.
  intros Hact. unfold cardsInPlay.
  destruct (act_cards a g r Hact) as (-> & -> & _).
  now rewrite (act_holeCards a g r Hact).
Qed.

Lemma cardsInPlay_reveal g :
  (0 < length (deck g))%nat ->
  cardsInPlay (reveal g) ≡ₚ cardsInPlay g
  /\ length (deck (reveal g)) = (length (deck g) - 1)%nat.
Proof.
  intros Hd. unfold reveal, pop, cardsInPlay. simpl.
  rewrite length_removelast. split; [|reflexivity].
  destruct (last (deck g)) as [c|] eqn:Hl.
  - apply last_Some in Hl as [d' Hl]. rewrite Hl, removelast_last, map_app.
    simpl. rewrite <- !app_assoc. apply Permutation_app_head. simpl.
    symmetry. apply Permutation_middle.
  - apply last_None in Hl. rewrite Hl in Hd. simpl in Hd. lia.
Qed.

Lemma cardsInPlay_burn g :
  cardsInPlay (burn g) ⊆+ cardsInPlay g
  /\ length (deck (burn g)) = (length (deck g) - 1)%nat.
Proof.
  unfold burn, pop, cardsInPlay. simpl. rewrite length_removelast.
  split; [|reflexivity]. apply submseteq_skips_r.
  rewrite removelast_firstn_len.
  apply (fmap_submseteq Some). apply submseteq_take.
Qed.

Lemma cardsInPlay_deal g :
  (4 <= length (deck g))%nat ->
  cardsInPlay (snd (dealCommunityCards g)) ⊆+ cardsInPlay g.
Proof.
  intros Hd. unfold dealCommunityCards.
  destruct (cardsInPlay_burn g) as [Hb Hbl].
  destruct (cardsInPlay_reveal (burn g)) as [H1 H1l]; [lia|].
  repeat split_if; cbn [snd]; try reflexivity;
    try (rewrite H1; exact Hb).
  destruct (cardsInPlay_reveal (reveal (burn g))) as [H2 H2l]; [lia|].
  destruct (cardsInPlay_reveal (reveal (reveal (burn g)))) as [H3 H3l]; [lia|].
  rewrite H3, H2, H1. exact Hb.
Qed.

Lemma holeCards_insert_same (ps : list Player) w p q :
  ps !! w = Some p -> Player.holeCards q = Player.holeCards p ->
  map Player.holeCards (<[w := q]> ps) = map Player.holeCards ps.
Proof.
  intros Hp Hq.
  change (Player.holeCards <$> <[w := q]> ps = Player.holeCards <$> ps).
  rewrite list_fmap_insert, Hq.
  apply list_insert_id. now rewrite list_lookup_fmap, Hp.
Qed.

Lemma submseteq_NoDup (l k : list card) : l ⊆+ k -> NoDup k -> NoDup l.
Proof.
  intros Hsub Hk. apply submseteq_Permutation in Hsub as [k' Hk'].
  rewrite Hk' in Hk. now apply NoDup_app in Hk as [? _].
Qed.

Lemma reach_cardsInPlay settled S g :
  reach settled S g -> cardsInPlay g ⊆+ map Some orderedDeck.
Proof.
  intros Hreach. pose proof Hreach as Hinv. revert Hinv.
  induction Hreach as [rnd hid g Hstart | a g n g' Hg IH Hact
                      | g Hg IH | g r g' _ Hg IH Hres]; intros Hinv.
  - rewrite startNewHand_newGame in Hstart. injection Hstart as <-.
    apply Permutation_submseteq.
    rewrite cardsInPlay_dealtHand by (rewrite length_createDeck; lia).
    apply Permutation_map. apply shuffleLoop_Permutation.
  - pose proof (cardsInPlay_act a g _ Hact) as E. simpl in E. rewrite E.
    apply IH. exact Hg.
  - etrans; [|apply IH; exact Hg]. apply cardsInPlay_deal.
    destruct (reach_cards _ _ _ Hg) as (Hacc & _). unfold deckAccount in Hacc. lia.
  - apply getHandResult_inv in Hres as (w & p & _ & Hp & -> & _).
    unfold cardsInPlay. simpl.
    rewrite (holeCards_insert_same _ w p _ Hp) by reflexivity.
    apply IH. exact Hg.
Qed.

(** X10. In every state of a hand each card slot -- in the deck, on the
    board, in a hand -- holds one of the 52 codes and no code is in two
    slots: no card is dealt twice, and a dealt card is no longer in the
    deck. *)
Theorem no_card_is_dealt_twice settled S g :
  reach settled S g ->
  NoDup (cardsInPlay g)
  /\ (forall c, In c (cardsInPlay g) -> exists code, c = Some code /\ In code orderedDeck).
Proof.
  intros H. pose proof (reach_cardsInPlay _ _ _ H) as Hsub. split.
  - apply (submseteq_NoDup _ _ Hsub).
    apply (NoDup_fmap_2 Some). apply NoDup_orderedDeck.
  - intros c Hc. apply list_elem_of_In in Hc.
    apply submseteq_Permutation in Hsub as [k Hk].
    assert (Hc' : c ∈ map Some orderedDeck)
      by (rewrite Hk; apply elem_of_app; now left).
    apply list_elem_of_In, in_map_iff in Hc' as (code & <- & Hin). eauto.
Qed.

Lemma no_card_is_dealt_twice_witness :
  exists g,
    play [Call; Call; Call; Call; Call; Check] exampleHand = Some g
    /\ NoDup (cardsInPlay (snd (dealCommunityCards g))).
Proof.
  destruct (play [Call; Call; Call; Call; Call; Check] exampleHand)
    as [g|] eqn:E; [|vm_compute in E; discriminate E].
  exists g. split; [reflexivity|].
  apply (no_card_is_dealt_twice true 10000).
  apply reach_deal.
  exact (reach_play true 10000 _ exampleHand g (reach_exampleHand true) E).
Defined.

(** ** [startNewHand] on any table *)

Lemma six_seats (ps : list Player) :
  length ps = 6%nat -> exists p0 p1 p2 p3 p4 p5, ps = [p0; p1; p2; p3; p4; p5].
Proof.
  intros H. do 6 (destruct ps as [|? ps]; [discriminate H|]).
  destruct ps; [|discriminate H]. eauto 10.
Qed.

Lemma startNewHand_six rnd hid g :
  length (players g) = 6%nat ->
  (smallBlindPosition g < 6)%nat -> (bigBlindPosition g < 6)%nat ->
  exists g',
    startNewHand rnd hid g = Some g'
    /\ pot g' = smallBlind g + bigBlind g
    /\ pot g' + totalStacks (players g') = totalStacks (players g)
    /\ currentBet g' = bigBlind g /\ gameState g' = preflop
    /\ communityCards g' = []
    /\ currentPlayerIndex g' = ((bigBlindPosition g + 1) mod 6)%nat
    /\ handId g' = hid
    /\ (dealerPosition g', smallBlindPosition g', bigBlindPosition g',
        smallBlind g', bigBlind g', stackSize g')
       = (dealerPosition g, smallBlindPosition g, bigBlindPosition g,
          smallBlind g, bigBlind g, stackSize g)
    /\ length (players g') = 6%nat
    /\ Forall (fun p => handDealt p /\ Player.isFolded p = false
                        /\ Player.isAllIn p = false /\ Player.hasActed p = false)
              (players g')
    /\ map Player.id (players g') = map Player.id (players g)
    /\ length (deck g') = 40%nat
    /\ cardsInPlay g' ≡ₚ map Some (createDeck rnd).
Proof.
  pose proof (length_createDeck rnd) as Hd.
  unfold startNewHand. revert Hd. generalize (createDeck rnd) as d. intros d Hd.
  destruct g as [ps dp sbp bbp cpi sb bb pt cc cb gs ss dk hd].
  cbn [players smallBlindPosition bigBlindPosition].
  intros Hlen Hsb Hbb.
  destruct (six_seats ps Hlen) as (p0 & p1 & p2 & p3 & p4 & p5 & ->).
  destruct p0, p1, p2, p3, p4, p5.
  assert (Hdeck : length (Nat.iter 12 (@removelast string) d) = 40%nat)
    by (rewrite length_removelast_iter, Hd; reflexivity).
  assert (Hpop : Forall defined
                   [popped 0 d; popped 1 d; popped 2 d; popped 3 d; popped 4 d;
                    popped 5 d; popped 6 d; popped 7 d; popped 8 d; popped 9 d;
                    popped 10 d; popped 11 d])
    by (repeat constructor; apply popped_defined; lia).
  repeat match type of Hpop with
         | Forall _ (_ :: _) => apply Forall_cons in Hpop as [? Hpop]
         end.
  pose proof (popped_twelve d ltac:(lia)) as Hperm.
  cbv [popped Nat.iter nat_rect] in *.
  destruct sbp as [|[|[|[|[|[|sbp]]]]]]; try (exfalso; lia);
    (destruct bbp as [|[|[|[|[|[|bbp]]]]]]; try (exfalso; lia));
    (eexists; split; [cbv -[last removelast Z.add Z.sub]; reflexivity|]);
    (split; [reflexivity|]);
    (split; [unfold totalStacks; simpl; lia|]);
    do 7 (split; [reflexivity|]);
    (split; [cbn [players]; repeat constructor; assumption|]);
    (split; [reflexivity|]); (split; [exact Hdeck|]);
    unfold cardsInPlay;
    cbn [deck communityCards players map concat app Player.holeCards];
    rewrite Hperm, Permutation_app_comm; apply Permutation_app_tail;
    same_elements.
Qed.

(** ** The table between calls *)

Lemma reach_table settled S g :
  reach settled S g ->
  exists hid, table g = (0%nat, 1%nat, 2%nat, 20, 40, S, hid).
Proof.
  induction 1 as [rnd hid g Hstart | a g n g' _ IH Hact
                 | g _ IH | g r g' _ _ IH Hres].
  - rewrite startNewHand_newGame in Hstart. injection Hstart as <-.
    exists hid. reflexivity.
  - destruct IH as [hid IH]. exists hid. rewrite <- IH.
    exact (proj1 (act_street a g _ Hact)).
  - destruct IH as [hid IH]. exists hid. rewrite <- IH.
    now destruct (dealCommunityCards_fields g) as (_ & _ & _ & _ & _ & ->).
  - destruct IH as [hid IH]. exists hid. rewrite <- IH.
    now apply getHandResult_inv in Hres as (w & p & _ & _ & -> & _).
Qed.

(** X12. In every state of a hand the dealer is seat 0 and the blinds
    are seats 1 and 2 at 20 and 40: nothing moves the button.  On such a
    state the copying constructor [new PokerGame(game.stackSize, game)],
    which the page calls after every action, returns an equal object, and
    [reset] returns the table [new PokerGame(stackSize)] builds. *)
Theorem copy_and_reset settled S g :
  reach settled S g ->
  dealerPosition g = 0%nat /\ smallBlindPosition g = 1%nat
  /\ bigBlindPosition g = 2%nat /\ smallBlind g = 20 /\ bigBlind g = 40
  /\ stackSize g = S
  /\ constructor (stackSize g) (Some g) = g
  /\ reset g = newGame S.
Proof.
  intros H. destruct (reach_table _ _ _ H) as [hid Ht].
  unfold table in Ht. injection Ht as Hd Hsb Hbb Hs Hb HS Hh.
  repeat (split; [assumption|]). split.
  - unfold constructor. destruct g. simpl in *. now subst.
  - unfold reset, newGame, constructor, initializePlayers. simpl.
    now rewrite Hs, Hb, HS.
Qed.

Lemma copy_and_reset_witness :
  constructor (stackSize exampleHand) (Some exampleHand) = exampleHand
  /\ reset exampleHand = newGame 10000.
Proof.
  destruct (copy_and_reset false 10000 exampleHand (reach_exampleHand false))
    as (_ & _ & _ & _ & _ & _ & Hc & Hr).
  split; assumption.
Defined.

(** ** A raise by a stack that cannot cover the call *)

Lemma moveToNextPlayer_currentBet g g' :
  moveToNextPlayer g = Some g' ->
  currentBet g' = currentBet g \/ currentBet g' = 0.
Proof.
  unfold moveToNextPlayer.
  destruct (isHandComplete g); [intros [= <-]; auto|].
  destruct (isBettingRoundComplete g).
  - intros H. apply moveToNextBettingRound_inv in H as (_ & _ & _ & _ & ->). auto.
  - intros H. apply seekNext_inv in H as [i ->]. auto.
Qed.


(** * Properties of the page *)

Lemma dispatch_cases action amount pg g :
  dispatch action amount pg g = Some ("", g)
  \/ exists a, dispatch action amount pg g = act a g.
Proof.
  unfold dispatch. repeat split_if; eauto;
    right; [exists Fold | exists Check | exists Call
           | exists (Bet (orElse amount (Page.betAmount pg)))
           | exists (Raise (orElse amount (Page.raiseAmount pg)))
           | exists AllIn]; reflexivity.
Qed.

(** What the rest of [handleAction] does once the action has returned. *)
Lemma handleAction_run action amount pg g actor s g1 :
  Page.game pg = Some g -> Page.isGameStarted pg = true ->
  getCurrentPlayer g = Some actor ->
  dispatch action amount pg g = Some (s, g1) ->
  (1 <= length (notFolded (players g1)))%nat ->
  exists g2 more started posted,
    handleAction action amount pg
    = Some (Page.mk (Some (constructor (stackSize (snd (dealCommunityCards g2)))
                             (Some (snd (dealCommunityCards g2)))))
              (Page.stackSize pg) (Page.betAmount pg) (Page.raiseAmount pg)
              ((if truthy s then Page.playLog pg ++ [s] else Page.playLog pg)
               ++ more)%list
              started posted)
    /\ (if isHandComplete g1
        then exists w p r,
               lowestUnfolded (players g1) w p
               /\ getHandResult g1 = Some (r, g2)
               /\ g2 = set_players
                         (<[w := Player.set_stack (Player.stack p + pot g1) p]>
                            (players g1)) g1
               /\ started = false /\ posted = (Page.posted pg ++ [r])%list
        else g2 = g1 /\ started = true /\ posted = Page.posted pg).
Proof.
  intros Hg Hst Hactor Hd Hone. unfold handleAction.
  rewrite Hg, Hst, Hactor. simpl. rewrite Hd. simpl.
  destruct (isHandComplete g1) eqn:Hc.
  - destruct (lowestUnfolded_exists _ Hone) as (w & p & Hlow).
    destruct (getHandResult_lowest g1 w p Hlow) as (r & Hr & _).
    rewrite Hr. simpl.
    match type of Hr with _ = Some (_, ?x) => set (g2 := x) in * end.
    destruct (shouldDealCommunityCards g2) eqn:Hsd.
    + destruct (dealCommunityCards g2) as [c g3] eqn:Hdeal. simpl.
      destruct c as [line|]; [destruct (truthy line)|];
        rewrite <- ?app_assoc; eexists g2, _, false, _;
        rewrite ?Hdeal; cbn [snd];
        (split; [reflexivity|exists w, p, r; split; [exact Hlow|repeat split]]).
    + eexists g2, [_; _; _], false, _.
      rewrite (dealCommunityCards_none g2 Hsd). cbn [snd].
      split; [reflexivity|].
      exists w, p, r. split; [exact Hlow|repeat split].
  - simpl. destruct (shouldDealCommunityCards g1) eqn:Hsd.
    + destruct (dealCommunityCards g1) as [c g3] eqn:Hdeal. simpl.
      destruct c as [line|]; [destruct (truthy line)|];
        [ exists g1, [line], true | exists g1, [], true | exists g1, [], true ];
        eexists; rewrite ?app_nil_r, ?Hdeal; cbn [snd]; (split; [reflexivity|auto]).
    + exists g1, [], true. eexists.
      rewrite (dealCommunityCards_none g1 Hsd), app_nil_r. cbn [snd].
      split; [reflexivity|auto].
Qed.

Lemma dispatch_keeps action amount pg g s g1 :
  dispatch action amount pg g = Some (s, g1) ->
  length (players g1) = length (players g)
  /\ pot g1 + totalStacks (players g1) = pot g + totalStacks (players g)
  /\ table g1 = table g
  /\ ((1 <= length (notFolded (players g)))%nat ->
      (1 <= length (notFolded (players g1)))%nat).
Proof.
  intros Hd. destruct (dispatch_cases action amount pg g) as [E|[a E]];
    rewrite E in Hd.
  - injection Hd as <- <-. auto.
  - split; [exact (act_length a g _ Hd)|]. split; [exact (act_chips a g _ Hd)|].
    split; [exact (proj1 (act_street a g _ Hd))|]. exact (act_unfolded a g _ Hd).
Qed.

Lemma notFolded_all ps :
  Forall (fun p => Player.isFolded p = false) ps -> notFolded ps = ps.
Proof.
  unfold notFolded. induction 1 as [|p ps Hp _ IH]; simpl; [reflexivity|].
  now rewrite Hp, IH.
Qed.

Lemma totalStacks_newGame S : totalStacks (players (newGame S)) = 6 * S.
Proof. unfold totalStacks. simpl. lia. Qed.

Lemma handleAction_invariant action amount pg pg' :
  pageInvariant pg -> handleAction action amount pg = Some pg' -> pageInvariant pg'.
Proof.
  intros (Hb & Hr & Hinv) Hh. unfold pageInvariant.
  destruct (Page.game pg) as [g|] eqn:Hg;
    [|unfold handleAction in Hh; rewrite Hg in Hh; injection Hh as <-;
      rewrite Hg; auto].
  destruct (Page.isGameStarted pg) eqn:Hst;
    [|unfold handleAction in Hh; rewrite Hg, Hst in Hh; injection Hh as <-;
      rewrite Hg, Hst; auto].
  destruct (getCurrentPlayer g) as [actor|] eqn:Hactor;
    [|unfold handleAction in Hh; rewrite Hg, Hst, Hactor in Hh; injection Hh as <-;
      rewrite Hg, Hst; auto].
  destruct Hinv as (Hlen & Hsb & Hbb & Hone & Hc & Hsum).
  destruct (dispatch action amount pg g) as [[s g1]|] eqn:Hd;
    [|unfold handleAction in Hh; rewrite Hg, Hst, Hactor in Hh; simpl in Hh;
      rewrite Hd in Hh; discriminate Hh].
  destruct (dispatch_keeps _ _ _ _ _ _ Hd) as (Hlen1 & Hsum1 & Ht1 & Hone1).
  specialize (Hone1 Hone). unfold table in Ht1.
  injection Ht1 as _ Hsb1 Hbb1 _ _ HS1 _.
  destruct (handleAction_run action amount pg g actor s g1 Hg Hst Hactor Hd Hone1)
    as (g2 & more & started & posted & Hrun & Hcase).
  rewrite Hrun in Hh. injection Hh as <-. cbn [Page.betAmount Page.raiseAmount
    Page.game Page.isGameStarted].
  split; [exact Hb|]. split; [exact Hr|].
  destruct (dealCommunityCards_fields g2) as (Hp3 & Hs3 & _ & _ & Hpot3 & Ht3).
  unfold table in Ht3. injection Ht3 as _ Hsb3 Hbb3 _ _ HS3 _.
  unfold constructor. cbn [players smallBlindPosition bigBlindPosition stackSize pot].
  rewrite Hp3, Hsb3, Hbb3.
  destruct (isHandComplete g1) eqn:Hc1.
  - destruct Hcase as (w & p & r & (Hw & _) & _ & -> & -> & _).
    rewrite HS3. unfold set_players.
    cbn [players smallBlindPosition bigBlindPosition stackSize pot].
    rewrite length_insert.
    destruct (notFolded_insert (players g1) w p
                (Player.set_stack (Player.stack p + pot g1) p) Hw) as [_ Heq].
    rewrite (Heq eq_refl), (totalStacks_insert _ _ _ _ Hw).
    cbn [Player.stack Player.set_stack].
    repeat split; try lia.
  - destruct Hcase as (-> & -> & _).
    repeat split; try lia.
    unfold isHandComplete. cbn [players gameState]. rewrite ?Hp3, Hs3. exact Hc1.
Qed.

Lemma startHand_invariant rnd hid pg pg' :
  pageInvariant pg -> Page.isGameStarted pg = false ->
  startHand rnd hid pg = Some pg' ->
  pageInvariant pg' /\ (Page.game pg <> None -> Page.isGameStarted pg' = true).
Proof.
  intros (Hb & Hr & Hinv) Hst Hs. unfold startHand in Hs.
  destruct (Page.game pg) as [g|] eqn:Hg.
  - rewrite Hst in Hinv. destruct Hinv as (Hlen & Hsb & Hbb & Hone & Hsum).
    destruct (startNewHand_six rnd hid g Hlen Hsb Hbb)
      as (g' & Hn & _ & Hchips & _ & Hpre & _ & _ & _ & Ht & Hlen' & Hall & _).
    rewrite Hn in Hs. simpl in Hs. injection Hs as <-.
    injection Ht as _ Hsb' Hbb' _ _ HS'.
    assert (Hnf : notFolded (players g') = players g').
    { apply notFolded_all. eapply Forall_impl; [exact Hall|]. now intros p (_ & ? & _). }
    split; [|reflexivity].
    unfold pageInvariant. simpl. rewrite Hnf, Hlen', Hsb', Hbb', HS'.
    repeat split; try assumption; try lia.
    unfold isHandComplete. now rewrite Hnf, Hlen', Hpre.
  - injection Hs as <-. split; [|congruence].
    unfold pageInvariant. rewrite Hg. auto.
Qed.

Lemma newGame_invariant S :
  length (players (newGame S)) = 6%nat
  /\ (smallBlindPosition (newGame S) < 6)%nat
  /\ (bigBlindPosition (newGame S) < 6)%nat
  /\ (1 <= length (notFolded (players (newGame S))))%nat
  /\ totalStacks (players (newGame S)) = 6 * stackSize (newGame S).
Proof.
  repeat split; try (simpl; lia). apply totalStacks_newGame.
Qed.

Lemma validActions_started pg name :
  In name (validActions pg) ->
  exists g, Page.game pg = Some g /\ Page.isGameStarted pg = true
            /\ In name (fst (getValidActions g)).
Proof.
  unfold validActions. destruct (Page.game pg) as [g|]; [|intros []].
  destruct (Page.isGameStarted pg); [|intros []]. eauto.
Qed.

Lemma click_invariant pg pg' : pageInvariant pg -> click pg pg' -> pageInvariant pg'.
Proof.
  intros Hinv Hclick. pose proof Hinv as (Hb & Hr & Hg).
  destruct Hclick as [n pg Hst | pg Hst | pg | name pg pg' _ _ Hh
                     | pg Hv | pg Hv | pg Hv | pg Hv | rnd hid pg pg' Hst _ Hs].
  - unfold pageInvariant. simpl. auto.
  - unfold pageInvariant, applyStacks. simpl. rewrite Hst.
    split; [exact Hb|]. split; [exact Hr|]. apply newGame_invariant.
  - unfold pageInvariant, resetGame, applyStacks.
    destruct (Page.game pg) as [g|]; simpl.
    + split; [exact Hb|]. split; [exact Hr|]. apply newGame_invariant.
    + rewrite Hg. split; [exact Hb|]. split; [exact Hr|]. apply newGame_invariant.
  - exact (handleAction_invariant _ _ _ _ Hinv Hh).
  - unfold pageInvariant. simpl. repeat split; try assumption; lia.
  - unfold pageInvariant. simpl. repeat split; try assumption; lia.
  - unfold pageInvariant. simpl. repeat split; try assumption; lia.
  - unfold pageInvariant. simpl. repeat split; try assumption; lia.
  - exact (proj1 (startHand_invariant _ _ _ _ Hinv Hst Hs)).
Qed.

Lemma pageReach_invariant pg : pageReach pg -> pageInvariant pg.
Proof.
  induction 1 as [|pg pg' _ IH Hclick].
  - unfold pageInvariant. simpl. repeat split; lia.
  - exact (click_invariant _ _ IH Hclick).
Qed.

Ltac press_button :=
  eapply click_action;
  [ simpl; tauto | vm_compute; tauto | vm_compute; reflexivity ].

(** ** Enabled buttons *)

Lemma truthy_true s : s <> "" -> truthy s = true.
Proof.
  intros H. unfold truthy. destruct (String.eqb_spec s ""); [contradiction|reflexivity].
Qed.

Lemma getValidActions_names g name :
  In name (fst (getValidActions g)) ->
  In name ["fold"; "check"; "call"; "bet"; "raise"; "allin"].
Proof.
  unfold getValidActions. destruct (getCurrentPlayer g) as [p|]; [|intros []].
  destruct (Player.isFolded p || Player.isAllIn p); [intros []|].
  repeat split_if; simpl; tauto.
Qed.

(** X15. A click on an action button the page shows enabled is played:
    the engine accepts the action the button stands for (with the bet or
    raise amount the page holds), [handleAction] returns, and the play log
    grows by the narrative of the action, which is not empty, followed by
    whatever the end of the hand or the deal of a street adds.  The hand
    stays on exactly when the action did not complete it; when it did,
    one hand result is handed to the server. *)
Theorem enabled_action_is_played pg name :
  pageReach pg -> In name (validActions pg) ->
  exists g a narrative g1 pg',
    Page.game pg = Some g /\ actionOf name pg = Some a /\ label a = name
    /\ rejected a g = false
    /\ act a g = Some (narrative, g1) /\ narrative <> ""
    /\ handleAction name None pg = Some pg'
    /\ (exists more,
          Page.playLog pg' = (Page.playLog pg ++ narrative :: more)%list)
    /\ Page.isGameStarted pg' = negb (isHandComplete g1)
    /\ length (Page.posted pg')
       = (length (Page.posted pg) + (if isHandComplete g1 then 1 else 0))%nat.
Proof.
  intros Hreach Hin.
  destruct (validActions_started pg name Hin) as (g & Hg & Hst & Hv).
  destruct (pageReach_invariant pg Hreach) as (_ & _ & Hinv).
  rewrite Hg, Hst in Hinv. destruct Hinv as (Hlen & _ & _ & Hone & _).
  assert (Hplay : forall a,
            label a = name -> actionOf name pg = Some a ->
            dispatch name None pg g = act a g ->
            exists narrative g1 pg',
              rejected a g = false
              /\ act a g = Some (narrative, g1) /\ narrative <> ""
              /\ handleAction name None pg = Some pg'
              /\ (exists more,
                    Page.playLog pg' = (Page.playLog pg ++ narrative :: more)%list)
              /\ Page.isGameStarted pg' = negb (isHandComplete g1)
              /\ length (Page.posted pg')
                 = (length (Page.posted pg)
                    + (if isHandComplete g1 then 1 else 0))%nat).
  { intros a Hl _ Hd. rewrite <- Hl in Hv.
    pose proof (offered_not_rejected a g Hv) as Hrej.
    destruct (accepted_narrative a g Hrej Hlen) as (n & g1 & Hact & Hn).
    destruct (rejected_false_actor a g Hrej) as [actor Hactor].
    rewrite Hact in Hd.
    pose proof (act_unfolded a g _ Hact Hone) as Hone1. cbn [snd] in Hone1.
    destruct (handleAction_run name None pg g actor n g1 Hg Hst Hactor Hd Hone1)
      as (g2 & more & started & posted & Hrun & Hcase).
    rewrite (truthy_true n Hn) in Hrun.
    exists n, g1. eexists. split; [exact Hrej|]. split; [exact Hact|].
    split; [exact Hn|]. split; [exact Hrun|]. cbn [Page.playLog Page.isGameStarted
      Page.posted].
    split; [exists more; now rewrite <- app_assoc|].
    destruct (isHandComplete g1).
    - destruct Hcase as (w & p & r & _ & _ & _ & -> & ->).
      split; [reflexivity|]. rewrite length_app. reflexivity.
    - destruct Hcase as (_ & -> & ->). split; [reflexivity|]. simpl. lia. }
  apply getValidActions_names in Hv as Hname.
  simpl in Hname.
  destruct Hname as [<-|[<-|[<-|[<-|[<-|[<-|[]]]]]]].
  - destruct (Hplay Fold eq_refl eq_refl eq_refl) as (n & g1 & pg' & H).
    exists g, Fold, n, g1, pg'. repeat split; try apply H. exact Hg.
  - destruct (Hplay Check eq_refl eq_refl eq_refl) as (n & g1 & pg' & H).
    exists g, Check, n, g1, pg'. repeat split; try apply H. exact Hg.
  - destruct (Hplay Call eq_refl eq_refl eq_refl) as (n & g1 & pg' & H).
    exists g, Call, n, g1, pg'. repeat split; try apply H. exact Hg.
  - destruct (Hplay (Bet (Page.betAmount pg)) eq_refl eq_refl eq_refl)
      as (n & g1 & pg' & H).
    exists g, (Bet (Page.betAmount pg)), n, g1, pg'.
    repeat split; try apply H. exact Hg.
  - destruct (Hplay (Raise (Page.raiseAmount pg)) eq_refl eq_refl eq_refl)
      as (n & g1 & pg' & H).
    exists g, (Raise (Page.raiseAmount pg)), n, g1, pg'.
    repeat split; try apply H. exact Hg.
  - destruct (Hplay AllIn eq_refl eq_refl eq_refl) as (n & g1 & pg' & H).
    exists g, AllIn, n, g1, pg'. repeat split; try apply H. exact Hg.
Qed.


Lemma enabled_action_is_played_witness :
  exists pg pg' narrative,
    pageReach pg /\ In "raise" (validActions pg) /\ narrative <> ""
    /\ handleAction "raise" None pg = Some pg'
    /\ exists more,
         Page.playLog pg' = (Page.playLog pg ++ narrative :: more)%list.
Proof.
  eassert (Hreach : pageReach _).
  { eapply pageReach_click;
      [eapply pageReach_click;
        [apply pageReach_initial | apply click_apply; reflexivity]
      |eapply (click_deal_cards (fun i => i) "first");
       [reflexivity | simpl; discriminate | vm_compute; reflexivity]]. }
  match type of Hreach with
  | pageReach ?pg =>
      assert (Hin : In "raise" (validActions pg)) by (vm_compute; tauto);
      destruct (enabled_action_is_played pg "raise" Hreach Hin)
        as (g & a & n & g1 & pg' & _ & _ & _ & _ & _ & Hn & Hh & Hlog & _);
      exists pg, pg', n
  end.
  split; [exact Hreach|]. split; [exact Hin|]. split; [exact Hn|].
  split; [exact Hh|exact Hlog].
Defined.

(** ** The page always offers a move *)

Lemma live_offers_fold g q :
  isHandComplete g = false ->
  players g !! currentPlayerIndex g = Some q -> isOut q = false ->
  In "fold" (fst (getValidActions g)).
Proof.
  intros Hc Hq Hql.
  assert (Hactor : getCurrentPlayer g = Some q)
    by (unfold getCurrentPlayer; now rewrite Hc).
  unfold getValidActions. rewrite Hactor. unfold isOut in Hql. rewrite Hql.
  simpl. repeat split_if; simpl; auto.
Qed.

Lemma handleAction_live action amount pg pg' g' :
  pageInvariant pg ->
  (forall g, Page.game pg = Some g -> Page.isGameStarted pg = true ->
             exists q, players g !! currentPlayerIndex g = Some q /\ isOut q = false) ->
  handleAction action amount pg = Some pg' ->
  Page.game pg' = Some g' -> Page.isGameStarted pg' = true ->
  exists q, players g' !! currentPlayerIndex g' = Some q /\ isOut q = false.
Proof.
  intros (_ & _ & Hinv) Hlive Hh Hg' Hst'.
  destruct (Page.game pg) as [g|] eqn:Hg;
    [|unfold handleAction in Hh; rewrite Hg in Hh; injection Hh as <-; congruence].
  destruct (Page.isGameStarted pg) eqn:Hst;
    [|unfold handleAction in Hh; rewrite Hg, Hst in Hh; injection Hh as <-;
      congruence].
  specialize (Hlive g eq_refl eq_refl).
  destruct (getCurrentPlayer g) as [actor|] eqn:Hactor;
    [|unfold handleAction in Hh; rewrite Hg, Hst, Hactor in Hh; injection Hh as <-;
      rewrite Hg in Hg'; now injection Hg' as <-].
  destruct Hinv as (Hlen & _ & _ & Hone & Hc & _).
  destruct (dispatch action amount pg g) as [[s g1]|] eqn:Hd;
    [|unfold handleAction in Hh; rewrite Hg, Hst, Hactor in Hh; simpl in Hh;
      rewrite Hd in Hh; discriminate Hh].
  destruct (dispatch_keeps _ _ _ _ _ _ Hd) as (_ & _ & _ & Hone1).
  specialize (Hone1 Hone).
  destruct (handleAction_run action amount pg g actor s g1 Hg Hst Hactor Hd Hone1)
    as (g2 & more & started & posted & Hrun & Hcase).
  rewrite Hrun in Hh. injection Hh as <-.
  cbn [Page.game Page.isGameStarted] in Hg', Hst'. injection Hg' as <-.
  destruct (dealCommunityCards_fields g2) as (Hp3 & _ & Hi3 & _).
  unfold constructor. cbn [players currentPlayerIndex]. rewrite Hp3, Hi3.
  destruct (isHandComplete g1) eqn:Hc1.
  - destruct Hcase as (w & p & r & _ & _ & _ & E & _). congruence.
  - destruct Hcase as (-> & _).
    destruct (dispatch_cases action amount pg g) as [E|[a E]]; rewrite E in Hd.
    + injection Hd as _ <-. exact Hlive.
    + exact (act_live a g _ Hlen Hd Hlive Hc1).
Qed.

Lemma startHand_live rnd hid pg pg' g' :
  pageInvariant pg -> Page.isGameStarted pg = false -> Page.game pg <> None ->
  startHand rnd hid pg = Some pg' -> Page.game pg' = Some g' ->
  exists q, players g' !! currentPlayerIndex g' = Some q /\ isOut q = false.
Proof.
  intros (_ & _ & Hinv) Hst Hgame Hs Hg'. unfold startHand in Hs.
  destruct (Page.game pg) as [g|]; [|congruence].
  destruct Hinv as (Hlen & Hsb & Hbb & _).
  destruct (startNewHand_six rnd hid g Hlen Hsb Hbb)
    as (g1 & Hn & _ & _ & _ & _ & _ & Hi & _ & _ & Hlen' & Hall & _).
  rewrite Hn in Hs. simpl in Hs. injection Hs as <-. simpl in Hg'.
  injection Hg' as <-.
  destruct (lookup_lt_is_Some_2 (players g1) (currentPlayerIndex g1)) as [q Hq].
  { rewrite Hi, Hlen'. apply Nat.mod_upper_bound. lia. }
  exists q. split; [exact Hq|].
  rewrite Forall_lookup in Hall. destruct (Hall _ _ Hq) as (_ & Hf & Ha & _).
  unfold isOut. now rewrite Hf, Ha.
Qed.

Lemma pageReach_live pg g :
  pageReach pg -> Page.game pg = Some g -> Page.isGameStarted pg = true ->
  exists q, players g !! currentPlayerIndex g = Some q /\ isOut q = false.
Proof.
  intros Hreach. revert g.
  induction Hreach as [|pg pg' Hreach IH Hclick]; intros g' Hg' Hst';
    [discriminate Hg'|].
  pose proof (pageReach_invariant pg Hreach) as Hinv.
  destruct Hclick as [n pg Hst | pg Hst | pg | name pg pg' _ _ Hh
                     | pg Hv | pg Hv | pg Hv | pg Hv | rnd hid pg pg' Hst Hgame Hs].
  - simpl in Hst'. congruence.
  - simpl in Hst'. congruence.
  - unfold resetGame in Hst', Hg'. destruct Hinv as (_ & _ & Hinv).
    destruct (Page.game pg); simpl in Hst'; congruence.
  - exact (handleAction_live _ _ _ _ _ Hinv IH Hh Hg' Hst').
  - exact (IH g' Hg' Hst').
  - exact (IH g' Hg' Hst').
  - exact (IH g' Hg' Hst').
  - exact (IH g' Hg' Hst').
  - exact (startHand_live _ _ _ _ _ Hinv Hst Hgame Hs Hg').
Qed.

(** X16. The page a user can reach always offers a move.  While a hand
    is on, the Fold button is enabled: the turn rests on a seat that can
    act, in the first hand and in every later one.  Between hands, once a
    table is set up, Deal Cards returns and starts a hand in which Fold
    is enabled. *)
Theorem page_is_never_stuck pg :
  pageReach pg ->
  (Page.isGameStarted pg = true -> In "fold" (validActions pg))
  /\ (Page.isGameStarted pg = false -> Page.game pg <> None ->
      forall rnd hid, exists pg',
        startHand rnd hid pg = Some pg' /\ Page.isGameStarted pg' = true
        /\ In "fold" (validActions pg')).
Proof.
  assert (Hfold : forall pg, pageReach pg -> Page.isGameStarted pg = true ->
                             In "fold" (validActions pg)).
  { clear pg. intros pg Hreach Hst.
    destruct (pageReach_invariant pg Hreach) as (_ & _ & Hinv).
    unfold validActions. rewrite Hst in *.
    destruct (Page.game pg) as [g|] eqn:Hg; [|discriminate Hinv].
    destruct Hinv as (_ & _ & _ & _ & Hc & _).
    destruct (pageReach_live pg g Hreach Hg Hst) as (q & Hq & Hql).
    exact (live_offers_fold g q Hc Hq Hql). }
  intros Hreach. split; [exact (Hfold pg Hreach)|].
  intros Hst Hgame rnd hid.
  pose proof (pageReach_invariant pg Hreach) as Hinv.
  assert (Hs : exists pg', startHand rnd hid pg = Some pg').
  { destruct Hinv as (_ & _ & Hinv). unfold startHand.
    destruct (Page.game pg) as [g|]; [|congruence].
    destruct Hinv as (Hlen & Hsb & Hbb & _).
    destruct (startNewHand_six rnd hid g Hlen Hsb Hbb) as (g1 & -> & _).
    simpl. eauto. }
  destruct Hs as [pg' Hs]. exists pg'. split; [exact Hs|].
  destruct (startHand_invariant rnd hid pg pg' Hinv Hst Hs) as [_ Hst'].
  specialize (Hst' Hgame). split; [exact Hst'|].
  apply Hfold; [|exact Hst'].
  exact (pageReach_click pg pg' Hreach (click_deal_cards rnd hid pg pg' Hst Hgame Hs)).
Qed.

Lemma page_is_never_stuck_witness :
  exists pg pg',
    pageReach pg /\ Page.isGameStarted pg = false
    /\ length (Page.posted pg) = 1%nat
    /\ startHand (fun i => i) "second" pg = Some pg'
    /\ Page.isGameStarted pg' = true /\ In "fold" (validActions pg').
Proof.
  eassert (Hreach : pageReach _).
  { eapply pageReach_click;
      [eapply pageReach_click;
        [eapply pageReach_click;
          [eapply pageReach_click;
            [eapply pageReach_click;
              [eapply pageReach_click;
                [eapply pageReach_click;
                  [apply pageReach_initial | apply click_apply; reflexivity]
                |eapply (click_deal_cards (fun i => i) "first");
                 [reflexivity | simpl; discriminate | vm_compute; reflexivity]]
              |press_button]
            |press_button]
          |press_button]
        |press_button]
      |press_button]. }
  match type of Hreach with
  | pageReach ?pg =>
      exists pg;
      destruct (page_is_never_stuck pg Hreach) as [_ Hdeal];
      destruct (Hdeal eq_refl ltac:(simpl; discriminate) (fun i => i) "second")
        as (pg' & Hs & Hst & Hfold)
  end.
  exists pg'. split; [exact Hreach|]. split; [reflexivity|].
  split; [reflexivity|]. split; [exact Hs|]. split; [exact Hst|exact Hfold].
Defined.


(** ** The button *)

Lemma act_ids a g r :
  act a g = Some r ->
  map Player.id (players (snd r)) = map Player.id (players g).
Proof.
  intros Hact. apply list_eq. intros i. rewrite !list_lookup_fmap.
  destruct (players g !! i) as [p|] eqn:Hp.
  - destruct (act_seat a g r i p Hact Hp) as (p' & -> & Hs). simpl. f_equal.
    apply (f_equal Player.id) in Hs. simpl in Hs. rewrite Hs.
    destruct ((i =? currentPlayerIndex g)%nat && negb (rejected a g));
      [apply id_actorAfter|reflexivity].
  - apply lookup_ge_None in Hp. rewrite <- (act_length a g r Hact) in Hp.
    apply lookup_ge_None in Hp. now rewrite Hp.
Qed.

Lemma ids_set_stack ps w p n :
  ps !! w = Some p ->
  map Player.id (<[w := Player.set_stack n p]> ps) = map Player.id ps.
Proof.
  intros Hw. rewrite (list_fmap_insert Player.id). apply list_insert_id.
  rewrite list_lookup_fmap, Hw. reflexivity.
Qed.

Lemma dispatch_fixtures action amount pg g s g1 :
  dispatch action amount pg g = Some (s, g1) -> fixtures g1 = fixtures g.
Proof.
  intros Hd. destruct (dispatch_cases action amount pg g) as [E|[a E]];
    rewrite E in Hd.
  - now injection Hd as _ <-.
  - pose proof (proj1 (act_street a g _ Hd)) as Ht. unfold table in Ht.
    pose proof (act_ids a g _ Hd) as Hids.
    injection Ht as Hdp Hsb Hbb Hs Hb _ _. cbn [snd] in *.
    unfold fixtures. now rewrite Hdp, Hsb, Hbb, Hs, Hb, Hids.
Qed.

Lemma handleAction_fixtures action amount pg pg' g g' :
  pageInvariant pg -> Page.game pg = Some g ->
  fixtures g = (0%nat, 1%nat, 2%nat, 20, 40, [1; 2; 3; 4; 5; 6]) ->
  handleAction action amount pg = Some pg' -> Page.game pg' = Some g' ->
  fixtures g' = (0%nat, 1%nat, 2%nat, 20, 40, [1; 2; 3; 4; 5; 6]).
Proof.
  intros (_ & _ & Hinv) Hg Hfix Hh Hg'. rewrite Hg in Hinv.
  destruct (Page.isGameStarted pg) eqn:Hst;
    [|unfold handleAction in Hh; rewrite Hg, Hst in Hh; injection Hh as <-;
      congruence].
  destruct (getCurrentPlayer g) as [actor|] eqn:Hactor;
    [|unfold handleAction in Hh; rewrite Hg, Hst, Hactor in Hh; injection Hh as <-;
      congruence].
  destruct Hinv as (_ & _ & _ & Hone & _).
  destruct (dispatch action amount pg g) as [[s g1]|] eqn:Hd;
    [|unfold handleAction in Hh; rewrite Hg, Hst, Hactor in Hh; simpl in Hh;
      rewrite Hd in Hh; discriminate Hh].
  destruct (dispatch_keeps _ _ _ _ _ _ Hd) as (_ & _ & _ & Hone1).
  specialize (Hone1 Hone).
  pose proof (dispatch_fixtures _ _ _ _ _ _ Hd) as Hfix1. rewrite Hfix in Hfix1.
  destruct (handleAction_run action amount pg g actor s g1 Hg Hst Hactor Hd Hone1)
    as (g2 & more & started & posted & Hrun & Hcase).
  rewrite Hrun in Hh. injection Hh as <-. cbn [Page.game] in Hg'.
  injection Hg' as <-.
  destruct (dealCommunityCards_fields g2) as (Hp3 & _ & _ & _ & _ & Ht3).
  unfold table in Ht3. injection Ht3 as Hdp3 Hsb3 Hbb3 _ _ _ _.
  assert (Hfix2 : fixtures g2 = (0%nat, 1%nat, 2%nat, 20, 40, [1; 2; 3; 4; 5; 6])).
  { destruct (isHandComplete g1).
    - destruct Hcase as (w & p & r & (Hw & _) & _ & -> & _).
      unfold fixtures, set_players.
      cbn [players dealerPosition smallBlindPosition bigBlindPosition
           smallBlind bigBlind].
      rewrite (ids_set_stack _ _ _ _ Hw). exact Hfix1.
    - now destruct Hcase as (-> & _). }
  unfold fixtures in *. unfold constructor.
  cbn [players dealerPosition smallBlindPosition bigBlindPosition smallBlind
       bigBlind fieldDefaults].
  rewrite Hp3, Hdp3, Hsb3, Hbb3. injection Hfix2 as -> -> -> _ _ ->. reflexivity.
Qed.

Lemma pageReach_fixtures pg g :
  pageReach pg -> Page.game pg = Some g ->
  fixtures g = (0%nat, 1%nat, 2%nat, 20, 40, [1; 2; 3; 4; 5; 6]).
Proof.
  intros Hreach. revert g.
  induction Hreach as [|pg pg' Hreach IH Hclick]; intros g' Hg';
    [discriminate Hg'|].
  pose proof (pageReach_invariant pg Hreach) as Hinv.
  destruct Hclick as [n pg Hst | pg Hst | pg | name pg pg' _ _ Hh
                     | pg Hv | pg Hv | pg Hv | pg Hv | rnd hid pg pg' Hst Hgame Hs].
  - exact (IH g' Hg').
  - simpl in Hg'. now injection Hg' as <-.
  - unfold resetGame in Hg'. destruct (Page.game pg); simpl in Hg';
      now injection Hg' as <-.
  - destruct (Page.game pg) as [g|] eqn:Hg.
    + exact (handleAction_fixtures _ _ _ _ g g' Hinv Hg (IH g eq_refl) Hh Hg').
    + unfold handleAction in Hh. rewrite Hg in Hh. injection Hh as <-. congruence.
  - exact (IH g' Hg').
  - exact (IH g' Hg').
  - exact (IH g' Hg').
  - exact (IH g' Hg').
  - unfold startHand in Hs. destruct (Page.game pg) as [g|] eqn:Hg; [|congruence].
    destruct Hinv as (_ & _ & Hinv). rewrite Hg in Hinv.
    destruct Hinv as (Hlen & Hsb & Hbb & _).
    destruct (startNewHand_six rnd hid g Hlen Hsb Hbb)
      as (g1 & Hn & _ & _ & _ & _ & _ & _ & _ & Ht & _ & _ & Hids & _).
    rewrite Hn in Hs. simpl in Hs. injection Hs as <-. simpl in Hg'.
    injection Hg' as <-. specialize (IH g eq_refl). unfold fixtures in *.
    injection Ht as -> -> -> -> -> _. now rewrite Hids.
Qed.

(** X17. The button never moves.  On every page a user can reach the
    dealer is the first seat, the small blind the second and the big blind
    the third, the blinds are 20 and 40 and the six seats are players 1 to
    6 in order, however many hands have been played; so every hand dealt
    from the page starts with a pot of 60, 40 to call and the fourth seat
    to act. *)
Theorem button_never_moves pg g :
  pageReach pg -> Page.game pg = Some g ->
  dealerPosition g = 0%nat /\ smallBlindPosition g = 1%nat
  /\ bigBlindPosition g = 2%nat
  /\ smallBlind g = 20 /\ bigBlind g = 40
  /\ map Player.id (players g) = [1; 2; 3; 4; 5; 6]
  /\ forall rnd hid, exists g',
       startNewHand rnd hid g = Some g'
       /\ pot g' = 60 /\ currentBet g' = 40 /\ currentPlayerIndex g' = 3%nat.
Proof.
  intros Hreach Hg. pose proof (pageReach_fixtures pg g Hreach Hg) as Hfix.
  unfold fixtures in Hfix. injection Hfix as Hdp Hsb Hbb Hs Hb Hids.
  do 6 (split; [assumption|]). intros rnd hid.
  destruct (pageReach_invariant pg Hreach) as (_ & _ & Hinv). rewrite Hg in Hinv.
  destruct Hinv as (Hlen & Hsb6 & Hbb6 & _).
  destruct (startNewHand_six rnd hid g Hlen Hsb6 Hbb6)
    as (g' & Hn & Hpot & _ & Hcb & _ & _ & Hi & _).
  exists g'. split; [exact Hn|]. rewrite Hpot, Hcb, Hi, Hs, Hb, Hbb.
  repeat split; reflexivity.
Qed.

Lemma button_never_moves_witness :
  exists pg g,
    pageReach pg /\ Page.game pg = Some g /\ length (Page.posted pg) = 1%nat
    /\ dealerPosition g = 0%nat /\ smallBlindPosition g = 1%nat
    /\ bigBlindPosition g = 2%nat.
Proof.
  eassert (Hreach : pageReach _).
  { eapply pageReach_click;
      [eapply pageReach_click;
        [eapply pageReach_click;
          [eapply pageReach_click;
            [eapply pageReach_click;
              [eapply pageReach_click;
                [eapply pageReach_click;
                  [apply pageReach_initial | apply click_apply; reflexivity]
                |eapply (click_deal_cards (fun i => i) "first");
                 [reflexivity | simpl; discriminate | vm_compute; reflexivity]]
              |press_button]
            |press_button]
          |press_button]
        |press_button]
      |press_button]. }
  match type of Hreach with
  | pageReach ?pg =>
      exists pg; eexists; split; [exact Hreach|];
      eassert (Hg : Page.game pg = Some _) by (vm_compute; reflexivity);
      destruct (button_never_moves pg _ Hreach Hg) as (H1 & H2 & H3 & _)
  end.
  split; [exact Hg|]. split; [reflexivity|]. repeat split; assumption.
Defined.


(** * Hands on any table, and amounts within the limit

    The arithmetic of the methods in [Z] is that of the source on
    integers within the limit; the properties below that depend on a
    computed amount are stated there. *)

Lemma chipLimit_power : chipLimit = 2 ^ 50.
Proof. reflexivity. Qed.

Lemma MAX_SAFE_INTEGER_power : MAX_SAFE_INTEGER = 2 ^ 53 - 1.
Proof. reflexivity. Qed.

Lemma small_safe n : small n -> isSafeInteger n.
Proof. unfold small, isSafeInteger, chipLimit, MAX_SAFE_INTEGER. lia. Qed.

(** ** Hands *)

Lemma hand_reach settled S acts g :
  hand settled (newGame S) acts g -> reach settled S g.
Proof.
  induction 1 as [rnd hid g Hstart | acts a g n g' _ IH Hact
                 | acts g _ IH | acts g r g' Hs _ IH Hres].
  - exact (reach_start _ _ rnd hid g Hstart).
  - exact (reach_act _ _ a g n g' IH Hact).
  - exact (reach_deal _ _ g IH).
  - exact (reach_settle _ _ g r g' Hs IH Hres).
Qed.

Lemma reach_hand settled S g :
  reach settled S g -> exists acts, hand settled (newGame S) acts g.
Proof.
  induction 1 as [rnd hid g Hstart | a g n g' _ [acts IH] Hact
                 | g _ [acts IH] | g r g' Hs _ [acts IH] Hres].
  - exists []. exact (hand_start _ _ rnd hid g Hstart).
  - exists (acts ++ [a])%list. exact (hand_act _ _ acts a g n g' IH Hact).
  - exists acts. exact (hand_deal _ _ acts g IH).
  - exists acts. exact (hand_settle _ _ acts g r g' Hs IH Hres).
Qed.

Lemma hand_play settled t acts actions g g' :
  hand settled t acts g -> play actions g = Some g' ->
  hand settled t (acts ++ actions)%list g'.
Proof.
  revert acts g. induction actions as [|a rest IH]; intros acts g Hg; simpl.
  - intros [= <-]. now rewrite app_nil_r.
  - destruct (act a g) as [[n g1]|] eqn:E; [|discriminate].
    intros H. rewrite (app_assoc acts [a] rest : (acts ++ a :: rest = (acts ++ [a]) ++ rest)%list).
    apply (IH _ g1); [|exact H]. exact (hand_act _ _ acts a g n g1 Hg E).
Qed.

Lemma hand_exampleHand settled : hand settled (newGame 10000) [] exampleHand.
Proof.
  apply (hand_start _ _ (fun _ => 0%nat) "h"). apply startNewHand_newGame.
Qed.

Lemma hand_six settled t acts g :
  length (players t) = 6%nat ->
  (smallBlindPosition t < 6)%nat -> (bigBlindPosition t < 6)%nat ->
  hand settled t acts g -> length (players g) = 6%nat.
Proof.
  intros Hlen Hsb Hbb.
  induction 1 as [rnd hid g Hstart | acts a g n g' _ IH Hact
                 | acts g _ IH | acts g r g' _ _ IH Hres].
  - destruct (startNewHand_six rnd hid t Hlen Hsb Hbb)
      as (g1 & Hn & _ & _ & _ & _ & _ & _ & _ & _ & Hlen' & _).
    rewrite Hn in Hstart. now injection Hstart as <-.
  - now rewrite <- IH, <- (act_length a g _ Hact).
  - now destruct (dealCommunityCards_players g) as [-> _].
  - apply getHandResult_inv in Hres as (w & p & _ & _ & -> & _). simpl.
    now rewrite length_insert.
Qed.

(** ** Conservation *)

(** C1. Chip conservation.  In every state of a hand that starts with
    [startNewHand] on a new table of six seats with starting stack [S] and
    continues with any calls of the six action methods (each of which
    performs its own turn and street transition) and of
    [dealCommunityCards], before settlement, the pot plus the six stacks
    equals [6 * S]; committed chips are in the pot, not in the seats'
    [currentBet].  Stated for chip counts: a starting stack from 0 to
    2^50 and bet and raise amounts from 0 to 2^50, where the additions of
    the source are exact. *)
Theorem chip_conservation S acts g :
  0 <= S <= chipLimit -> Forall modest acts ->
  hand false (newGame S) acts g ->
  length (players g) = 6%nat
  /\ pot g + totalStacks (players g) = 6 * S
  /\ isSafeInteger (6 * S).
Proof.
  intros HS _ Hhand. apply hand_reach in Hhand.
  split; [exact (reach_six _ _ _ Hhand)|].
  split; [exact (reach_chips _ _ Hhand)|].
  unfold isSafeInteger, MAX_SAFE_INTEGER, chipLimit in *. lia.
Qed.

Lemma chip_conservation_witness :
  exists g,
    play [Raise 100; Call; Fold; AllIn; Fold; Call] exampleHand = Some g
    /\ length (players g) = 6%nat
    /\ pot g + totalStacks (players g) = 6 * 10000.
Proof.
  destruct (play [Raise 100; Call; Fold; AllIn; Fold; Call] exampleHand)
    as [g|] eqn:E; [|vm_compute in E; discriminate E].
  exists g. split; [reflexivity|].
  destruct (chip_conservation 10000 [Raise 100; Call; Fold; AllIn; Fold; Call] g)
    as (Hlen & Hsum & _).
  - unfold chipLimit. lia.
  - repeat constructor; unfold modest, chipLimit; simpl; lia.
  - exact (hand_play false _ [] _ exampleHand g (hand_exampleHand false) E).
  - split; assumption.
Defined.

(** X8. Settling a first hand once restores the chips to the seats:
    after [getHandResult] on any state before settlement the six stacks
    sum to [6 * S] again, the winner's net gain being what the others
    put in; the pot field still holds the amount it paid out.  Stated
    for a starting stack from 0 to 2^50 and amounts from 0 to 2^50, where
    the additions of the source are exact and [6 * S] is a safe
    integer. *)
Theorem settlement_returns_all_chips S acts g r g' :
  0 <= S <= chipLimit -> Forall modest acts ->
  hand false (newGame S) acts g -> getHandResult g = Some (r, g') ->
  totalStacks (players g') = 6 * S
  /\ pot g' = pot g /\ HandResult.totalPot r = pot g
  /\ isSafeInteger (6 * S).
Proof.
  intros HS _ Hg Hres. apply hand_reach in Hg.
  pose proof (reach_chips S g Hg) as Hsum.
  apply getHandResult_inv in Hres as (w & p & _ & Hp & -> & Ht & _).
  simpl. rewrite (totalStacks_insert _ _ _ _ Hp). simpl.
  split; [lia|]. split; [reflexivity|]. split; [exact Ht|].
  unfold isSafeInteger, MAX_SAFE_INTEGER, chipLimit in *. lia.
Qed.

Lemma settlement_returns_all_chips_witness :
  exists g r g',
    play [Raise 100; Call; Fold; Fold; Fold; Fold] exampleHand = Some g
    /\ getHandResult g = Some (r, g')
    /\ totalStacks (players g') = 60000.
Proof.
  destruct (play [Raise 100; Call; Fold; Fold; Fold; Fold] exampleHand)
    as [g|] eqn:E; [|vm_compute in E; discriminate E].
  pose proof (hand_play false _ [] _ exampleHand g (hand_exampleHand false) E)
    as Hg.
  destruct (getHandResult_total false 10000 g (hand_reach _ _ _ _ Hg))
    as (_ & _ & r & g' & _ & Hres).
  exists g, r, g'. split; [reflexivity|]. split; [exact Hres|].
  destruct (settlement_returns_all_chips 10000
              [Raise 100; Call; Fold; Fold; Fold; Fold] g r g') as [-> _];
    [ unfold chipLimit; lia
    | repeat constructor; unfold modest, chipLimit; simpl; lia
    | exact Hg | exact Hres | reflexivity ].
Defined.

(** ** The deck *)

Lemma hand_cards settled t acts g :
  length (players t) = 6%nat ->
  (smallBlindPosition t < 6)%nat -> (bigBlindPosition t < 6)%nat ->
  hand settled t acts g ->
  deckAccount g /\ Forall defined (communityCards g)
  /\ Forall handDealt (players g).
Proof.
  intros Hlen Hsb Hbb.
  induction 1 as [rnd hid g Hstart | acts a g n g' _ IH Hact
                 | acts g _ IH | acts g r g' _ _ IH Hres].
  - destruct (startNewHand_six rnd hid t Hlen Hsb Hbb)
      as (g1 & Hn & _ & _ & _ & _ & Hcc & _ & _ & _ & _ & Hall & _ & Hdeck & _).
    rewrite Hn in Hstart. injection Hstart as <-.
    split; [|split].
    + left. rewrite Hcc. split; [reflexivity|exact Hdeck].
    + rewrite Hcc. constructor.
    + eapply Forall_impl; [exact Hall|]. now intros p (H & _).
  - destruct IH as (Hacc & Hdef & Hall).
    destruct (act_cards a g _ Hact) as (Hd & Hc & Hh). simpl in Hd, Hc, Hh.
    unfold deckAccount. rewrite Hd, Hc. auto.
  - destruct IH as (Hacc & Hdef & Hall).
    destruct (dealCommunityCards_cards g Hacc Hdef) as [H1 H2].
    repeat split; trivial.
    now destruct (dealCommunityCards_players g) as [-> _].
  - destruct IH as (Hacc & Hdef & Hall).
    apply getHandResult_inv in Hres as (w & p & _ & Hp & -> & _).
    repeat split; trivial. simpl.
    apply Forall_insert; [exact Hall|].
    exact (Forall_lookup_1 _ _ _ _ Hall Hp).
Qed.

(** C8. Throughout one hand on any table of six -- a new table or the
    table an earlier hand left: [startNewHand], then any calls of the
    action methods, of [dealCommunityCards] and of [getHandResult] -- the
    deck of 52 has lost the 12 hole cards and, with the board at 0, 3, 4
    or 5 cards, 0, 4, 6 or 8 more: at most 20 cards are drawn and at least
    32 remain.  Hence the [pop]s of the next [dealCommunityCards] all find
    a card, and every hole-card and board slot filled so far holds a card,
    none is [undefined]. *)
Theorem deck_never_exhausted t acts g :
  length (players t) = 6%nat ->
  (smallBlindPosition t < 6)%nat -> (bigBlindPosition t < 6)%nat ->
  hand true t acts g ->
  deckAccount g
  /\ (52 - length (deck g) <= 20)%nat
  /\ (32 <= length (deck g))%nat
  /\ (dealPops g <= length (deck g))%nat
  /\ Forall defined (communityCards g)
  /\ Forall handDealt (players g).
Proof.
  intros Hlen Hsb Hbb H.
  destruct (hand_cards _ _ _ _ Hlen Hsb Hbb H) as (Hacc & Hdef & Hall).
  pose proof (dealPops_bound g).
  repeat split; trivial; unfold deckAccount in Hacc; lia.
Qed.

Lemma deck_never_exhausted_witness :
  exists first r t second g,
    play [Fold; Fold; Fold; Fold; Fold] exampleHand = Some first
    /\ getHandResult first = Some (r, t)
    /\ startNewHand (fun i => i) "second" t = Some second
    /\ play [Call; Call; Call; Call; Call; Check] second = Some g
    /\ gameState g = flop
    /\ (32 <= length (deck (snd (dealCommunityCards g))))%nat
    /\ length (communityCards (snd (dealCommunityCards g))) = 3%nat
    /\ Forall defined (communityCards (snd (dealCommunityCards g))).
Proof.
  do 5 eexists.
  split; [vm_compute; reflexivity|]. split; [vm_compute; reflexivity|].
  match goal with |- startNewHand _ _ ?t = _ /\ _ => pose (T := t) end.
  split; [vm_compute; reflexivity|].
  match goal with |- play _ ?s = _ /\ _ => pose (Second := s) end.
  split; [vm_compute; reflexivity|].
  split; [reflexivity|].
  match goal with
  | |- (32 <= length (deck (snd (dealCommunityCards ?g))))%nat /\ _ =>
      pose (G := g)
  end.
  assert (Hs : startNewHand (fun i => i) "second" T = Some Second)
    by (vm_compute; reflexivity).
  assert (Hplay : play [Call; Call; Call; Call; Call; Check] Second = Some G)
    by (vm_compute; reflexivity).
  pose proof (deck_never_exhausted T _ (snd (dealCommunityCards G))
                eq_refl ltac:(simpl; lia) ltac:(simpl; lia)
                (hand_deal true T _ G
                   (hand_play true T [] _ Second G
                      (hand_start true T _ _ Second Hs) Hplay)))
    as (_ & _ & H32 & _ & Hdef & _).
  split; [exact H32|]. split; [reflexivity | exact Hdef].
Defined.


(** ** One call *)

(** C6. For [call], [bet] and [raise] by the current actor on a table
    of six: the call returns; the chips committed -- what enters the pot
    and leaves the stack -- are the requested amount capped by the stack
    ([committed]); they never exceed the stack, and the stack that
    remains is not negative.  In particular an actor with stack 30 who
    faces a bet and calls [raise(500)] commits exactly 30, ends with
    stack 0 and is marked all-in.  Stated for an actor's stack and street
    bet, a current bet, a pot and an amount that are integers of magnitude
    at most 2^50; every number the call then computes is a safe integer,
    so the arithmetic of the source is exact. *)
Theorem commitment_capped a g actor :
  length (players g) = 6%nat ->
  getCurrentPlayer g = Some actor ->
  (a = Call \/ (exists amount, a = Bet amount) \/ (exists amount, a = Raise amount)) ->
  small (Player.stack actor) -> small (Player.currentBet actor) ->
  small (currentBet g) -> small (pot g) -> small (amountOf a) ->
  exists narrative g' actor',
    act a g = Some (narrative, g')
    /\ players g' !! currentPlayerIndex g = Some actor'
    /\ pot g' - pot g = Player.stack actor - Player.stack actor'
    /\ pot g' - pot g = committed a g
    /\ (rejected a g = false -> committed a g <= Player.stack actor)
    /\ (rejected a g = false -> 0 <= Player.stack actor')
    /\ (0 <= Player.stack actor -> 0 <= Player.stack actor')
    /\ (a = Raise 500 -> Player.stack actor = 30 ->
        0 < currentBet g -> Player.currentBet actor < currentBet g ->
        pot g' - pot g = 30 /\ Player.stack actor' = 0
        /\ Player.isAllIn actor' = true)
    /\ isSafeInteger (currentBet g - Player.currentBet actor + amountOf a)
    /\ isSafeInteger (committed a g)
    /\ isSafeInteger (Player.stack actor')
    /\ isSafeInteger (Player.currentBet actor + committed a g)
    /\ isSafeInteger (pot g').
Proof.
  intros Hlen Hactor Hkind Hs Hb Hc Hp Ha.
  destruct (act_commits a g actor Hlen Hactor Hkind)
    as (narrative & g' & actor' & Hact & Hl & Hpot & Hcom & Hcap & Hpos & Hpos'
        & Hraise).
  exists narrative, g', actor'.
  do 8 (split; [assumption|]).
  assert (Hrange : - (3 * chipLimit) <= committed a g <= chipLimit).
  { unfold committed. rewrite Hactor. unfold small in *.
    destruct (rejected a g); [unfold chipLimit; lia|].
    destruct Hkind as [->|[[n ->]|[n ->]]]; simpl in Ha; lia. }
  unfold isSafeInteger, MAX_SAFE_INTEGER, small, chipLimit in *.
  repeat split; lia.
Qed.

Lemma commitment_capped_witness :
  exists g actor,
    play [Raise 9930; Raise 10; Fold; Fold; Fold; Fold] exampleHand = Some g
    /\ getCurrentPlayer g = Some actor
    /\ Player.stack actor = 30
    /\ exists narrative g' actor',
         act (Raise 500) g = Some (narrative, g')
         /\ players g' !! currentPlayerIndex g = Some actor'
         /\ pot g' - pot g = 30 /\ Player.stack actor' = 0
         /\ Player.isAllIn actor' = true.
Proof.
  destruct (play [Raise 9930; Raise 10; Fold; Fold; Fold; Fold] exampleHand)
    as [g|] eqn:E; [|vm_compute in E; discriminate E].
  vm_compute in E. injection E as <-.
  eexists. eexists. split; [reflexivity|]. split; [reflexivity|].
  split; [reflexivity|].
  match goal with
  | |- context [act (Raise 500) ?g] =>
      destruct (commitment_capped (Raise 500) g
                  (Player.mk 4 "Player 4" 30
                     [popped 3 (createDeck (fun _ => 0%nat));
                      popped 9 (createDeck (fun _ => 0%nat))] 9970 false false false))
        as (n & g' & actor' & Hact & Hl & _ & _ & _ & _ & _ & Hraise & _);
      [ reflexivity | reflexivity | right; right; eexists; reflexivity
      | unfold small, chipLimit; simpl; lia | unfold small, chipLimit; simpl; lia
      | unfold small, chipLimit; simpl; lia | unfold small, chipLimit; simpl; lia
      | unfold small, chipLimit; simpl; lia | ]
  end.
  destruct (Hraise eq_refl eq_refl) as (Hpot & Hstack & Hallin);
    [reflexivity | reflexivity |].
  exists n, g', actor'. repeat split; assumption.
Defined.

(** C10. A call of [getHandResult] adds the whole pot to the stack of
    the lowest-indexed seat that has not folded, whatever the cards, and
    leaves the pot as it was; a second call adds the pot again.  With a
    non-empty pot the call therefore changes the state, and calling twice
    is not the same as calling once.  Stated for a winner's stack and a
    pot that are integers of magnitude at most 2^50, so that both sums
    are safe integers and the additions of the source are exact. *)
Theorem getHandResult_awards_pot_each_call g w p :
  lowestUnfolded (players g) w p ->
  small (Player.stack p) -> small (pot g) ->
  exists r1 g1 r2 g2,
    getHandResult g = Some (r1, g1)
    /\ players g1 = <[w := Player.set_stack (Player.stack p + pot g) p]> (players g)
    /\ pot g1 = pot g
    /\ HandResult.totalPot r1 = pot g
    /\ getHandResult g1 = Some (r2, g2)
    /\ players g2
       = <[w := Player.set_stack (Player.stack p + pot g + pot g) p]> (players g)
    /\ pot g2 = pot g
    /\ (pot g <> 0 -> g1 <> g /\ g2 <> g1)
    /\ isSafeInteger (Player.stack p + pot g)
    /\ isSafeInteger (Player.stack p + pot g + pot g).
Proof.
  intros Hlow Hs Hp.
  destruct (getHandResult_twice g w p Hlow)
    as (r1 & g1 & r2 & g2 & H1 & H2 & H3 & H4 & H5 & H6 & H7 & H8).
  exists r1, g1, r2, g2. do 8 (split; [assumption|]).
  unfold isSafeInteger, MAX_SAFE_INTEGER, small, chipLimit in *. split; lia.
Qed.

Lemma getHandResult_awards_pot_each_call_witness :
  exists g r1 g1 r2 g2,
    play [Fold; Fold; Fold; Fold; Fold] exampleHand = Some g
    /\ pot g = 60
    /\ getHandResult g = Some (r1, g1)
    /\ Player.stack <$> players g1 !! 2%nat = Some 10020
    /\ getHandResult g1 = Some (r2, g2)
    /\ Player.stack <$> players g2 !! 2%nat = Some 10080.
Proof.
  destruct (play [Fold; Fold; Fold; Fold; Fold] exampleHand)
    as [g|] eqn:E; [|vm_compute in E; discriminate E].
  vm_compute in E. injection E as Hg.
  assert (Hlow : lowestUnfolded (players g) 2
                   (Player.mk 3 "Player 3" 9960
                      [popped 2 (createDeck (fun _ => 0%nat));
                       popped 8 (createDeck (fun _ => 0%nat))]
                      40 false false false)).
  { rewrite <- Hg. split; [reflexivity|]. split; [reflexivity|].
    intros [|[|j]] q Hj Hq; [| |lia]; injection Hq as <-; reflexivity. }
  destruct (getHandResult_awards_pot_each_call _ _ _ Hlow)
    as (r1 & g1 & r2 & g2 & H1 & Hp1 & _ & _ & H2 & Hp2 & _).
  { unfold small, chipLimit. simpl. lia. }
  { rewrite <- Hg. unfold small, chipLimit. simpl. lia. }
  exists g, r1, g1, r2, g2.
  split; [reflexivity|]. split; [now rewrite <- Hg|]. split; [exact H1|].
  rewrite Hp1, Hp2, <- Hg. repeat split; trivial.
Defined.




(** ** [startNewHand] on any table *)

Lemma startNewHand_stacks rnd hid g g' :
  length (players g) = 6%nat ->
  (smallBlindPosition g < 6)%nat -> (bigBlindPosition g < 6)%nat ->
  startNewHand rnd hid g = Some g' ->
  map Player.stack (players g')
  = imap (fun i p =>
            Player.stack p
            - (if (i =? smallBlindPosition g)%nat then smallBlind g else 0)
            - (if (i =? bigBlindPosition g)%nat then bigBlind g else 0))
         (players g).
Proof.
  unfold startNewHand. generalize (createDeck rnd) as d. intros d.
  destruct g as [ps dp sbp bbp cpi sb bb pt cc cb gs ss dk hd].
  cbn [players smallBlindPosition bigBlindPosition smallBlind bigBlind].
  intros Hlen Hsb Hbb.
  destruct (six_seats ps Hlen) as (p0 & p1 & p2 & p3 & p4 & p5 & ->).
  destruct p0, p1, p2, p3, p4, p5.
  destruct sbp as [|[|[|[|[|[|sbp]]]]]]; try (exfalso; lia);
    (destruct bbp as [|[|[|[|[|[|bbp]]]]]]; try (exfalso; lia));
    cbv -[last removelast Z.add Z.sub]; intros [= <-];
    cbv -[Z.add Z.sub]; repeat (f_equal; try lia).
Qed.


(** X11. On any table of six whose blind positions are seats,
    [startNewHand] returns: the pot is the two blinds and [currentBet] the
    big blind, the street is preflop with an empty board, the seat after
    the big blind is to act, and every seat is back in the hand with two
    cards from a fresh full deck.  Stacks carry over, less the blind at
    the two blind seats: the chips of the new pot and the stacks are the
    chips the stacks held before, so whatever the old pot held is gone.
    Dealer, blinds and stack size are not touched.  With fewer than six
    seats the call throws.  The amounts are stated for stacks and blinds
    that are integers of magnitude at most 2^50, where the subtractions
    of the source are exact. *)
Theorem startNewHand_on_any_table rnd hid g :
  (length (players g) = 6%nat ->
   (smallBlindPosition g < 6)%nat -> (bigBlindPosition g < 6)%nat ->
   Forall (fun p => small (Player.stack p)) (players g) ->
   small (smallBlind g) -> small (bigBlind g) ->
   exists g',
     startNewHand rnd hid g = Some g'
     /\ pot g' = smallBlind g + bigBlind g
     /\ pot g' + totalStacks (players g') = totalStacks (players g)
     /\ currentBet g' = bigBlind g /\ gameState g' = preflop
     /\ communityCards g' = []
     /\ currentPlayerIndex g' = ((bigBlindPosition g + 1) mod 6)%nat
     /\ handId g' = hid
     /\ (dealerPosition g', smallBlindPosition g', bigBlindPosition g',
         smallBlind g', bigBlind g', stackSize g')
        = (dealerPosition g, smallBlindPosition g, bigBlindPosition g,
           smallBlind g, bigBlind g, stackSize g)
     /\ length (players g') = 6%nat
     /\ Forall (fun p => handDealt p /\ Player.isFolded p = false
                         /\ Player.isAllIn p = false /\ Player.hasActed p = false)
               (players g')
     /\ map Player.id (players g') = map Player.id (players g)
     /\ length (deck g') = 40%nat
     /\ cardsInPlay g' ≡ₚ map Some (createDeck rnd)
     /\ map Player.stack (players g')
        = imap (fun i p =>
                  Player.stack p
                  - (if (i =? smallBlindPosition g)%nat then smallBlind g else 0)
                  - (if (i =? bigBlindPosition g)%nat then bigBlind g else 0))
               (players g)
     /\ Forall (fun p => isSafeInteger (Player.stack p)) (players g')
     /\ isSafeInteger (pot g'))
  /\ ((length (players g) < 6)%nat -> startNewHand rnd hid g = None).
Proof.
  split.
  - intros Hlen Hsb Hbb Hstacks Hs Hb.
    destruct (startNewHand_six rnd hid g Hlen Hsb Hbb) as (g' & Hn & Hpot & Hrest).
    pose proof (startNewHand_stacks rnd hid g g' Hlen Hsb Hbb Hn) as Hst.
    destruct Hrest as (H1 & H2 & H3 & H4 & H5 & H6 & H7 & H8 & H9 & H10 & H11 & H12).
    exists g'. do 14 (split; [assumption|]). split; [exact Hst|]. split.
    + apply (proj1 (Forall_fmap Player.stack isSafeInteger (players g'))).
      change (Player.stack <$> players g') with (map Player.stack (players g')).
      rewrite Hst.
      apply Forall_lookup. intros i x. rewrite list_lookup_imap.
      destruct (players g !! i) as [p|] eqn:Hp; simpl; [|discriminate].
      intros [= <-]. pose proof (Forall_lookup_1 _ _ _ _ Hstacks Hp) as Hsp.
      simpl in Hsp.
      unfold isSafeInteger, MAX_SAFE_INTEGER, small, chipLimit in *.
      repeat split_if; lia.
    + rewrite Hpot.
      unfold isSafeInteger, MAX_SAFE_INTEGER, small, chipLimit in *. lia.
  - unfold startNewHand. destruct g as [ps dp sbp bbp cpi sb bb pt cc cb gs ss dk hd].
    cbn [players]. intros Hlen.
    do 6 (destruct ps as [|? ps]; [cbv -[last removelast createDeck]; reflexivity|]).
    simpl in Hlen. lia.
Qed.

Lemma startNewHand_on_any_table_witness :
  exists g r g1 g2,
    play [Raise 100; Fold; Fold; Fold; Fold; Fold] exampleHand = Some g
    /\ getHandResult g = Some (r, g1)
    /\ totalStacks (players g1) = 60000
    /\ startNewHand (fun i => i) "second" g1 = Some g2
    /\ pot g2 = 60 /\ pot g2 + totalStacks (players g2) = 60000
    /\ startNewHand (fun i => i) "none" (fieldDefaults 10000) = None.
Proof.
  do 4 eexists.
  split; [vm_compute; reflexivity|]. split; [vm_compute; reflexivity|].
  split; [reflexivity|].
  match goal with
  | |- startNewHand ?rnd ?hid ?g1 = _ /\ _ =>
      destruct (startNewHand_on_any_table rnd hid g1) as [Hsome _];
      destruct (startNewHand_on_any_table rnd "none" (fieldDefaults 10000))
        as [_ Hnone];
      destruct (Hsome eq_refl ltac:(simpl; lia) ltac:(simpl; lia))
        as (g2 & Hs & Hpot & Hsum & _);
        [ repeat constructor; unfold small, chipLimit; simpl; lia
        | unfold small, chipLimit; simpl; lia
        | unfold small, chipLimit; simpl; lia | ]
  end.
  split; [vm_compute; reflexivity|].
  vm_compute in Hs. injection Hs as <-.
  split; [exact Hpot|]. split; [exact Hsum|].
  apply Hnone. simpl. lia.
Defined.


(** ** A bet or raise re-opens the action *)

Lemma canAct_strip ps : length (canAct (map strip ps)) = length (canAct ps).
Proof.
  unfold canAct. induction ps as [|x ps IH]; simpl; trivial.
  destruct (negb (Player.isFolded x) && negb (Player.isAllIn x)); simpl;
    now rewrite IH.
Qed.

Lemma other_active ps c :
  (2 <= length (canAct ps))%nat ->
  exists i p, i <> c /\ ps !! i = Some p /\ isOut p = false.
Proof.
  revert c. induction ps as [|x ps IH]; intros c; [simpl; lia|].
  unfold canAct. simpl.
  destruct (negb (Player.isFolded x) && negb (Player.isAllIn x)) eqn:Hx; simpl.
  - intros H. destruct c as [|c].
    + destruct (live_seat_of_active ps) as (i & p & Hi & Hp); [lia|].
      exists (S i), p. repeat split; [lia| exact Hi | exact Hp].
    + exists 0%nat, x. repeat split; [lia|].
      unfold isOut. apply andb_true_iff in Hx as [Hf Ha].
      apply negb_true_iff in Hf, Ha. now rewrite Hf, Ha.
  - intros H. destruct (IH (pred c) H) as (i & p & Hne & Hi & Hp).
    exists (S i), p. repeat split; [lia | exact Hi | exact Hp].
Qed.

Lemma round_open g i p :
  players g !! i = Some p -> isOut p = false -> Player.hasActed p = false ->
  (2 <= length (canAct (players g)))%nat ->
  isBettingRoundComplete g = false.
Proof.
  intros Hi Hout Hacted Htwo. unfold isBettingRoundComplete.
  change (List.filter _ (players g)) with (canAct (players g)).
  apply orb_false_iff. split; [|apply Nat.leb_gt; lia].
  destruct (forallb _ (canAct (players g))) eqn:E; [|reflexivity].
  rewrite forallb_forall in E. specialize (E p).
  rewrite Hacted in E. simpl in E. symmetry. apply E.
  unfold canAct. apply filter_In. split.
  - apply list_elem_of_In. exact (list_elem_of_lookup_2 _ _ _ Hi).
  - unfold isOut in Hout. apply orb_false_iff in Hout as [-> ->]. reflexivity.
Qed.

Lemma next_seat_other c k :
  (c < 6)%nat -> (k < 5)%nat -> (((c + 1) mod 6 + k) mod 6)%nat <> c.
Proof.
  intros Hc Hk.
  do 6 (destruct c as [|c];
        [do 5 (destruct k as [|k]; [vm_compute; discriminate|]); lia|]).
  lia.
Qed.

Lemma offset_other c i :
  (c < 6)%nat -> (i < 6)%nat -> i <> c ->
  exists k, (k < 5)%nat /\ (((c + 1) mod 6 + k) mod 6)%nat = i.
Proof.
  intros Hc Hi Hne. exists ((i + 5 - c) mod 6)%nat.
  do 6 (destruct c as [|c];
        [do 6 (destruct i as [|i];
               [first [congruence | split; [vm_compute; lia | reflexivity]]|]);
         lia|]).
  lia.
Qed.

(** The [do ... while] loop stops at the first seat that can act. *)
Lemma seekNext_first left g k p :
  length (players g) = 6%nat -> (k < left)%nat ->
  players g !! ((currentPlayerIndex (stepIndex g) + k) mod 6)%nat = Some p ->
  isOut p = false ->
  exists k' q,
    (k' <= k)%nat
    /\ seekNext left g
       = Some (set_currentPlayerIndex
                 ((currentPlayerIndex (stepIndex g) + k') mod 6)%nat g)
    /\ players g !! ((currentPlayerIndex (stepIndex g) + k') mod 6)%nat = Some q
    /\ isOut q = false.
Proof.
  revert g k. induction left as [|left IH]; intros g k Hlen Hk Hp Hlive; [lia|].
  simpl seekNext.
  destruct (currentIsOut_total _ (stepIndex_in_range g Hlen)) as [b Hb].
  rewrite Hb. simpl.
  destruct (currentIsOut_Some _ _ Hb) as (q & Hq & Hqb).
  assert (Hsmall : (currentPlayerIndex (stepIndex g) < 6)%nat)
    by (simpl; apply Nat.mod_upper_bound; lia).
  destruct b.
  - destruct k as [|k].
    + rewrite Nat.add_0_r, Nat.mod_small in Hp by exact Hsmall.
      simpl in Hq, Hp. rewrite Hq in Hp. injection Hp as ->. congruence.
    + destruct (IH (stepIndex g) k) as (k' & r & Hk' & Hs & Hr & Hrl);
        [exact Hlen | lia | | exact Hlive | ].
      * simpl. simpl in Hp. rewrite Nat.Div0.add_mod_idemp_l.
        rewrite <- Hp. f_equal. f_equal. lia.
      * exists (S k'), r.
        assert (E : ((currentPlayerIndex (stepIndex (stepIndex g)) + k') mod 6
                     = (currentPlayerIndex (stepIndex g) + S k') mod 6)%nat).
        { simpl. rewrite Nat.Div0.add_mod_idemp_l. f_equal. lia. }
        simpl in E, Hs, Hr |- *. rewrite <- E.
        split; [lia|]. split; [exact Hs|]. split; assumption.
  - exists 0%nat, q. rewrite Nat.add_0_r, Nat.mod_small by exact Hsmall.
    split; [lia|]. split; [now destruct g|]. split; assumption.
Qed.

Lemma moveToNextBettingRound_advances g g' :
  gameState g <> showdown -> moveToNextBettingRound g = Some g' ->
  (streetRank (gameState g) < streetRank (gameState g'))%nat.
Proof.
  unfold moveToNextBettingRound. cbn [gameState set_currentBet set_players].
  intros Hne. destruct (gameState g) eqn:Hs; try congruence;
    (split_if;
     [ intros [= <-] | intros H; apply seekFromDealer_inv in H as [i ->] ]);
    simpl; rewrite ?Hs; simpl; lia.
Qed.

(** A bet, raise or all-in does not end the hand by itself. *)
Lemma writes_not_complete a g actor g' :
  a <> Fold -> getCurrentPlayer g = Some actor -> rejected a g = false ->
  moveToNextPlayer (writes a g actor) = Some g' ->
  isHandComplete (writes a g actor) = false.
Proof.
  intros Ha Hactor Hrej Hm.
  assert (Hact : act a g = Some (narrativeOf a g actor, g')).
  { rewrite (act_writes a g actor Hactor Hrej). unfold finish. now rewrite Hm. }
  destruct (act_accepted a g actor _ Hactor Hrej Hact) as (g1 & E & Hs & _).
  simpl in E. subst g1.
  pose proof (moveToNextPlayer_frame _ _ Hm) as Hf. unfold frame in Hf.
  injection Hf as Hseats _ _ _. rewrite Hseats in Hs.
  pose proof (seats_lookup_actor g actor Hactor) as Hi.
  destruct (notFolded_insert (seats g) _ _ (strip (actorAfter a g actor)) Hi)
    as [_ Heq].
  rewrite <- Hs in Heq. unfold seats in Heq. rewrite !notFolded_strip in Heq.
  destruct (getCurrentPlayer_Some g actor Hactor) as [Hc _]. rewrite <- Hc.
  apply isHandComplete_same.
  - apply writes_fields.
  - apply Heq. simpl. exact (isFolded_actorAfter a g actor Ha).
Qed.

(** X6. After an accepted bet or raise, or an all-in that exceeds the
    current bet, every seat other than the actor's that has not folded
    has [hasActed = false].  If at least two seats can still act (have
    neither folded nor gone all-in) the street stays open: the betting
    round is not complete and the turn passes to a seat other than the
    actor's that can act and has not acted.  If at most one seat can
    still act the street closes at once and the street bets are reset,
    whether or not that seat has matched the bet.  Stated for an actor's
    stack and street bet, a current bet and an amount that are integers
    of magnitude at most 2^50, where the sums that decide the all-in flag
    and the comparison with the current bet are exact in the source. *)
Theorem bet_reopens_the_action a g actor narrative g' :
  length (players g) = 6%nat ->
  getCurrentPlayer g = Some actor ->
  small (Player.stack actor) -> small (Player.currentBet actor) ->
  small (currentBet g) -> small (amountOf a) ->
  act a g = Some (narrative, g') -> rejected a g = false -> reopens a g = true ->
  (forall i p,
     i <> currentPlayerIndex g -> players g' !! i = Some p ->
     Player.isFolded p = false -> Player.hasActed p = false)
  /\ ((2 <= length (canAct (players g')))%nat ->
      gameState g' = gameState g
      /\ isBettingRoundComplete g' = false
      /\ currentPlayerIndex g' <> currentPlayerIndex g
      /\ exists q,
           players g' !! currentPlayerIndex g' = Some q
           /\ isOut q = false /\ Player.hasActed q = false)
  /\ ((length (canAct (players g')) <= 1)%nat ->
      (streetRank (gameState g) < streetRank (gameState g'))%nat
      /\ currentBet g' = 0
      /\ Forall (fun p => Player.currentBet p = 0) (players g'))
  /\ isSafeInteger (currentBet g - Player.currentBet actor + amountOf a)
  /\ isSafeInteger (Player.currentBet actor + Player.stack actor).
Proof.
  intros Hlen Hactor Hss Hsb Hsc Hsa Hact Hrej Hre.
  destruct (act_inv a g _ Hact) as [[E _]|(actor1 & g1 & _ & Hactor1 & Hm & E)];
    [congruence|].
  rewrite Hactor in Hactor1. injection Hactor1 as <-.
  injection E as _ <-.
  assert (Hsafe : isSafeInteger (currentBet g - Player.currentBet actor + amountOf a)
                  /\ isSafeInteger (Player.currentBet actor + Player.stack actor))
    by (unfold isSafeInteger, MAX_SAFE_INTEGER, small, chipLimit in *; lia).
  clear Hss Hsb Hsc Hsa.
  cut (forall P Q R T : Prop, P /\ Q /\ R -> T -> P /\ Q /\ R /\ T); [|tauto].
  intros Hcut. apply Hcut; [|exact Hsafe]. clear Hcut Hsafe.
  assert (Ha : a <> Fold) by (intros ->; discriminate Hre).
  set (w := writes a g actor) in *.
  destruct (writes_fields a g actor) as (Hws & Hwi & _ & Hwl). fold w in Hws, Hwi, Hwl.
  assert (W1 : forall i p, i <> currentPlayerIndex g -> players w !! i = Some p ->
                           Player.isFolded p = false -> Player.hasActed p = false).
  { intros i p Hne Hp Hf. subst w. unfold reopens in Hre. rewrite Hactor in Hre.
    destruct a; try discriminate Hre; unfold writes in Hp; cbv zeta in Hp;
      try rewrite Hre in Hp;
      exact (lookup_resetOthersActed _ i p Hp Hne Hf). }
  pose proof (writes_not_complete a g actor g' Ha Hactor Hrej Hm) as W2.
  fold w in W2.
  assert (Hcpi : (currentPlayerIndex g < 6)%nat).
  { apply getCurrentPlayer_Some in Hactor as [_ Hl].
    apply lookup_lt_Some in Hl. now rewrite Hlen in Hl. }
  assert (Hcount : length (canAct (players g')) = length (canAct (players w))).
  { destruct (moveToNextPlayer_players _ _ Hm) as [->| ->];
      [reflexivity|apply canAct_strip]. }
  split; [|split].
  - intros i p Hne Hp Hf.
    destruct (moveToNextPlayer_players _ _ Hm) as [E|E]; rewrite E in Hp.
    + exact (W1 i p Hne Hp Hf).
    + rewrite list_lookup_fmap in Hp.
      destruct (players w !! i) as [q|]; [|discriminate Hp].
      simpl in Hp. now injection Hp as <-.
  - intros Htwo. rewrite Hcount in Htwo.
    destruct (other_active (players w) (currentPlayerIndex g) Htwo)
      as (i & p & Hne & Hi & Hout).
    assert (Hpf : Player.isFolded p = false)
      by (unfold isOut in Hout; now apply orb_false_iff in Hout as [? _]).
    pose proof (round_open w i p Hi Hout (W1 i p Hne Hi Hpf) Htwo) as Hopen.
    unfold moveToNextPlayer in Hm. rewrite W2, Hopen in Hm.
    assert (Hi6 : (i < 6)%nat)
      by (apply lookup_lt_Some in Hi; now rewrite Hwl, Hlen in Hi).
    destruct (offset_other (currentPlayerIndex g) i Hcpi Hi6 Hne) as (k & Hk & Hki).
    destruct (seekNext_first 6 w k p) as (k' & q & Hk' & Hs & Hq & Hql).
    { now rewrite Hwl. }
    { lia. }
    { simpl. rewrite Hwi, Hki. exact Hi. }
    { exact Hout. }
    rewrite Hs in Hm. injection Hm as <-. simpl in Hq. rewrite Hwi in Hq.
    cbn [gameState isBettingRoundComplete set_currentPlayerIndex players
         currentBet currentPlayerIndex].
    rewrite Hwi.
    assert (Hother : (((currentPlayerIndex g + 1) mod 6 + k') mod 6)%nat
                     <> currentPlayerIndex g)
      by (apply next_seat_other; lia).
    split; [exact Hws|]. split; [exact Hopen|]. split; [exact Hother|].
    exists q. split; [exact Hq|]. split; [exact Hql|].
    apply (W1 _ q Hother Hq).
    unfold isOut in Hql. now apply orb_false_iff in Hql as [? _].
  - intros Hone. rewrite Hcount in Hone.
    assert (Hdone : isBettingRoundComplete w = true).
    { unfold isBettingRoundComplete.
      change (List.filter _ (players w)) with (canAct (players w)).
      apply orb_true_iff. right. apply Nat.leb_le. exact Hone. }
    unfold moveToNextPlayer in Hm. rewrite W2, Hdone in Hm.
    assert (Hns : gameState w <> showdown).
    { intros Hsd. unfold isHandComplete in W2. rewrite Hsd in W2.
      now rewrite orb_true_r in W2. }
    pose proof (moveToNextBettingRound_advances w g' Hns Hm) as Hadv.
    rewrite Hws in Hadv. split; [exact Hadv|].
    apply moveToNextBettingRound_inv in Hm as (Hp & _ & _ & _ & Hc).
    split; [exact Hc|]. rewrite Hp. apply Forall_forall. intros x Hx.
    apply list_elem_of_fmap in Hx as (y & -> & _). reflexivity.
Qed.

Lemma bet_reopens_the_action_witness :
  exists narrative g' q,
    act (Raise 100) exampleHand = Some (narrative, g')
    /\ gameState g' = preflop
    /\ currentPlayerIndex g' = 4%nat
    /\ players g' !! 4%nat = Some q
    /\ Player.hasActed q = false
    /\ isBettingRoundComplete g' = false.
Proof.
  destruct (act (Raise 100) exampleHand) as [[n g']|] eqn:E;
    [|vm_compute in E; discriminate E].
  destruct (getCurrentPlayer exampleHand) as [actor|] eqn:Hactor;
    [|discriminate Hactor].
  destruct (bet_reopens_the_action (Raise 100) exampleHand actor n g'
              eq_refl Hactor) as (_ & Hopen & _);
    [ vm_compute in Hactor; injection Hactor as <-; unfold small, chipLimit; simpl; lia
    | vm_compute in Hactor; injection Hactor as <-; unfold small, chipLimit; simpl; lia
    | unfold small, chipLimit; simpl; lia
    | unfold small, chipLimit; simpl; lia
    | exact E | reflexivity | reflexivity | ].
  vm_compute in E. injection E as <- <-.
  destruct Hopen as (Hs & Hr & _ & q & Hq & _ & Hacted); [simpl; lia|].
  simpl in Hq. injection Hq as <-.
  do 3 eexists. split; [reflexivity|]. split; [exact Hs|].
  split; [reflexivity|]. split; [reflexivity|]. split; [reflexivity|exact Hr].
Defined.

(** The street can close on a seat that has not matched the bet: after
    four folds the small blind goes all-in for 9980 more, the big blind is
    the only seat left that can act, the street closes and the big blind
    is offered a check on the flop. *)
Example all_in_over_the_blind_closes_the_street :
  exists g,
    play [Fold; Fold; Fold; Fold; AllIn] exampleHand = Some g
    /\ gameState g = flop /\ currentPlayerIndex g = 2%nat
    /\ fst (getValidActions g) = ["fold"; "check"; "bet"; "allin"].
Proof. eexists. split; [vm_compute; reflexivity|]. repeat split. Qed.


(** ** Chips on the page *)

Lemma pageReachSmall_pageReach pg : pageReachSmall pg -> pageReach pg.
Proof.
  induction 1 as [|pg pg' _ IH Hclick _]; [constructor|].
  exact (pageReach_click pg pg' IH Hclick).
Qed.

Lemma pageReachSmall_small pg : pageReachSmall pg -> smallPage pg.
Proof.
  destruct 1 as [|pg pg' _ _ Hsmall]; [|exact Hsmall].
  unfold smallPage, small, chipLimit. simpl. lia.
Qed.

(** X14. Through the page chips are conserved across hands.  On every
    page a user can reach by the enabled controls while the numbers on
    the page are integers of magnitude at most 2^50 -- the stack size
    typed in, the bet and raise amounts, and the stacks, street bets, pot
    and current bet of the table -- the table has six seats; while a hand
    is on, it is not complete and the pot plus the six stacks is six
    times the stack size of the table; between hands the six stacks alone
    are: every hand is settled exactly once, and the next one starts from
    the stacks the last one left.  Six times the stack size is a safe
    integer. *)
Theorem page_conserves_chips pg :
  pageReachSmall pg ->
  match Page.game pg with
  | None => Page.isGameStarted pg = false
  | Some g =>
      length (players g) = 6%nat
      /\ (Page.isGameStarted pg = true ->
          isHandComplete g = false
          /\ pot g + totalStacks (players g) = 6 * stackSize g)
      /\ (Page.isGameStarted pg = false ->
          totalStacks (players g) = 6 * stackSize g)
      /\ isSafeInteger (6 * stackSize g)
  end.
Proof.
  intros H. pose proof (pageReachSmall_small pg H) as (_ & _ & _ & Hsmall).
  destruct (pageReach_invariant pg (pageReachSmall_pageReach pg H))
    as (_ & _ & Hinv).
  destruct (Page.game pg) as [g|]; [|exact Hinv].
  destruct Hinv as (Hlen & _ & _ & _ & Hc).
  destruct Hsmall as (HS & _).
  split; [exact Hlen|]. split; [|split].
  - destruct (Page.isGameStarted pg); intros E; [exact Hc|discriminate E].
  - destruct (Page.isGameStarted pg); intros E; [discriminate E|exact Hc].
  - unfold isSafeInteger, MAX_SAFE_INTEGER, small, chipLimit in *. lia.
Qed.

Ltac small_page :=
  unfold smallPage, smallGame, small, chipLimit; simpl;
  repeat split; try lia; repeat constructor; simpl; lia.

Lemma page_conserves_chips_witness :
  exists pg g,
    pageReachSmall pg /\ Page.game pg = Some g /\ Page.isGameStarted pg = false
    /\ length (Page.posted pg) = 1%nat
    /\ totalStacks (players g) = 60000.
Proof.
  eassert (Hreach : pageReachSmall _).
  { eapply pageReachSmall_click;
      [eapply pageReachSmall_click;
        [eapply pageReachSmall_click;
          [eapply pageReachSmall_click;
            [eapply pageReachSmall_click;
              [eapply pageReachSmall_click;
                [eapply pageReachSmall_click;
                  [apply pageReachSmall_initial
                  |apply click_apply; reflexivity
                  |small_page]
                |eapply (click_deal_cards (fun i => i) "first");
                 [reflexivity | simpl; discriminate | vm_compute; reflexivity]
                |small_page]
              |press_button|small_page]
            |press_button|small_page]
          |press_button|small_page]
        |press_button|small_page]
      |press_button|small_page]. }
  match type of Hreach with
  | pageReachSmall ?pg =>
      exists pg; pose proof (page_conserves_chips pg Hreach) as H
  end.
  vm_compute in H. destruct H as (_ & _ & H & _).
  eexists. split; [exact Hreach|]. split; [vm_compute; reflexivity|].
  split; [reflexivity|]. split; [reflexivity|]. exact (H eq_refl).
Defined.


(** ** Chips stay in range *)

Lemma lookup_setCurrent p g i q :
  players (setCurrent p g) !! i = Some q ->
  (i = currentPlayerIndex g /\ q = p)
  \/ (i <> currentPlayerIndex g /\ players g !! i = Some q).
Proof.
  unfold setCurrent. simpl. intros H.
  apply list_lookup_insert_Some in H as [(<- & <- & _)|(Hne & H)]; auto.
Qed.

Lemma lookup_resetOthersActed_chips g i q :
  players (resetOthersActed g) !! i = Some q ->
  exists p,
    players g !! i = Some p
    /\ Player.stack q = Player.stack p
    /\ Player.currentBet q = Player.currentBet p.
Proof.
  unfold resetOthersActed. simpl. rewrite list_lookup_imap.
  destruct (players g !! i) as [p|]; simpl; [|discriminate].
  intros [= <-]. exists p. split; [reflexivity|]. now split_if.
Qed.

Lemma inRange_writes S a g actor :
  modest a -> inRange S g -> getCurrentPlayer g = Some actor ->
  rejected a g = false -> inRange S (writes a g actor).
Proof.
  intros Ha [Hall Hc] Hactor Hrej.
  destruct (getCurrentPlayer_Some g actor Hactor) as [_ Hl].
  pose proof (Forall_lookup_1 _ _ _ _ Hall Hl) as (Hs & Hb & Hsb).
  unfold rejected in Hrej. rewrite Hactor in Hrej.
  unfold modest, chipLimit in Ha.
  assert (Hkeep : forall i q, i <> currentPlayerIndex g ->
                    players g !! i = Some q ->
                    0 <= Player.stack q /\ 0 <= Player.currentBet q
                    /\ Player.stack q + Player.currentBet q <= S)
    by (intros i q _ Hq; exact (Forall_lookup_1 _ _ _ _ Hall Hq)).
  split.
  - apply Forall_lookup. intros i q Hq.
    destruct a; unfold writes in Hq; cbv zeta in Hq;
      try (destruct (currentBet g <? Player.currentBet actor + Player.stack actor));
      try (apply lookup_resetOthersActed_chips in Hq as (q' & Hq & -> & ->));
      (apply lookup_setCurrent in Hq as [[_ ->]|[Hne Hq]];
       [|exact (Hkeep i _ Hne Hq)]);
      unfold markAllInIfBroke; simpl in *; repeat split_if; simpl; lia.
  - destruct a; unfold writes; cbv zeta;
      try (destruct (Z.ltb_spec (currentBet g)
                       (Player.currentBet actor + Player.stack actor)));
      simpl in *; lia.
Qed.

Lemma inRange_moveToNextPlayer S g g' :
  inRange S g -> moveToNextPlayer g = Some g' -> inRange S g'.
Proof.
  intros [Hall Hc] Hm. split.
  - destruct (moveToNextPlayer_players _ _ Hm) as [->| ->]; [exact Hall|].
    apply Forall_fmap. eapply Forall_impl; [exact Hall|].
    intros p (Hs & Hb & Hsb). simpl. lia.
  - destruct (moveToNextPlayer_currentBet _ _ Hm) as [->| ->]; lia.
Qed.

Lemma inRange_act S a g r :
  modest a -> inRange S g -> act a g = Some r -> inRange S (snd r).
Proof.
  intros Ha Hin Hact.
  destruct (act_inv a g r Hact) as [[_ ->]|(actor & g' & Hrej & Hactor & Hm & ->)];
    [exact Hin|].
  exact (inRange_moveToNextPlayer S _ g'
           (inRange_writes S a g actor Ha Hin Hactor Hrej) Hm).
Qed.

Lemma hand_inRange S acts g :
  40 <= S -> Forall modest acts -> hand false (newGame S) acts g -> inRange S g.
Proof.
  intros HS Hacts Hhand. revert Hacts.
  induction Hhand as [rnd hid g Hstart | acts a g n g' _ IH Hact
                     | acts g _ IH | acts g r g' Hs _ _ _]; intros Hacts.
  - rewrite startNewHand_newGame in Hstart. injection Hstart as <-.
    split; [|simpl; lia]. simpl. repeat constructor; simpl; lia.
  - apply Forall_app in Hacts as [Hacts Ha].
    apply Forall_cons in Ha as [Ha _].
    exact (inRange_act S a g _ Ha (IH Hacts) Hact).
  - destruct (dealCommunityCards_fields g) as (Hp & _ & _ & Hc & _).
    specialize (IH Hacts). unfold inRange. now rewrite Hp, Hc.
  - discriminate Hs.
Qed.

(** X18. In a first hand with a starting stack [S] from 40 to 2^50 and
    bet and raise amounts from 0 to 2^50, in every state before
    settlement every seat's stack and street bet are between 0 and [S],
    together at most [S]; the current bet is between 0 and [S] and the
    pot between 0 and [6 * S].  All of them are safe integers, so the
    arithmetic of the source is exact throughout such a hand. *)
Theorem chips_stay_in_range S acts g :
  40 <= S <= chipLimit -> Forall modest acts ->
  hand false (newGame S) acts g ->
  Forall (fun p => 0 <= Player.stack p <= S /\ 0 <= Player.currentBet p <= S
                   /\ Player.stack p + Player.currentBet p <= S)
         (players g)
  /\ 0 <= currentBet g <= S
  /\ 0 <= pot g <= 6 * S
  /\ isSafeInteger (6 * S).
Proof.
  intros [HS HL] Hacts Hhand.
  destruct (hand_inRange S acts g HS Hacts Hhand) as [Hall Hc].
  pose proof (reach_chips S g (hand_reach _ _ _ _ Hhand)) as Hsum.
  pose proof (reach_six _ _ _ (hand_reach _ _ _ _ Hhand)) as Hlen.
  split; [|split; [exact Hc|split]].
  - eapply Forall_impl; [exact Hall|]. intros p (Hs & Hb & Hsb). simpl. lia.
  - destruct (six_seats _ Hlen) as (p0 & p1 & p2 & p3 & p4 & p5 & E).
    rewrite E in Hall, Hsum. unfold totalStacks in Hsum. simpl in Hsum.
    repeat match goal with
           | H : Forall _ (_ :: _) |- _ => apply Forall_cons in H as [? H]
           end.
    lia.
  - unfold isSafeInteger, MAX_SAFE_INTEGER, chipLimit in *. lia.
Qed.

Lemma chips_stay_in_range_witness :
  exists g,
    play [Raise 100; Call; Fold; AllIn; Fold; Call] exampleHand = Some g
    /\ 0 <= pot g <= 60000
    /\ Forall (fun p => 0 <= Player.stack p <= 10000) (players g).
Proof.
  destruct (play [Raise 100; Call; Fold; AllIn; Fold; Call] exampleHand)
    as [g|] eqn:E; [|vm_compute in E; discriminate E].
  exists g. split; [reflexivity|].
  destruct (chips_stay_in_range 10000 [Raise 100; Call; Fold; AllIn; Fold; Call] g)
    as (Hall & _ & Hpot & _).
  - unfold chipLimit. lia.
  - repeat constructor; unfold modest, chipLimit; simpl; lia.
  - exact (hand_play false _ [] _ exampleHand g (hand_exampleHand false) E).
  - split; [exact Hpot|]. eapply Forall_impl; [exact Hall|]. now intros p (H & _).
Defined.
